(** * SkipList: a shallow embedding of skiplist.go and its verification

    The Go package keeps a sentinel head node, a current level and an
    element count, and links tower nodes through per-level forward
    slices.  Pointers are modelled as optional positions in a store of
    nodes, Go's run-time panics and the two returned errors are kept
    apart, and every pointer-chasing loop carries an explicit bound. *)

From Stdlib Require Import ZArith Sorted Permutation.
From stdpp Require Import base strings list sorting sets.

Local Open Scope Z_scope.
#[local] Set Warnings "-clear-no-such-hyp".

(** ** Values of type interface{} *)

(** Dynamic types: the two the comparator knows, and all others. *)
Inductive GoType : Type :=
| TInt
| TString
| TOther (ty : nat).

(** A value of type [interface{}]: nil, or a value with its dynamic type. *)
Inductive iface : Type :=
| INil
| IInt (n : Z)
| IString (s : string)
| IOther (ty : nat) (v : nat).

Definition dyn_type (x : iface) : option GoType :=
  match x with
  | INil => None
  | IInt _ => Some TInt
  | IString _ => Some TString
  | IOther ty _ => Some (TOther ty)
  end.

Definition is_nil (x : iface) : bool :=
  match x with INil => true | _ => false end.

(** ** Nodes, the list and the store *)

Definition addr := nat.
(** A [*node]: nil or the position of a node in the store. *)
Definition ptr := option addr.

Definition ptr_eqb (p q : ptr) : bool :=
  match p, q with
  | None, None => true
  | Some a, Some b => Nat.eqb a b
  | _, _ => false
  end.

Record node : Type := mkNode {
  key : iface;
  value : iface;
  forward : list ptr
}.

(** The struct [SkipList], together with the nodes its pointers reach:
    [store] holds every node allocated so far, a node's address being its
    position. *)
Record SkipList : Type := mkSkipList {
  store : list node;
  head : addr;
  level : Z;
  length : Z;
  keyType : GoType
}.

(** [SkipListIterator]; its [list] field is the state the cursor is run in. *)
Record SkipListIterator : Type := mkIterator {
  it_node : ptr;
  isHead : bool
}.

(** [var DefaultMaxLevel = 48]: an exported package variable, which a
    program may assign; 48 is the value it is declared with.  [Clear]
    reads it when it is called, so [Clear] takes the value it holds then. *)
Definition DefaultMaxLevel : Z := 48.

(** Go's [int] is 64 bits wide; [++] and [--] wrap around. *)
Definition int_wrap (z : Z) : Z := (z + 2 ^ 63) mod 2 ^ 64 - 2 ^ 63.
Definition max_int : Z := 2 ^ 63 - 1.

(** The value of type [error]: nil or [errors.New msg]. *)
Definition error := option string.
Definition errors_New (msg : string) : error := Some msg.
Definition NilKey : error := errors_New "Key cannot be nil".
Definition NotFound : error := errors_New "Key not found".

(** ** Outcomes of a call *)

Inductive panic : Type :=
| IndexOutOfRange      (* slice index out of range *)
| NilDereference       (* field access through a nil pointer *)
| MakeSliceLen         (* make with a length out of range *)
| InvalidAddress.      (* a pointer outside the store; Go never builds one *)

(** A call returns, panics (the state is the one at the panic), or runs
    past the bound set on its loops. *)
Inductive outcome (A : Type) : Type :=
| Ret (a : A) (s : SkipList)
| Panic (p : panic) (s : SkipList)
| Diverge.
Arguments Ret {A} a s.
Arguments Panic {A} p s.
Arguments Diverge {A}.

Definition M (A : Type) : Type := SkipList → outcome A.

Definition ret {A} (a : A) : M A := λ s, Ret a s.
Definition throw {A} (p : panic) : M A := λ s, Panic p s.
Definition diverge {A} : M A := λ _, Diverge.
Definition bind {A B} (m : M A) (f : A → M B) : M B :=
  λ s, match m s with
       | Ret a s' => f a s'
       | Panic p s' => Panic p s'
       | Diverge => Diverge
       end.
Definition gets {A} (f : SkipList → A) : M A := λ s, Ret (f s) s.
Definition modify (f : SkipList → SkipList) : M unit := λ s, Ret tt (f s).

Notation "'let*' x ':=' m 'in' k" := (bind m (λ x, k))
  (at level 10, x pattern, m at level 100, k at level 200).
Notation "m ';;' k" := (bind m (λ _, k))
  (at level 100, k at level 200, right associativity).

(** *** Store and slice primitives *)

Definition set_store (h : list node) (s : SkipList) : SkipList :=
  mkSkipList h (head s) (level s) (length s) (keyType s).
Definition set_level (l : Z) (s : SkipList) : SkipList :=
  mkSkipList (store s) (head s) l (length s) (keyType s).
Definition set_length (n : Z) (s : SkipList) : SkipList :=
  mkSkipList (store s) (head s) (level s) n (keyType s).

(** The greatest length of a slice of pointers: 8-byte elements in an
    address space of 2^48 bytes. *)
Definition max_slice_len : Z := 2 ^ 45.

(** [make([]*node, n)] panics when [n] is negative or beyond the greatest
    length; within that range memory is taken not to run out. *)
Definition make (n : Z) : M (list ptr) :=
  if (n <? 0) || (max_slice_len <? n) then throw MakeSliceLen
  else ret (replicate (Z.to_nat n) None).

(** [l[i]] *)
Definition index {A} (l : list A) (i : Z) : M A :=
  if i <? 0 then throw IndexOutOfRange
  else match l !! Z.to_nat i with
       | Some x => ret x
       | None => throw IndexOutOfRange
       end.

(** [l[i] = x] on a slice held in a local variable *)
Definition index_set {A} (l : list A) (i : Z) (x : A) : M (list A) :=
  index l i;; ret (<[Z.to_nat i := x]> l).

(** [*p] *)
Definition deref (p : ptr) : M node :=
  match p with
  | None => throw NilDereference
  | Some a => λ s, match store s !! a with
                   | Some n => Ret n s
                   | None => Panic InvalidAddress s
                   end
  end.

(** [*p = n] *)
Definition assign (p : ptr) (n : node) : M unit :=
  match p with
  | None => throw NilDereference
  | Some a => λ s, match store s !! a with
                   | Some _ => Ret tt (set_store (<[a := n]> (store s)) s)
                   | None => Panic InvalidAddress s
                   end
  end.

(** [&node{...}] *)
Definition alloc (n : node) : M ptr :=
  λ s, Ret (Some (List.length (store s))) (set_store (store s ++ [n]) s).

(** [p.forward[i]] *)
Definition get_forward (p : ptr) (i : Z) : M ptr :=
  let* n := deref p in index (forward n) i.

(** [p.forward[i] = q] *)
Definition set_forward (p : ptr) (i : Z) (q : ptr) : M unit :=
  let* n := deref p in
  let* fw := index_set (forward n) i q in
  assign p (mkNode (key n) (value n) fw).

(** [p.key], [p.value] *)
Definition get_key (p : ptr) : M iface := let* n := deref p in ret (key n).
Definition get_value (p : ptr) : M iface := let* n := deref p in ret (value n).

(** [p.value = v] *)
Definition set_value (p : ptr) (v : iface) : M unit :=
  let* n := deref p in assign p (mkNode (key n) v (forward n)).

(** Bound on the number of steps of a walk along forward pointers: a walk
    that visits more nodes than the store holds has entered a cycle. *)
Definition walk_bound : M nat := gets (λ s, S (List.length (store s))).

(** ** The package *)

(** [NewSkipList] *)
Definition NewSkipList (kt : GoType) : SkipList :=
  mkSkipList [mkNode INil INil (replicate 1 None)] 0%nat 1 0 kt.

(** [randomLevel]: [rnd i] is the outcome of the [i]-th test
    [rand.Float64() < 0.5] of the call. *)
Fixpoint randomLevel_loop (n : nat) (rnd : nat → bool) (i : nat) (lvl : Z) : option Z :=
  match n with
  | O => None
  | S n' => if rnd i && (lvl <? 32)
            then randomLevel_loop n' rnd (S i) (int_wrap (lvl + 1))
            else Some lvl
  end.

Definition randomLevel (rnd : nat → bool) : M Z :=
  match randomLevel_loop 32 rnd 0 1 with
  | Some lvl => ret lvl
  | None => diverge
  end.

Definition strings_Compare (a b : string) : Z :=
  match String.compare a b with
  | Lt => -1
  | Eq => 0
  | Gt => 1
  end.

(** [compareInt] *)
Definition compareInt (a b : iface) : Z :=
  match a with
  | IInt keyA =>
      match b with
      | IInt keyB => if keyA <? keyB then -1 else if keyA >? keyB then 1 else 0
      | _ => 0
      end
  | _ => 0
  end.

(** [compareString] *)
Definition compareString (a b : iface) : Z :=
  match a with
  | IString keyA =>
      match b with
      | IString keyB => strings_Compare keyA keyB
      | _ => 0
      end
  | _ => 0
  end.

(** The method [compare] of [SkipList]; the receiver is not used. *)
Definition compare (a b : iface) : Z :=
  match a with
  | IInt a =>
      match b with
      | IInt b => if a <? b then -1 else if a >? b then 1 else 0
      | _ => 0
      end
  | IString a =>
      match b with
      | IString b => strings_Compare a b
      | _ => 0
      end
  | _ => 0
  end.

(** The inner loop shared by Insert, Search and Delete:
    [for current.forward[i] != nil && s.compare(current.forward[i].key, key) < 0] *)
Fixpoint advance (fuel : nat) (i : Z) (k : iface) (current : ptr) : M ptr :=
  match fuel with
  | O => diverge
  | S fuel' =>
      let* nx := get_forward current i in
      match nx with
      | None => ret current
      | Some _ =>
          let* nk := get_key nx in
          if compare nk k <? 0 then advance fuel' i k nx else ret current
      end
  end.

(** The outer loop of Insert and Delete, [for i := s.level - 1; i >= 0; i--],
    run for the [n] levels below [n]; it fills the update vector. *)
Fixpoint descend (n : nat) (k : iface) (current : ptr) (update : list ptr)
  : M (ptr * list ptr) :=
  match n with
  | O => ret (current, update)
  | S i =>
      let* fuel := walk_bound in
      let* current := advance fuel (Z.of_nat i) k current in
      let* update := index_set update (Z.of_nat i) current in
      descend i k current update
  end.

(** The outer loop of Search: the same walk with no update vector. *)
Fixpoint descend_search (n : nat) (k : iface) (current : ptr) : M ptr :=
  match n with
  | O => ret current
  | S i =>
      let* fuel := walk_bound in
      let* current := advance fuel (Z.of_nat i) k current in
      descend_search i k current
  end.

(** [current != nil && s.compare(current.key, key) == 0] *)
Definition is_hit (current : ptr) (k : iface) : M bool :=
  match current with
  | None => ret false
  | Some _ => let* ck := get_key current in ret (compare ck k =? 0)
  end.

(** [for i := s.level; i < level; i++ { update[i] = s.head }], [n] rounds from [i] *)
Fixpoint raise_update (n : nat) (i : Z) (update : list ptr) : M (list ptr) :=
  match n with
  | O => ret update
  | S n' =>
      let* hd := gets head in
      let* update := index_set update i (Some hd) in
      raise_update n' (i + 1) update
  end.

(** [for i := 0; i < level; i++ { ... }] of Insert, [n] rounds from [i] *)
Fixpoint splice (n : nat) (i : Z) (newNode : ptr) (update : list ptr) : M unit :=
  match n with
  | O => ret tt
  | S n' =>
      let* u := index update i in
      let* nx := get_forward u i in
      set_forward newNode i nx;;
      set_forward u i newNode;;
      splice n' (i + 1) newNode update
  end.

(** [Insert] *)
Definition Insert (rnd : nat → bool) (k v : iface) : M error :=
  if is_nil k then ret NilKey else
  let* lvl := gets level in
  let* update := make lvl in
  let* hd := gets head in
  let* (current, update) := descend (Z.to_nat lvl) k (Some hd) update in
  let* current := get_forward current 0 in
  let* hit := is_hit current k in
  if hit then
    set_value current v;;
    ret None
  else
    let* lvl' := randomLevel rnd in
    let* update :=
      (if lvl' >? lvl then
         let* update := raise_update (Z.to_nat (lvl' - lvl)) lvl update in
         modify (set_level lvl');;
         ret update
       else ret update) in
    let* fw := make lvl' in
    let* newNode := alloc (mkNode k v fw) in
    splice (Z.to_nat lvl') 0 newNode update;;
    modify (λ s, set_length (int_wrap (length s + 1)) s);;
    ret None.

(** [Search] *)
Definition Search (k : iface) : M (iface * error) :=
  if is_nil k then ret (INil, NilKey) else
  let* lvl := gets level in
  let* hd := gets head in
  let* current := descend_search (Z.to_nat lvl) k (Some hd) in
  let* current := get_forward current 0 in
  let* hit := is_hit current k in
  if hit then
    let* v := get_value current in
    ret (v, None)
  else ret (INil, NotFound).

(** The unlinking loop of Delete, with its [break], [n] rounds from [i] *)
Fixpoint unlink (n : nat) (i : Z) (current : ptr) (update : list ptr) : M unit :=
  match n with
  | O => ret tt
  | S n' =>
      let* u := index update i in
      let* nx := get_forward u i in
      if ptr_eqb nx current then
        let* cf := get_forward current i in
        set_forward u i cf;;
        unlink n' (i + 1) current update
      else ret tt
  end.

(** [for s.level > 1 && s.head.forward[s.level-1] == nil { s.level-- }] *)
Fixpoint shrink (fuel : nat) : M unit :=
  match fuel with
  | O => diverge
  | S fuel' =>
      let* lvl := gets level in
      if lvl >? 1 then
        let* hd := gets head in
        let* top := get_forward (Some hd) (lvl - 1) in
        match top with
        | None => modify (set_level (int_wrap (lvl - 1)));; shrink fuel'
        | Some _ => ret tt
        end
      else ret tt
  end.

(** [Delete] *)
Definition Delete (k : iface) : M error :=
  if is_nil k then ret NilKey else
  let* lvl := gets level in
  let* update := make lvl in
  let* hd := gets head in
  let* (current, update) := descend (Z.to_nat lvl) k (Some hd) update in
  let* current := get_forward current 0 in
  let* hit := is_hit current k in
  if hit then
    let* lvl := gets level in
    unlink (Z.to_nat lvl) 0 current update;;
    let* lvl := gets level in
    shrink (S (Z.to_nat lvl));;
    modify (λ s, set_length (int_wrap (length s - 1)) s);;
    ret None
  else ret NotFound.

(** [Length] *)
Definition Length (s : SkipList) : Z := length s.

(** [Clear]; [maxLevel] is the value of the package variable
    [DefaultMaxLevel] at the call. *)
Definition Clear (maxLevel : Z) : M unit :=
  let* hd := gets head in
  let* n := deref (Some hd) in
  let* fw := make maxLevel in
  assign (Some hd) (mkNode (key n) (value n) fw);;
  modify (set_level 1);;
  modify (set_length 0).

(** [Iterator] *)
Definition Iterator : M SkipListIterator :=
  let* hd := gets head in ret (mkIterator (Some hd) true).

(** [Next]: the cursor is returned together with the boolean. *)
Definition Next (it : SkipListIterator) : M (bool * SkipListIterator) :=
  let* nx := get_forward (it_node it) 0 in
  match nx with
  | Some _ => ret (true, mkIterator nx false)
  | None => ret (false, it)
  end.

(** [Key] and [Value] of the cursor *)
Definition Key (it : SkipListIterator) : M iface :=
  if isHead it then ret INil else get_key (it_node it).
Definition Value (it : SkipListIterator) : M iface :=
  if isHead it then ret INil else get_value (it_node it).

(** The scanning loop of [MinString] *)
Fixpoint minString_loop (fuel : nat) (current : ptr) (minKey : string) : M string :=
  match fuel with
  | O => diverge
  | S fuel' =>
      match current with
      | None => ret minKey
      | Some _ =>
          let* k := get_key current in
          let minKey :=
            match k with
            | IString key =>
                if String.eqb minKey "" || String.ltb key minKey then key else minKey
            | _ => minKey
            end in
          let* current := get_forward current 0 in
          minString_loop fuel' current minKey
      end
  end.

(** [MinString] *)
Definition MinString : M (string * bool) :=
  let* len := gets length in
  if len =? 0 then ret (""%string, false) else
  let* hd := gets head in
  let* current := get_forward (Some hd) 0 in
  let* fuel := walk_bound in
  let* minKey := minString_loop fuel current "" in
  if negb (String.eqb minKey "") then ret (minKey, true) else ret (""%string, false).

(** The scanning loop of [MaxString] *)
Fixpoint maxString_loop (fuel : nat) (current : ptr) (maxKey : string) : M string :=
  match fuel with
  | O => diverge
  | S fuel' =>
      match current with
      | None => ret maxKey
      | Some _ =>
          let* k := get_key current in
          let maxKey :=
            match k with
            | IString key =>
                if String.eqb maxKey "" || String.ltb maxKey key then key else maxKey
            | _ => maxKey
            end in
          let* current := get_forward current 0 in
          maxString_loop fuel' current maxKey
      end
  end.

(** [MaxString] *)
Definition MaxString : M (string * bool) :=
  let* len := gets length in
  if len =? 0 then ret (""%string, false) else
  let* hd := gets head in
  let* current := get_forward (Some hd) 0 in
  let* fuel := walk_bound in
  let* maxKey := maxString_loop fuel current "" in
  if negb (String.eqb maxKey "") then ret (maxKey, true) else ret (""%string, false).






(** [compareKeysOrValues] *)
Definition compareKeysOrValues (a b : iface) : bool :=
  match a, b with
  | IInt intA, IInt intB => intA <? intB
  | IString strA, IString strB => String.ltb strA strB
  | _, _ => false
  end.

(** The collecting loop of [SortByKey]: [result = append(result, current.key)] *)
Fixpoint collect_keys (fuel : nat) (current : ptr) (result : list iface)
  : M (list iface) :=
  match fuel with
  | O => diverge
  | S fuel' =>
      match current with
      | None => ret result
      | Some _ =>
          let* k := get_key current in
          let* current := get_forward current 0 in
          collect_keys fuel' current (result ++ [k])
      end
  end.

Section SortByKey.

(** [sort.Slice] of the Go library, as a function of the less relation on
    elements and of the slice. *)
Variable sort_Slice : (iface → iface → bool) → list iface → list iface.

(** [SortByKey]; a nil slice is the empty list, and
    [make([]interface{}, 0, s.length)] panics on a negative capacity. *)
Definition SortByKey (reverse : bool) : M (list iface) :=
  let* len := gets length in
  if len =? 0 then ret [] else
  let* hd := gets head in
  let* current := get_forward (Some hd) 0 in
  let* result := (if len <? 0 then throw MakeSliceLen else ret []) in
  let* fuel := walk_bound in
  let* result := collect_keys fuel current result in
  if reverse
  then ret (sort_Slice (λ x y, compareKeysOrValues y x) result)
  else ret (sort_Slice (λ x y, compareKeysOrValues x y) result).

End SortByKey.

(** A full iteration by a client:
    [for it.Next() { out = append(out, pair{it.Key(), it.Value()}) }],
    which also counts the calls of [Next] that returned true. *)
Fixpoint iterate (fuel : nat) (it : SkipListIterator)
    (out : list (iface * iface)) (n : Z) : M (list (iface * iface) * Z) :=
  match fuel with
  | O => diverge
  | S fuel' =>
      let* (more, it) := Next it in
      if (more : bool) then
        let* k := Key it in
        let* v := Value it in
        iterate fuel' it (out ++ [(k, v)]) (n + 1)
      else ret (out, n)
  end.

Definition full_iteration : M (list (iface * iface) * Z) :=
  let* it := Iterator in
  let* fuel := walk_bound in
  iterate fuel it [] 0.

(** ** Running calls one after another *)

(** The state a call leaves behind; a panic that the caller recovers from
    leaves the state it was raised in. *)
Definition state_of {A} (o : outcome A) (dflt : SkipList) : SkipList :=
  match o with
  | Ret _ s => s
  | Panic _ s => s
  | Diverge => dflt
  end.

Definition result_of {A} (o : outcome A) : option A :=
  match o with
  | Ret a _ => Some a
  | _ => None
  end.

Definition no_coin : nat → bool := λ _, false.
Definition one_coin : nat → bool := λ i, Nat.eqb i 0.

(** The list of the example: insert (3,"c"), (1,"a"), (2,"b"), each node
    of height 1. *)
Definition ex_list1 : SkipList :=
  state_of (Insert no_coin (IInt 3) (IString "c") (NewSkipList TInt)) (NewSkipList TInt).
Definition ex_list2 : SkipList :=
  state_of (Insert no_coin (IInt 1) (IString "a") ex_list1) ex_list1.
Definition ex_list : SkipList :=
  state_of (Insert no_coin (IInt 2) (IString "b") ex_list2) ex_list2.

(** Two lists with the empty string as a key: [""] alone, and [""] with
    ["a"]. *)
Definition ex_empty_string : SkipList :=
  state_of (Insert no_coin (IString "") (IInt 0) (NewSkipList TString))
    (NewSkipList TString).
Definition ex_strings : SkipList :=
  state_of (Insert no_coin (IString "a") (IInt 1) ex_empty_string) ex_empty_string.

(** ** The shape of a list *)

(** [key_lt a b]: the comparator puts [a] strictly before [b]. *)
Definition key_lt (a b : iface) : Prop := compare a b < 0.

(** The forward pointer at level [i] of the node at address [a]. *)
Definition nxt (h : list node) (i : nat) (a : addr) : option ptr :=
  n ← h !! a; forward n !! i.

Definition key_at (h : list node) (a : addr) : iface :=
  from_option key INil (h !! a).
Definition value_at (h : list node) (a : addr) : iface :=
  from_option value INil (h !! a).

(** The addresses met when following the level-[i] pointers from [p] up to
    nil; [None] when the walk leaves the store, meets a node with no level
    [i], or does not reach nil within [fuel] nodes. *)
Fixpoint walk (fuel : nat) (h : list node) (i : nat) (p : ptr) : option (list addr) :=
  match p with
  | None => Some []
  | Some a =>
      match fuel with
      | O => None
      | S fuel' => q ← nxt h i a; (a ::.) <$> walk fuel' h i q
      end
  end.

(** The nodes of level [i], in the order of the chain that starts at
    [head.forward[i]]. *)
Definition level_chain (s : SkipList) (i : nat) : option (list addr) :=
  q ← nxt (store s) i (head s); walk (List.length (store s)) (store s) i q.


(** The live nodes are those of the bottom level. *)
Definition live (s : SkipList) : list addr := default [] (level_chain s 0).
Definition live_keys (s : SkipList) : list iface := key_at (store s) <$> live s.

(** [lseg h i p l q]: following the level-[i] pointers from [p] visits the
    addresses [l] and then stands at [q]. *)
Fixpoint lseg (h : list node) (i : nat) (p : ptr) (l : list addr) (q : ptr) : Prop :=
  match l with
  | [] => p = q
  | a :: l' => p = Some a ∧ ∃ m, nxt h i a = Some m ∧ lseg h i m l' q
  end.

(** The last address of the walk [a :: l]. *)
Fixpoint last_of (a : addr) (l : list addr) : addr :=
  match l with
  | [] => a
  | b :: l' => last_of b l'
  end.

(** The invariant of the bottom chain [ch]: one level, a chain from the
    head to nil through distinct nodes, keys strictly increasing. *)
Record Inv (s : SkipList) (ch : list addr) : Prop := mkInv {
  inv_level : level s = 1;
  inv_chain : lseg (store s) 0 (Some (head s)) (head s :: ch) None;
  inv_nodup : NoDup (head s :: ch);
  inv_sorted : StronglySorted key_lt (key_at (store s) <$> ch);
  inv_keys : Forall (λ k, is_nil k = false) (key_at (store s) <$> ch)
}.

(** The count agrees with the chain. *)
Definition Counted (s : SkipList) (ch : list addr) : Prop :=
  length s = Z.of_nat (List.length ch).

(** One call, whatever its outcome: a returned error or a recovered panic
    leaves the list in the state the call stopped in.  [Clear] runs with
    whatever value [DefaultMaxLevel] holds at the call. *)
Inductive step : SkipList → SkipList → Prop :=
| step_Insert_ret rnd k v s e s' : Insert rnd k v s = Ret e s' → step s s'
| step_Insert_panic rnd k v s p s' : Insert rnd k v s = Panic p s' → step s s'
| step_Delete_ret k s e s' : Delete k s = Ret e s' → step s s'
| step_Delete_panic k s p s' : Delete k s = Panic p s' → step s s'
| step_Clear_ret maxLevel s s' : Clear maxLevel s = Ret tt s' → step s s'
| step_Clear_panic maxLevel s p s' : Clear maxLevel s = Panic p s' → step s s'.

(** The lists a program can hold: built from [NewSkipList] by calls. *)
Inductive reachable : SkipList → Prop :=
| reach_new kt : reachable (NewSkipList kt)
| reach_step s s' : reachable s → step s s' → reachable s'.

(** The lists built with fewer than [n] calls. *)
Inductive reachable_in : nat → SkipList → Prop :=
| reach_in_new kt : reachable_in 0 (NewSkipList kt)
| reach_in_step n s s' : reachable_in n s → step s s' → reachable_in (S n) s'.

(** The head has a forward slot at the bottom level. *)
Definition has_bottom_slot (s : SkipList) : Prop :=
  is_Some (nxt (store s) 0 (head s)).

(** The list that [Clear] leaves when [DefaultMaxLevel] is 0: level 1,
    count 0, and a head whose forward slice is empty. *)
Definition Slotless (s : SkipList) : Prop :=
  level s = 1 ∧ length s = 0 ∧
  ∃ n, store s !! head s = Some n ∧ forward n = [].

(** The walk for key [k] stops in front of [post]: at the end of the
    chain, or at a node whose key is not before [k]. *)
Definition stops (h : list node) (k : iface) (post : list addr) : Prop :=
  match post with
  | [] => True
  | b :: _ => ¬ key_lt (key_at h b) k
  end.

(** The store after [a.forward[0] = q]. *)
Definition relink (a : addr) (q : ptr) (h : list node) : list node :=
  match h !! a with
  | Some n => <[a := mkNode (key n) (value n) (<[0%nat := q]> (forward n))]> h
  | None => h
  end.

(** The store after [a.value = v]. *)
Definition revalue (a : addr) (v : iface) (h : list node) : list node :=
  match h !! a with
  | Some n => <[a := mkNode (key n) v (forward n)]> h
  | None => h
  end.

(** Where the walk of Insert, Search and Delete for [k] ends in a list
    with chain [pre ++ post]. *)
Record located (s : SkipList) (k : iface) (pre post : list addr) (p : addr) : Prop :=
  mkLocated {
    loc_lt : Forall (λ b, key_lt (key_at (store s) b) k) pre;
    loc_stop : stops (store s) k post;
    loc_pred : p = last_of (head s) pre;
    loc_next : nxt (store s) 0 p = Some (hd_error post);
    loc_walk : advance (S (List.length (store s))) 0 k (Some (head s)) s = Ret (Some p) s
}.

(** The node in front of which the walk for [k] stops does not hold a key
    that compares equal to [k]. *)
Definition misses (h : list node) (k : iface) (post : list addr) : Prop :=
  match post with
  | [] => True
  | b :: _ => compare (key_at h b) k ≠ 0
  end.

(** The store after Insert has allocated a node of height 1 for [k] and
    spliced it between [p] and the old successor [m] of [p]. *)
Definition insert_store (h : list node) (p : addr) (m : ptr) (k v : iface)
  : list node :=
  relink p (Some (List.length h))
    (relink (List.length h) m
       (h ++ [mkNode k v (replicate (Z.to_nat 1) None)])).

(** The nodes of the chain [ch] that the walk for [k] passes, and the
    rest of the chain, in front of which it stops. *)
Fixpoint pre_of (h : list node) (k : iface) (ch : list addr) : list addr :=
  match ch with
  | [] => []
  | a :: ch' => if compare (key_at h a) k <? 0 then a :: pre_of h k ch' else []
  end.

Fixpoint post_of (h : list node) (k : iface) (ch : list addr) : list addr :=
  match ch with
  | [] => []
  | a :: ch' => if compare (key_at h a) k <? 0 then post_of h k ch' else ch
  end.

(** The node that Insert, Search and Delete take for the node of [k]: the
    one the walk stops in front of, when its key compares equal to [k]. *)
Definition hit_node (h : list node) (k : iface) (ch : list addr) : option addr :=
  match post_of h k ch with
  | b :: _ => if compare (key_at h b) k =? 0 then Some b else None
  | [] => None
  end.

(** The node in front of the place of [k]. *)
Definition pred_of (s : SkipList) (k : iface) : addr :=
  last_of (head s) (pre_of (store s) k (live s)).

(** The states the three outcomes of Insert and the success of Delete
    leave. *)
Definition upsert_state (b : addr) (v : iface) (s : SkipList) : SkipList :=
  set_store (revalue b v (store s)) s.

Definition insert_state (k v : iface) (s : SkipList) : SkipList :=
  set_length (int_wrap (length s + 1))
    (set_store (insert_store (store s) (pred_of s k)
                  (hd_error (post_of (store s) k (live s))) k v) s).

Definition delete_state (k : iface) (s : SkipList) : SkipList :=
  set_length (int_wrap (length s - 1))
    (set_store (relink (pred_of s k)
                  (hd_error (tail (post_of (store s) k (live s)))) (store s)) s).

(** The lists built with at most [max_int] calls: on these the count
    cannot have wrapped around. *)
Definition built (s : SkipList) : Prop :=
  ∃ n, reachable_in n s ∧ Z.of_nat n ≤ max_int.

(** What a call, whatever its outcome, does to a list that satisfies the
    invariant. *)
Inductive step_kind (s : SkipList) (ch : list addr) (s' : SkipList) : Prop :=
| sk_same : s' = s → step_kind s ch s'
| sk_upsert b v : b ∈ ch → s' = upsert_state b v s → step_kind s ch s'
| sk_insert k v :
    is_nil k = false → hit_node (store s) k (live s) = None →
    s' = insert_state k v s → step_kind s ch s'
| sk_delete k b :
    hit_node (store s) k (live s) = Some b →
    s' = delete_state k s → step_kind s ch s'
| sk_clear :
    Inv s' [] → length s' = 0 →
    List.length (store s') = List.length (store s) → step_kind s ch s'
| sk_slotless : Slotless s' → step_kind s ch s'.

(** The key and the value held at an address. *)
Definition entry_at (h : list node) (a : addr) : iface * iface :=
  (key_at h a, value_at h a).

(** [less] is a strict total order on the elements of [l]. *)
Definition strict_total_on (less : iface → iface → bool) (l : list iface) : Prop :=
  (∀ a, a ∈ l → less a a = false) ∧
  (∀ a b c, a ∈ l → b ∈ l → c ∈ l →
     less a b = true → less b c = true → less a c = true) ∧
  (∀ a b, a ∈ l → b ∈ l → a ≠ b → less a b = true ∨ less b a = true).

(** What is assumed of [sort.Slice]: it permutes the slice, and when [less]
    is a strict total order on the elements, no element of the result is
    less than an earlier one. *)
Definition sorts (sort_Slice : (iface → iface → bool) → list iface → list iface)
  : Prop :=
  ∀ less l,
    sort_Slice less l ≡ₚ l ∧
    (strict_total_on less l →
     StronglySorted (λ a b, less b a = false) (sort_Slice less l)).

(** An insertion sort, one function that meets [sorts]. *)
Fixpoint insert_sorted (less : iface → iface → bool) (x : iface) (l : list iface)
  : list iface :=
  match l with
  | [] => [x]
  | y :: l' => if less x y then x :: l else y :: insert_sorted less x l'
  end.

Definition insertion_sort (less : iface → iface → bool) (l : list iface)
  : list iface :=
  foldr (insert_sorted less) [] l.

(** The int held by a key, when its dynamic type is int. *)
Definition int_of (k : iface) : option Z :=
  match k with IInt z => Some z | _ => None end.

(** The int keys among [ks], in order. *)
Definition int_keys (ks : list iface) : list Z := omap int_of ks.


Definition scan_MaxInt (ks : list iface) : Z * bool :=
  match int_keys ks with
  | [] => (0, false)
  | z :: zs => (foldr Z.max z zs, true)
  end.

(** ** Further functions of the package and what is stated of them *)

(** The collecting loop of [SortByValue]:
    [result = append(result, current.value)] *)
Fixpoint collect_values (fuel : nat) (current : ptr) (result : list iface)
  : M (list iface) :=
  match fuel with
  | O => diverge
  | S fuel' =>
      match current with
      | None => ret result
      | Some _ =>
          let* v := get_value current in
          let* current := get_forward current 0 in
          collect_values fuel' current (result ++ [v])
      end
  end.

Section SortByValue.

Variable sort_Slice : (iface → iface → bool) → list iface → list iface.

(** [SortByValue]; a nil slice is the empty list, and
    [make([]interface{}, 0, s.length)] panics on a negative capacity. *)
Definition SortByValue (reverse : bool) : M (list iface) :=
  let* len := gets length in
  if len =? 0 then ret [] else
  let* hd := gets head in
  let* current := get_forward (Some hd) 0 in
  let* result := (if len <? 0 then throw MakeSliceLen else ret []) in
  let* fuel := walk_bound in
  let* result := collect_values fuel current result in
  if reverse
  then ret (sort_Slice (λ x y, compareKeysOrValues y x) result)
  else ret (sort_Slice (λ x y, compareKeysOrValues x y) result).

End SortByValue.

(** The number of tests that succeed in a row, from the [i]-th on, among
    at most [n]. *)
Fixpoint leading (rnd : nat → bool) (i n : nat) : nat :=
  match n with
  | O => O
  | S n' => if rnd i then S (leading rnd (S i) n') else O
  end.

(** The first string key of [ks] that is not empty, the empty string when
    there is none. *)
Fixpoint first_nonempty (ks : list iface) : string :=
  match ks with
  | [] => ""
  | IString x :: ks' => if String.eqb x "" then first_nonempty ks' else x
  | _ :: ks' => first_nonempty ks'
  end.

(** The last string key of [ks], [acc] when there is none. *)
Fixpoint last_string (acc : string) (ks : list iface) : string :=
  match ks with
  | [] => acc
  | IString x :: ks' => last_string x ks'
  | _ :: ks' => last_string acc ks'
  end.

(** What one round of the loops of MinString and MaxString does to the
    key kept so far. *)
Definition min_step (minKey : string) (k : iface) : string :=
  match k with
  | IString key => if String.eqb minKey "" || String.ltb key minKey then key else minKey
  | _ => minKey
  end.

Definition max_step (maxKey : string) (k : iface) : string :=
  match k with
  | IString key => if String.eqb maxKey "" || String.ltb maxKey key then key else maxKey
  | _ => maxKey
  end.

(** ** Lists of several levels *)

(** No call raises the level above 1, so a list of several levels is not
    built by calls; Delete, Search, MinInt and MaxInt are nevertheless
    written for such lists, and are verified on them. *)

(** The store after [a.forward[i] = q]. *)
Definition relink_at (i : nat) (a : addr) (q : ptr) (h : list node) : list node :=
  match h !! a with
  | Some n => <[a := mkNode (key n) (value n) (<[i := q]> (forward n))]> h
  | None => h
  end.

(** A well-linked list of [length chs] levels, [chs !! i] being the chain
    of level [i]: every chain runs from the head to nil through distinct
    nodes, and the nodes of a level are on the level below.  Nothing is
    asked of the keys. *)
Record Shape (s : SkipList) (chs : list (list addr)) : Prop := mkShape {
  shape_level : level s = Z.of_nat (List.length chs);
  shape_range : 1 ≤ level s ≤ max_slice_len;
  shape_chain : ∀ i ch, chs !! i = Some ch →
    lseg (store s) i (Some (head s)) (head s :: ch) None;
  shape_nodup : ∀ i ch, chs !! i = Some ch → NoDup (head s :: ch);
  shape_tower : ∀ i ch ch', chs !! i = Some ch → chs !! S i = Some ch' → ch' ⊆ ch
}.

(** The keys of every level strictly increase, and no key is nil. *)
Record Ordered (s : SkipList) (chs : list (list addr)) : Prop := mkOrdered {
  ord_sorted : ∀ i ch, chs !! i = Some ch →
    StronglySorted key_lt (key_at (store s) <$> ch);
  ord_keys : ∀ i ch, chs !! i = Some ch →
    Forall (λ k, is_nil k = false) (key_at (store s) <$> ch)
}.

(** The node of the chain [ch] in front of the place of [k], and the
    update vector that the walk for [k] fills. *)
Definition pred_in (s : SkipList) (k : iface) (ch : list addr) : addr :=
  last_of (head s) (pre_of (store s) k ch).

Definition preds (s : SkipList) (k : iface) (chs : list (list addr)) : list ptr :=
  (λ ch, Some (pred_in s k ch)) <$> chs.

(** The chain [ch] without the node [t]. *)
Definition without (t : addr) (ch : list addr) : list addr :=
  filter (λ a, a ≠ t) ch.

(** What the unlinking loop of Delete makes of the store [h0] of a list
    with the chains [chs], for the node [t] and the predecessors [p i]:
    at each level whose chain holds [t], the predecessor takes over the
    forward pointer of [t]; nothing else changes. *)
Record Unlinked (h0 : list node) (chs : list (list addr)) (t : addr)
    (p : nat → addr) (h' : list node) : Prop := mkUnlinked {
  unl_length : List.length h' = List.length h0;
  unl_key : ∀ b, key_at h' b = key_at h0 b;
  unl_value : ∀ b, value_at h' b = value_at h0 b;
  unl_nxt : ∀ i b,
    nxt h' i b = if decide (t ∈ default [] (chs !! i) ∧ b = p i)
                 then nxt h0 i t else nxt h0 i b
}.

(** The chains after Insert has linked the node [n0], made for the key
    [k], into the levels below [ht]. *)
Definition with_node (h : list node) (k : iface) (n0 : addr) (ht : nat)
    (chs : list (list addr)) : list (list addr) :=
  imap (λ i ch, if decide (i < ht)%nat
                then pre_of h k ch ++ n0 :: post_of h k ch else ch) chs.

(** What the splicing loop of Insert makes of the store [h0] of a list
    with the chains [chs], once the node for [k] and [v] of height [ht] is
    allocated at the end of the store: at each level below [ht] the new
    node takes over the forward pointer of the predecessor [p i], which
    now points to the new node; nothing else changes. *)
Record Spliced (h0 : list node) (chs : list (list addr)) (k v : iface)
    (ht : nat) (p : nat → addr) (h' : list node) : Prop := mkSpliced {
  spl_length : List.length h' = S (List.length h0);
  spl_key_new : key_at h' (List.length h0) = k;
  spl_value_new : value_at h' (List.length h0) = v;
  spl_key : ∀ b, is_Some (h0 !! b) → key_at h' b = key_at h0 b;
  spl_value : ∀ b, is_Some (h0 !! b) → value_at h' b = value_at h0 b;
  spl_nxt_new : ∀ i, (i < ht)%nat →
    nxt h' i (List.length h0)
    = Some (hd_error (post_of h0 k (default [] (chs !! i))));
  spl_nxt : ∀ i b, is_Some (h0 !! b) →
    nxt h' i b = if decide ((i < ht)%nat ∧ b = p i)
                 then Some (Some (List.length h0)) else nxt h0 i b
}.


Definition last_int (ks : list iface) : Z * bool :=
  match last ks with
  | Some (IInt z) => (z, true)
  | _ => (0, false)
  end.

(** A list of two levels, put together by hand: the keys 1, 2, 3 on the
    bottom level, the node of key 2 also on level 1. *)
Definition ex_tower : SkipList :=
  mkSkipList [mkNode INil INil [Some 1%nat; Some 2%nat];
              mkNode (IInt 1) (IString "a") [Some 2%nat];
              mkNode (IInt 2) (IString "b") [Some 3%nat; None];
              mkNode (IInt 3) (IString "c") [None]]
    0%nat 2 3 TInt.



(** ** Monad equations *)

Lemma bind_Ret {A B} (m : M A) (f : A → M B) s a s' :
  m s = Ret a s' → bind m f s = f a s'.
Proof. unfold bind. by intros ->. Qed.

Lemma bind_Panic {A B} (m : M A) (f : A → M B) s p s' :
  m s = Panic p s' → bind m f s = Panic p s'.
Proof. unfold bind. by intros ->. Qed.

(** ** The comparator *)

Lemma ascii_compare_lt_trans a b c :
  Ascii.compare a b = Lt → Ascii.compare b c = Lt → Ascii.compare a c = Lt.
Proof.
  unfold Ascii.compare. rewrite !N.compare_lt_iff. apply N.lt_trans.
Qed.

Lemma string_compare_lt_trans s1 : ∀ s2 s3,
  String.compare s1 s2 = Lt → String.compare s2 s3 = Lt → String.compare s1 s3 = Lt.
Proof.
  induction s1 as [|c1 s1 IH]; intros [|c2 s2] [|c3 s3]; simpl; try done.
  destruct (Ascii.compare c1 c2) eqn:E12; try done;
    destruct (Ascii.compare c2 c3) eqn:E23; try done; intros H1 H2.
  - apply Ascii.compare_eq_iff in E12, E23. subst.
    assert (Ascii.compare c3 c3 = Eq) as ->
      by (unfold Ascii.compare; apply N.compare_refl).
    eauto.
  - apply Ascii.compare_eq_iff in E12. subst. by rewrite E23.
  - apply Ascii.compare_eq_iff in E23. subst. by rewrite E12.
  - by rewrite (ascii_compare_lt_trans _ _ _ E12 E23).
Qed.

Lemma string_compare_refl s : String.compare s s = Eq.
Proof.
  induction s as [|c s IH]; simpl; [done|].
  assert (Ascii.compare c c = Eq) as ->
    by (unfold Ascii.compare; apply N.compare_refl).
  done.
Qed.

Lemma key_lt_inv a b :
  key_lt a b →
  (∃ x y, a = IInt x ∧ b = IInt y ∧ x < y) ∨
  (∃ x y, a = IString x ∧ b = IString y ∧ String.compare x y = Lt).
Proof.
  unfold key_lt. destruct a as [|x|x|], b as [|y|y|]; simpl; try lia.
  - intros H. left. exists x, y. repeat split.
    destruct (Z.ltb_spec x y); [done|]. destruct (x >? y); lia.
  - intros H. right. exists x, y. repeat split.
    unfold strings_Compare in H. destruct (String.compare x y); done || lia.
Qed.

Lemma key_lt_int x y : key_lt (IInt x) (IInt y) ↔ x < y.
Proof.
  unfold key_lt; simpl. destruct (Z.ltb_spec x y); [lia|].
  destruct (x >? y); lia.
Qed.

Lemma key_lt_string x y : key_lt (IString x) (IString y) ↔ String.compare x y = Lt.
Proof.
  unfold key_lt; simpl. unfold strings_Compare.
  destruct (String.compare x y); split; done || lia.
Qed.

#[export] Instance key_lt_trans : Transitive key_lt.
Proof.
  intros a b c Hab Hbc.
  destruct (key_lt_inv _ _ Hab) as [(x & y & -> & -> & Hxy)|(x & y & -> & -> & Hxy)];
    destruct (key_lt_inv _ _ Hbc) as [(y' & z & ? & -> & Hyz)|(y' & z & ? & -> & Hyz)];
    simplify_eq.
  - apply key_lt_int. lia.
  - apply key_lt_string. eauto using string_compare_lt_trans.
Qed.

Lemma key_lt_irrefl a : ¬ key_lt a a.
Proof.
  intros H. destruct (key_lt_inv _ _ H) as [(x & y & -> & ? & Hxy)|(x & y & -> & ? & Hxy)];
    simplify_eq; [lia|]. by rewrite string_compare_refl in Hxy.
Qed.

Lemma key_lt_asym a b : key_lt a b → key_lt b a → False.
Proof. intros H1 H2. exact (key_lt_irrefl a (transitivity H1 H2)). Qed.

(** [compare b a > 0] is [compare a b < 0]. *)
Lemma compare_gt_lt a b : 0 < compare a b ↔ key_lt b a.
Proof.
  unfold key_lt. destruct a as [|x|x|], b as [|y|y|]; simpl; try lia.
  - destruct (Z.ltb_spec x y), (Z.ltb_spec y x), (Z.gtb_spec x y), (Z.gtb_spec y x); lia.
  - unfold strings_Compare. rewrite (String.compare_antisym y x).
    destruct (String.compare x y); simpl; lia.
Qed.

(** Keys of one supported type that compare equal are equal. *)
Lemma compare_eq_same_type a b :
  compare a b = 0 → dyn_type a = dyn_type b →
  dyn_type a = Some TInt ∨ dyn_type a = Some TString → a = b.
Proof.
  destruct a as [|x|x|], b as [|y|y|]; simpl;
    try (intros _ ? [?|?]; congruence).
  - intros H _ _. f_equal.
    destruct (Z.ltb_spec x y), (Z.gtb_spec x y); lia.
  - intros H _ _. f_equal. apply String.compare_eq_iff.
    unfold strings_Compare in H. destruct (String.compare x y); done || lia.
Qed.

Lemma compare_refl a : compare a a = 0.
Proof.
  destruct a as [|x|x|]; simpl; try done.
  - destruct (Z.ltb_spec x x), (Z.gtb_spec x x); lia.
  - unfold strings_Compare. by rewrite string_compare_refl.
Qed.

(** Keys of different dynamic types, or of a type other than int and
    string, compare equal. *)
Lemma compare_mismatch a b :
  dyn_type a ≠ dyn_type b ∨
  (dyn_type a ≠ Some TInt ∧ dyn_type a ≠ Some TString) →
  compare a b = 0.
Proof.
  destruct a as [|x|x|], b as [|y|y|]; simpl; try done;
    intros [?|[? ?]]; congruence.
Qed.

(** ** Primitive reads on a store *)

Lemma nxt_Some h i a m :
  nxt h i a = Some m ↔ ∃ n, h !! a = Some n ∧ forward n !! i = Some m.
Proof.
  unfold nxt. destruct (h !! a) as [n|]; simpl.
  - split; [eauto|]. by intros (? & [= <-] & ?).
  - split; [done|]. by intros (? & ? & ?).
Qed.

Lemma get_forward_nxt s a m :
  nxt (store s) 0 a = Some m → get_forward (Some a) 0 s = Ret m s.
Proof.
  intros (n & Hn & Hm)%nxt_Some.
  unfold get_forward, bind, deref, index. rewrite Hn.
  change (Z.to_nat 0) with 0%nat. by rewrite Hm.
Qed.

Lemma get_key_at s a :
  is_Some (store s !! a) → get_key (Some a) s = Ret (key_at (store s) a) s.
Proof.
  intros [n Hn]. unfold get_key, key_at, bind, deref. by rewrite Hn.
Qed.

Lemma get_value_at s a :
  is_Some (store s !! a) → get_value (Some a) s = Ret (value_at (store s) a) s.
Proof.
  intros [n Hn]. unfold get_value, value_at, bind, deref. by rewrite Hn.
Qed.

Lemma nxt_is_Some h i a m : nxt h i a = Some m → is_Some (h !! a).
Proof. intros (n & Hn & _)%nxt_Some. eauto. Qed.

(** ** List segments *)

Lemma lseg_app h i l1 : ∀ l2 p q,
  lseg h i p (l1 ++ l2) q ↔ ∃ m, lseg h i p l1 m ∧ lseg h i m l2 q.
Proof.
  induction l1 as [|a l1 IH]; intros l2 p q; simpl.
  - split; [eauto|]. by intros (m & -> & ?).
  - split.
    + intros (-> & m & Hm & (m' & ? & ?)%IH). eauto 10.
    + intros (m' & (-> & m & Hm & ?) & ?). split; [done|].
      exists m. split; [done|]. apply IH. eauto.
Qed.

Lemma lseg_frame h h' i l : ∀ p q,
  (∀ a, a ∈ l → nxt h' i a = nxt h i a) →
  lseg h i p l q → lseg h' i p l q.
Proof.
  induction l as [|a l IH]; intros p q Hfr; simpl; [done|].
  intros (-> & m & Hm & Hl). split; [done|]. exists m. split.
  - rewrite Hfr; [done|left].
  - apply IH; [|done]. intros b Hb. apply Hfr. by right.
Qed.

Lemma lseg_valid h i l : ∀ p q a,
  lseg h i p l q → a ∈ l → is_Some (h !! a).
Proof.
  induction l as [|b l IH]; intros p q a; simpl; [by intros _ ?%elem_of_nil|].
  intros (-> & m & Hm & Hl) [->|Ha]%elem_of_cons; eauto using nxt_is_Some.
Qed.

Lemma lseg_last h i l : ∀ q a,
  lseg h i (Some a) (a :: l) q → nxt h i (last_of a l) = Some q.
Proof.
  induction l as [|b l IH]; intros q a; simpl.
  - by intros (_ & m & Hm & ->).
  - intros (_ & m & Hm & -> & Hl). apply IH. by split.
Qed.

Lemma last_of_snoc l : ∀ a, ∃ l1, a :: l = l1 ++ [last_of a l].
Proof.
  induction l as [|b l IH]; intros a; simpl.
  - by exists [].
  - destruct (IH b) as [l1 Hl1]. exists (a :: l1). simpl. by f_equal.
Qed.

Lemma last_of_elem l : ∀ a, last_of a l ∈ a :: l.
Proof.
  intros a. destruct (last_of_snoc l a) as [l1 ->]. set_solver.
Qed.

Lemma walk_lseg h i l : ∀ fuel p,
  lseg h i p l None → (List.length l ≤ fuel)%nat → walk fuel h i p = Some l.
Proof.
  induction l as [|a l IH]; intros fuel p; simpl.
  - intros -> _. by destruct fuel.
  - intros (-> & m & Hm & Hl) Hlen. destruct fuel as [|fuel]; [lia|].
    simpl. rewrite Hm. simpl. rewrite (IH fuel m); [done|done|lia].
Qed.

Lemma NoDup_bounded_length (l : list nat) n :
  NoDup l → (∀ a, a ∈ l → (a < n)%nat) → (List.length l ≤ n)%nat.
Proof.
  intros Hnd Hlt.
  assert (l ⊆+ seq 0 n) as Hsub%submseteq_length.
  { apply NoDup_submseteq; [done|]. intros a Ha. apply elem_of_seq.
    specialize (Hlt a Ha). lia. }
  by rewrite length_seq in Hsub.
Qed.

(** ** Facts that follow from the invariant *)

Lemma Inv_valid s ch a : Inv s ch → a ∈ head s :: ch → is_Some (store s !! a).
Proof. intros [_ Hch _ _] Ha. eauto using lseg_valid. Qed.

Lemma Inv_length s ch : Inv s ch → (S (List.length ch) ≤ List.length (store s))%nat.
Proof.
  intros HI. change (S (List.length ch)) with (List.length (head s :: ch)).
  apply NoDup_bounded_length; [apply HI|].
  intros a Ha. apply lookup_lt_is_Some. eauto using Inv_valid.
Qed.

Lemma Inv_level_chain s ch : Inv s ch → level_chain s 0 = Some ch.
Proof.
  intros HI. pose proof (Inv_length _ _ HI) as Hlen.
  destruct (inv_chain _ _ HI) as (_ & m & Hm & Hch).
  unfold level_chain. rewrite Hm. simpl. apply walk_lseg; [done|lia].
Qed.

Lemma Inv_live s ch : Inv s ch → live s = ch.
Proof. intros HI. unfold live. by rewrite (Inv_level_chain _ _ HI). Qed.

Lemma Inv_unique s ch ch' : Inv s ch → Inv s ch' → ch = ch'.
Proof. intros H1 H2. by rewrite <-(Inv_live _ _ H1), <-(Inv_live _ _ H2). Qed.

Lemma pre_post_of h k ch : pre_of h k ch ++ post_of h k ch = ch.
Proof.
  induction ch as [|a ch IH]; simpl; [done|].
  destruct (compare (key_at h a) k <? 0); simpl; [by f_equal|done].
Qed.

Lemma pre_of_lt h k ch : Forall (λ b, key_lt (key_at h b) k) (pre_of h k ch).
Proof.
  induction ch as [|a ch IH]; simpl; [done|].
  destruct (Z.ltb_spec (compare (key_at h a) k) 0); by constructor.
Qed.

Lemma post_of_stops h k ch : stops h k (post_of h k ch).
Proof.
  induction ch as [|a ch IH]; simpl; [done|].
  destruct (Z.ltb_spec (compare (key_at h a) k) 0); [done|].
  simpl. unfold key_lt. lia.
Qed.

Lemma pre_of_ext h h' k ch :
  (∀ a, a ∈ ch → key_at h' a = key_at h a) → pre_of h' k ch = pre_of h k ch.
Proof.
  induction ch as [|a ch IH]; intros H; simpl; [done|].
  rewrite (H a) by left. rewrite IH; [done|]. intros b Hb. apply H. by right.
Qed.

Lemma post_of_ext h h' k ch :
  (∀ a, a ∈ ch → key_at h' a = key_at h a) → post_of h' k ch = post_of h k ch.
Proof.
  induction ch as [|a ch IH]; intros H; simpl; [done|].
  rewrite (H a) by left. rewrite IH; [done|]. intros b Hb. apply H. by right.
Qed.

Lemma post_of_elem h k ch a : a ∈ post_of h k ch → a ∈ ch.
Proof. intros Ha. rewrite <-(pre_post_of h k ch). set_solver. Qed.

Lemma hit_node_ext h h' k ch :
  (∀ a, a ∈ ch → key_at h' a = key_at h a) → hit_node h' k ch = hit_node h k ch.
Proof.
  intros H. unfold hit_node. rewrite (post_of_ext h h') by done.
  destruct (post_of h k ch) as [|b l] eqn:E; [done|].
  rewrite (H b); [done|]. apply (post_of_elem h k). rewrite E. left.
Qed.

(** ** The walk *)

Lemma advance_S fuel i k current :
  advance (S fuel) i k current =
  (let* nx := get_forward current i in
   match nx with
   | None => ret current
   | Some _ =>
       let* nk := get_key nx in
       if compare nk k <? 0 then advance fuel i k nx else ret current
   end).
Proof. done. Qed.

Lemma advance_spec s k pre : ∀ a post fuel,
  lseg (store s) 0 (Some a) (a :: pre ++ post) None →
  Forall (λ b, key_lt (key_at (store s) b) k) pre →
  stops (store s) k post →
  (List.length pre < fuel)%nat →
  advance fuel 0 k (Some a) s = Ret (Some (last_of a pre)) s.
Proof.
  induction pre as [|b pre IH]; intros a post fuel Hseg Hlt Hstop Hfuel;
    (destruct fuel as [|fuel]; [simpl in Hfuel; lia|]);
    destruct Hseg as (_ & m & Hm & Hrest); rewrite advance_S;
    rewrite (bind_Ret _ _ _ _ _ (get_forward_nxt s a m Hm)).
  - destruct post as [|b post]; simpl in Hrest; [by subst m|].
    destruct Hrest as (-> & m' & Hm' & _).
    rewrite (bind_Ret _ _ _ _ _ (get_key_at s b (nxt_is_Some _ _ _ _ Hm'))).
    simpl in Hstop. unfold key_lt in Hstop.
    by destruct (Z.ltb_spec (compare (key_at (store s) b) k) 0).
  - destruct Hrest as (-> & m' & Hm' & Hrest).
    rewrite (bind_Ret _ _ _ _ _ (get_key_at s b (nxt_is_Some _ _ _ _ Hm'))).
    apply Forall_cons in Hlt as [Hb Hlt]. unfold key_lt in Hb.
    destruct (Z.ltb_spec (compare (key_at (store s) b) k) 0); [|lia].
    simpl. apply (IH b post); [|done|done|simpl in Hfuel; lia].
    split; [done|]. eauto.
Qed.

Lemma lseg_hd_error h i post m : lseg h i m post None → m = hd_error post.
Proof. destruct post; simpl; [done|by intros [-> _]]. Qed.

Lemma Inv_located s ch k :
  Inv s ch →
  located s k (pre_of (store s) k ch) (post_of (store s) k ch) (pred_of s k).
Proof.
  intros HI. unfold pred_of. rewrite (Inv_live _ _ HI).
  pose proof (inv_chain _ _ HI) as Hch.
  pose proof (Inv_length _ _ HI) as Hlen.
  rewrite <-(pre_post_of (store s) k ch) in Hch, Hlen. rewrite length_app in Hlen.
  split; [apply pre_of_lt|apply post_of_stops|done| |].
  - change (head s :: ?l1 ++ ?l2) with ((head s :: l1) ++ l2) in Hch.
    apply lseg_app in Hch as (m & Hpre' & Hm).
    apply lseg_last in Hpre'. by rewrite <-(lseg_hd_error _ _ _ _ Hm).
  - eapply advance_spec; [done|apply pre_of_lt|apply post_of_stops|lia].
Qed.

(** ** Store updates *)

Lemma length_relink a q h : List.length (relink a q h) = List.length h.
Proof. unfold relink. destruct (h !! a); [apply length_insert|done]. Qed.

Lemma lookup_relink_ne a q h b : a ≠ b → relink a q h !! b = h !! b.
Proof.
  intros Hne. unfold relink. destruct (h !! a); [|done].
  by rewrite list_lookup_insert_ne.
Qed.

Lemma nxt_relink_ne a q h i b : a ≠ b → nxt (relink a q h) i b = nxt h i b.
Proof. intros Hne. unfold nxt. by rewrite lookup_relink_ne. Qed.

Lemma nxt_relink_eq a q h m :
  nxt h 0 a = Some m → nxt (relink a q h) 0 a = Some q.
Proof.
  intros (n & Hn & Hm)%nxt_Some. unfold relink, nxt. rewrite Hn.
  rewrite list_lookup_insert_eq by (by eapply lookup_lt_Some). simpl.
  apply list_lookup_insert_eq. by eapply lookup_lt_Some.
Qed.

Lemma key_at_relink a q h b : key_at (relink a q h) b = key_at h b.
Proof.
  unfold relink, key_at. destruct (h !! a) as [n|] eqn:Hn; [|done].
  destruct (decide (a = b)) as [->|Hne].
  - rewrite list_lookup_insert_eq by (by eapply lookup_lt_Some). by rewrite Hn.
  - by rewrite list_lookup_insert_ne.
Qed.

Lemma value_at_relink a q h b : value_at (relink a q h) b = value_at h b.
Proof.
  unfold relink, value_at. destruct (h !! a) as [n|] eqn:Hn; [|done].
  destruct (decide (a = b)) as [->|Hne].
  - rewrite list_lookup_insert_eq by (by eapply lookup_lt_Some). by rewrite Hn.
  - by rewrite list_lookup_insert_ne.
Qed.

Lemma length_revalue a v h : List.length (revalue a v h) = List.length h.
Proof. unfold revalue. destruct (h !! a); [apply length_insert|done]. Qed.

Lemma nxt_revalue a v h i b : nxt (revalue a v h) i b = nxt h i b.
Proof.
  unfold revalue, nxt. destruct (h !! a) as [n|] eqn:Hn; [|done].
  destruct (decide (a = b)) as [->|Hne].
  - rewrite list_lookup_insert_eq by (by eapply lookup_lt_Some). by rewrite Hn.
  - by rewrite list_lookup_insert_ne.
Qed.

Lemma key_at_revalue a v h b : key_at (revalue a v h) b = key_at h b.
Proof.
  unfold revalue, key_at. destruct (h !! a) as [n|] eqn:Hn; [|done].
  destruct (decide (a = b)) as [->|Hne].
  - rewrite list_lookup_insert_eq by (by eapply lookup_lt_Some). by rewrite Hn.
  - by rewrite list_lookup_insert_ne.
Qed.

Lemma value_at_revalue_eq a v h : is_Some (h !! a) → value_at (revalue a v h) a = v.
Proof.
  intros [n Hn]. unfold revalue, value_at. rewrite Hn.
  by rewrite list_lookup_insert_eq by (by eapply lookup_lt_Some).
Qed.

Lemma value_at_revalue_ne a v h b : a ≠ b → value_at (revalue a v h) b = value_at h b.
Proof.
  intros Hne. unfold revalue, value_at. destruct (h !! a); [|done].
  by rewrite list_lookup_insert_ne.
Qed.

Lemma nxt_app_l h l i a : is_Some (h !! a) → nxt (h ++ l) i a = nxt h i a.
Proof.
  intros Ha%lookup_lt_is_Some. unfold nxt. by rewrite lookup_app_l.
Qed.

Lemma key_at_app_l h l a : is_Some (h !! a) → key_at (h ++ l) a = key_at h a.
Proof.
  intros Ha%lookup_lt_is_Some. unfold key_at. by rewrite lookup_app_l.
Qed.

Lemma value_at_app_l h l a : is_Some (h !! a) → value_at (h ++ l) a = value_at h a.
Proof.
  intros Ha%lookup_lt_is_Some. unfold value_at. by rewrite lookup_app_l.
Qed.

Lemma set_forward_relink s a q m :
  nxt (store s) 0 a = Some m →
  set_forward (Some a) 0 q s = Ret tt (set_store (relink a q (store s)) s).
Proof.
  intros (n & Hn & Hm)%nxt_Some.
  unfold set_forward, index_set, index, bind, deref, assign, relink. rewrite Hn.
  change (Z.to_nat 0) with 0%nat. rewrite Hm. simpl. by rewrite Hn.
Qed.

Lemma set_value_revalue s a v :
  is_Some (store s !! a) →
  set_value (Some a) v s = Ret tt (set_store (revalue a v (store s)) s).
Proof.
  intros [n Hn]. unfold set_value, bind, deref, assign, revalue. rewrite Hn.
  simpl. by rewrite Hn.
Qed.

(** ** randomLevel *)

Lemma int_wrap_small z : - 2 ^ 63 ≤ z < 2 ^ 63 → int_wrap z = z.
Proof. intros Hz. unfold int_wrap. rewrite Z.mod_small; lia. Qed.

Lemma randomLevel_loop_total rnd n : ∀ i lvl,
  1 ≤ lvl ≤ 32 → (Z.to_nat (32 - lvl) < n)%nat →
  ∃ lvl', randomLevel_loop n rnd i lvl = Some lvl' ∧ lvl ≤ lvl' ≤ 32.
Proof.
  induction n as [|n IH]; intros i lvl Hlvl Hn; [lia|]. simpl.
  destruct (rnd i); simpl; [|exists lvl; split; [done|lia]].
  destruct (Z.ltb_spec lvl 32); [|exists lvl; split; [done|lia]].
  rewrite int_wrap_small by lia.
  destruct (IH (S i) (lvl + 1)) as (lvl' & -> & ?); [lia|lia|].
  exists lvl'. split; [done|lia].
Qed.

(** The sampled height is between 1 and 32; it is 1 exactly when the first
    test fails. *)
Lemma randomLevel_spec rnd s :
  ∃ lvl, randomLevel rnd s = Ret lvl s ∧ 1 ≤ lvl ≤ 32 ∧
         (rnd 0%nat = false → lvl = 1) ∧ (rnd 0%nat = true → 1 < lvl).
Proof.
  unfold randomLevel.
  assert (randomLevel_loop 32 rnd 0 1 =
          if rnd 0%nat then randomLevel_loop 31 rnd 1 2 else Some 1) as ->
    by (by destruct (rnd 0%nat) eqn:E; cbn [randomLevel_loop]; rewrite E).
  destruct (rnd 0%nat).
  - destruct (randomLevel_loop_total rnd 31 1 2) as (lvl & -> & Hl);
      [lia|simpl; lia|].
    exists lvl. split; [done|]. split; [lia|]. split; [done|lia].
  - exists 1. split; [done|]. split; [lia|]. split; [done|done].
Qed.

(** ** The calls on a list that satisfies the invariant *)

(** One step of a sequence: run the first call, go on with the rest. *)
Tactic Notation "mstep" tactic3(tac) :=
  eapply eq_trans; [apply bind_Ret; tac|]; cbv beta iota.

Lemma descend_one s k p :
  advance (S (List.length (store s))) 0 k (Some (head s)) s = Ret (Some p) s →
  descend (Z.to_nat 1) k (Some (head s)) (replicate (Z.to_nat 1) None) s
  = Ret (Some p, [Some p]) s.
Proof.
  intros H. change (Z.to_nat 1) with 1%nat. cbn [descend replicate].
  unfold walk_bound. mstep reflexivity. change (Z.of_nat 0) with 0.
  mstep (exact H). mstep reflexivity. done.
Qed.

Lemma descend_search_one s k p :
  advance (S (List.length (store s))) 0 k (Some (head s)) s = Ret (Some p) s →
  descend_search (Z.to_nat 1) k (Some (head s)) s = Ret (Some p) s.
Proof.
  intros H. change (Z.to_nat 1) with 1%nat. cbn [descend_search].
  unfold walk_bound. mstep reflexivity. change (Z.of_nat 0) with 0.
  mstep (exact H). done.
Qed.

Lemma is_hit_node s b k :
  is_Some (store s !! b) →
  is_hit (Some b) k s = Ret (compare (key_at (store s) b) k =? 0) s.
Proof.
  intros Hb. unfold is_hit. mstep (by apply get_key_at). done.
Qed.

(** Insert of a key that the walk finds: the value of the node is replaced. *)
Lemma Insert_hit s rnd k v pre b post p :
  level s = 1 → is_nil k = false →
  located s k pre (b :: post) p → is_Some (store s !! b) →
  compare (key_at (store s) b) k = 0 →
  Insert rnd k v s = Ret None (set_store (revalue b v (store s)) s).
Proof.
  intros Hlvl Hk [_ _ _ Hnext Hwalk] Hb Hcmp. unfold Insert. rewrite Hk.
  mstep reflexivity. rewrite Hlvl. mstep reflexivity. mstep reflexivity.
  mstep (by apply descend_one). mstep (by apply get_forward_nxt).
  simpl hd_error. mstep (by apply is_hit_node). rewrite Hcmp. simpl.
  mstep (by apply set_value_revalue). done.
Qed.

Lemma is_hit_miss s k post :
  (∀ b, b ∈ post → is_Some (store s !! b)) → misses (store s) k post →
  is_hit (hd_error post) k s = Ret false s.
Proof.
  intros Hv Hmiss. destruct post as [|b post]; [done|]. simpl hd_error.
  rewrite is_hit_node by (apply Hv; left). simpl in Hmiss.
  by destruct (Z.eqb_spec (compare (key_at (store s) b) k) 0).
Qed.

(** Insert of a key that the walk does not find, with a sampled height
    above 1: the update vector has [level] entries, and writing entry
    [level] panics before anything is changed. *)
Lemma Insert_miss_panic s rnd k v pre post p :
  level s = 1 → is_nil k = false →
  located s k pre post p → (∀ b, b ∈ post → is_Some (store s !! b)) →
  misses (store s) k post → rnd 0%nat = true →
  Insert rnd k v s = Panic IndexOutOfRange s.
Proof.
  intros Hlvl Hk [_ _ _ Hnext Hwalk] Hv Hmiss Hrnd. unfold Insert. rewrite Hk.
  mstep reflexivity. rewrite Hlvl. mstep reflexivity. mstep reflexivity.
  mstep (by apply descend_one). mstep (by apply get_forward_nxt).
  mstep (by apply is_hit_miss).
  destruct (randomLevel_spec rnd s) as (lvl & Hrl & Hrange & _ & Hgt).
  specialize (Hgt Hrnd). mstep (exact Hrl).
  apply bind_Panic. destruct (Z.gtb_spec lvl 1); [|lia].
  apply bind_Panic.
  destruct (Z.to_nat (lvl - 1)) as [|n] eqn:Hn; [lia|]. cbn [raise_update].
  mstep reflexivity. by apply bind_Panic.
Qed.

Lemma insert_store_length h p m k v :
  List.length (insert_store h p m k v) = S (List.length h).
Proof.
  unfold insert_store. rewrite !length_relink, length_app. simpl. lia.
Qed.

Lemma insert_store_nxt_new h p m k v :
  is_Some (h !! p) → nxt (insert_store h p m k v) 0 (List.length h) = Some m.
Proof.
  intros Hp%lookup_lt_is_Some. unfold insert_store.
  rewrite nxt_relink_ne by lia. apply (nxt_relink_eq _ _ _ None).
  unfold nxt. by rewrite list_lookup_middle.
Qed.

Lemma insert_store_nxt_pred h p m m0 k v :
  nxt h 0 p = Some m0 → nxt (insert_store h p m k v) 0 p = Some (Some (List.length h)).
Proof.
  intros Hp. pose proof (nxt_is_Some _ _ _ _ Hp) as Hv.
  pose proof (proj1 (lookup_lt_is_Some _ _) Hv).
  unfold insert_store. apply (nxt_relink_eq _ _ _ m0).
  rewrite nxt_relink_ne by lia. by rewrite nxt_app_l.
Qed.

Lemma insert_store_nxt_other h p m k v i b :
  is_Some (h !! b) → b ≠ p → nxt (insert_store h p m k v) i b = nxt h i b.
Proof.
  intros Hv Hne. pose proof (proj1 (lookup_lt_is_Some _ _) Hv).
  unfold insert_store. rewrite !nxt_relink_ne by lia. by apply nxt_app_l.
Qed.

Lemma insert_store_key_old h p m k v b :
  is_Some (h !! b) → key_at (insert_store h p m k v) b = key_at h b.
Proof.
  intros Hv. unfold insert_store. rewrite !key_at_relink. by apply key_at_app_l.
Qed.

Lemma insert_store_value_old h p m k v b :
  is_Some (h !! b) → value_at (insert_store h p m k v) b = value_at h b.
Proof.
  intros Hv. unfold insert_store. rewrite !value_at_relink. by apply value_at_app_l.
Qed.

Lemma insert_store_key_new h p m k v :
  key_at (insert_store h p m k v) (List.length h) = k.
Proof.
  unfold insert_store. rewrite !key_at_relink. unfold key_at.
  by rewrite list_lookup_middle.
Qed.

Lemma insert_store_value_new h p m k v :
  value_at (insert_store h p m k v) (List.length h) = v.
Proof.
  unfold insert_store. rewrite !value_at_relink. unfold value_at.
  by rewrite list_lookup_middle.
Qed.

Lemma splice_one s n0 p m m0 :
  nxt (store s) 0 p = Some m → nxt (store s) 0 n0 = Some m0 → n0 ≠ p →
  splice 1 0 (Some n0) [Some p] s
  = Ret tt (set_store (relink p (Some n0) (relink n0 m (store s))) s).
Proof.
  intros Hp Hn0 Hne. cbn [splice]. mstep reflexivity.
  mstep (by apply get_forward_nxt).
  mstep (by apply (set_forward_relink _ _ _ m0)).
  mstep (apply (set_forward_relink _ _ _ m); simpl; by rewrite nxt_relink_ne).
  done.
Qed.

(** Insert of a key that the walk does not find, with sampled height 1. *)
Lemma Insert_miss_one s rnd k v pre post p :
  level s = 1 → is_nil k = false →
  located s k pre post p → (∀ b, b ∈ post → is_Some (store s !! b)) →
  misses (store s) k post → rnd 0%nat = false →
  Insert rnd k v s =
  Ret None (set_length (int_wrap (length s + 1))
              (set_store (insert_store (store s) p (hd_error post) k v) s)).
Proof.
  intros Hlvl Hk [_ _ _ Hnext Hwalk] Hv Hmiss Hrnd. unfold Insert. rewrite Hk.
  mstep reflexivity. rewrite Hlvl. mstep reflexivity. mstep reflexivity.
  mstep (by apply descend_one). mstep (by apply get_forward_nxt).
  mstep (by apply is_hit_miss).
  destruct (randomLevel_spec rnd s) as (lvl & Hrl & _ & Hone & _).
  rewrite (Hone Hrnd) in Hrl. mstep (exact Hrl).
  change (1 >? 1) with false. cbv iota. mstep reflexivity. mstep reflexivity.
  mstep reflexivity. change (Z.to_nat 1) with 1%nat.
  pose proof (nxt_is_Some _ _ _ _ Hnext) as Hp.
  pose proof (proj1 (lookup_lt_is_Some _ _) Hp) as Hplt.
  mstep (apply (splice_one _ _ _ (hd_error post) None); simpl;
         [by rewrite nxt_app_l
         |unfold nxt; by rewrite list_lookup_middle
         |lia]).
  mstep reflexivity. done.
Qed.

Lemma ptr_eqb_eq p q : ptr_eqb p q = true ↔ p = q.
Proof.
  destruct p as [a|], q as [b|]; simpl; try done.
  rewrite Nat.eqb_eq. naive_solver.
Qed.


Lemma ptr_eqb_refl p : ptr_eqb p p = true.
Proof. by apply ptr_eqb_eq. Qed.

Lemma unlink_one s p t m :
  nxt (store s) 0 p = Some (Some t) → nxt (store s) 0 t = Some m →
  unlink 1 0 (Some t) [Some p] s = Ret tt (set_store (relink p m (store s)) s).
Proof.
  intros Hp Ht. cbn [unlink]. mstep reflexivity.
  mstep (by apply get_forward_nxt).
  rewrite ptr_eqb_refl.
  mstep (by apply get_forward_nxt).
  mstep (by apply (set_forward_relink _ _ _ (Some t))). done.
Qed.

Lemma shrink_level_one s fuel : level s = 1 → shrink (S fuel) s = Ret tt s.
Proof. intros H. cbn [shrink]. mstep reflexivity. by rewrite H. Qed.

(** Delete of a key that the walk finds: the node is unlinked from the
    bottom chain, the level stays 1, the count goes down. *)
Lemma Delete_hit s k pre t post p :
  level s = 1 → is_nil k = false →
  located s k pre (t :: post) p →
  nxt (store s) 0 t = Some (hd_error post) →
  compare (key_at (store s) t) k = 0 →
  Delete k s =
  Ret None (set_length (int_wrap (length s - 1))
              (set_store (relink p (hd_error post) (store s)) s)).
Proof.
  intros Hlvl Hk [_ _ _ Hnext Hwalk] Ht Hcmp. unfold Delete. rewrite Hk.
  mstep reflexivity. rewrite Hlvl. mstep reflexivity. mstep reflexivity.
  mstep (by apply descend_one). mstep (by apply get_forward_nxt).
  simpl hd_error. mstep (apply is_hit_node; by eapply nxt_is_Some).
  rewrite Hcmp. simpl Z.eqb. cbv iota. mstep reflexivity. rewrite Hlvl.
  change (Z.to_nat 1) with 1%nat. mstep (by apply unlink_one).
  mstep reflexivity. mstep (apply shrink_level_one; exact Hlvl).
  mstep reflexivity. done.
Qed.

(** Delete of a key that the walk does not find. *)
Lemma Delete_miss s k pre post p :
  level s = 1 → is_nil k = false →
  located s k pre post p → (∀ b, b ∈ post → is_Some (store s !! b)) →
  misses (store s) k post →
  Delete k s = Ret NotFound s.
Proof.
  intros Hlvl Hk [_ _ _ Hnext Hwalk] Hv Hmiss. unfold Delete. rewrite Hk.
  mstep reflexivity. rewrite Hlvl. mstep reflexivity. mstep reflexivity.
  mstep (by apply descend_one). mstep (by apply get_forward_nxt).
  mstep (by apply is_hit_miss). done.
Qed.

Lemma Search_hit s k pre b post p :
  level s = 1 → is_nil k = false →
  located s k pre (b :: post) p → is_Some (store s !! b) →
  compare (key_at (store s) b) k = 0 →
  Search k s = Ret (value_at (store s) b, None) s.
Proof.
  intros Hlvl Hk [_ _ _ Hnext Hwalk] Hb Hcmp. unfold Search. rewrite Hk.
  mstep reflexivity. rewrite Hlvl. mstep reflexivity.
  mstep (by apply descend_search_one). mstep (by apply get_forward_nxt).
  simpl hd_error. mstep (by apply is_hit_node). rewrite Hcmp. simpl.
  mstep (by apply get_value_at). done.
Qed.

Lemma Search_miss s k pre post p :
  level s = 1 → is_nil k = false →
  located s k pre post p → (∀ b, b ∈ post → is_Some (store s !! b)) →
  misses (store s) k post →
  Search k s = Ret (INil, NotFound) s.
Proof.
  intros Hlvl Hk [_ _ _ Hnext Hwalk] Hv Hmiss. unfold Search. rewrite Hk.
  mstep reflexivity. rewrite Hlvl. mstep reflexivity.
  mstep (by apply descend_search_one). mstep (by apply get_forward_nxt).
  mstep (by apply is_hit_miss). done.
Qed.

Lemma make_in_range n s :
  0 ≤ n ≤ max_slice_len → make n s = Ret (replicate (Z.to_nat n) None) s.
Proof.
  intros Hn. unfold make.
  by destruct (Z.ltb_spec n 0), (Z.ltb_spec max_slice_len n); try lia.
Qed.

Lemma make_out_of_range n s :
  n < 0 ∨ max_slice_len < n → make n s = Panic MakeSliceLen s.
Proof.
  intros Hn. unfold make.
  by destruct (Z.ltb_spec n 0), (Z.ltb_spec max_slice_len n); try lia.
Qed.

Lemma Clear_spec s n maxLevel :
  store s !! head s = Some n → 0 ≤ maxLevel ≤ max_slice_len →
  Clear maxLevel s =
  Ret tt (set_length 0 (set_level 1 (set_store
            (<[head s := mkNode (key n) (value n)
                           (replicate (Z.to_nat maxLevel) None)]> (store s)) s))).
Proof.
  intros Hn Hml. unfold Clear. mstep reflexivity.
  mstep (unfold deref; by rewrite Hn).
  mstep (by apply make_in_range).
  mstep (unfold assign; by rewrite Hn). mstep reflexivity. done.
Qed.

(** With [DefaultMaxLevel] out of range, [make] panics before anything is
    assigned. *)
Lemma Clear_out_of_range s n maxLevel :
  store s !! head s = Some n → maxLevel < 0 ∨ max_slice_len < maxLevel →
  Clear maxLevel s = Panic MakeSliceLen s.
Proof.
  intros Hn Hml. unfold Clear. mstep reflexivity.
  mstep (unfold deref; by rewrite Hn). apply bind_Panic.
  by apply make_out_of_range.
Qed.

(** ** The invariant is kept *)

Ltac sl_simpl :=
  cbn [store head level length keyType set_store set_level set_length].

Lemma fmap_ext_elem {A B} (f g : A → B) (l : list A) :
  (∀ x, x ∈ l → f x = g x) → f <$> l = g <$> l.
Proof.
  induction l as [|x l IH]; intros H; simpl; [done|].
  rewrite (H x) by left. f_equal. apply IH. intros y Hy. apply H. by right.
Qed.

Lemma chain_split h hd pre post :
  lseg h 0 (Some hd) (hd :: pre ++ post) None →
  ∃ l1, hd :: pre = l1 ++ [last_of hd pre] ∧
        lseg h 0 (Some hd) l1 (Some (last_of hd pre)) ∧
        nxt h 0 (last_of hd pre) = Some (hd_error post) ∧
        lseg h 0 (hd_error post) post None.
Proof.
  intros Hch. destruct (last_of_snoc pre hd) as [l1 Hl1]. exists l1.
  split; [done|].
  change (hd :: pre ++ post) with ((hd :: pre) ++ post) in Hch.
  rewrite Hl1 in Hch.
  apply lseg_app in Hch as (m & (m1 & H1 & (-> & m' & Hp & <-))%lseg_app & Hpost).
  rewrite <-(lseg_hd_error _ _ _ _ Hpost). done.
Qed.

Lemma chain_rebuild h hd l1 p m l2 :
  lseg h 0 (Some hd) l1 (Some p) → nxt h 0 p = Some m → lseg h 0 m l2 None →
  lseg h 0 (Some hd) (l1 ++ p :: l2) None.
Proof.
  intros H1 Hp H2. apply lseg_app. exists (Some p). split; [done|].
  simpl. eauto.
Qed.

Lemma sorted_insert (ks1 ks2 : list iface) k :
  StronglySorted key_lt (ks1 ++ ks2) →
  Forall (λ x, key_lt x k) ks1 →
  match ks2 with [] => True | y :: _ => key_lt k y end →
  StronglySorted key_lt (ks1 ++ k :: ks2).
Proof.
  intros (H12 & H1 & H2)%StronglySorted_app Hlt Hk.
  apply StronglySorted_app_2; [|done|].
  - intros x1 x2 Hx1 [->|Hx2]%elem_of_cons; [|by apply H12].
    rewrite Forall_forall in Hlt. by apply Hlt.
  - constructor; [done|]. destruct ks2 as [|y ks2]; [done|].
    apply StronglySorted_cons in H2 as [Hy _]. constructor; [done|].
    eapply Forall_impl; [exact Hy|]. intros z Hz. by transitivity y.
Qed.

Lemma sorted_delete (ks1 ks2 : list iface) k :
  StronglySorted key_lt (ks1 ++ k :: ks2) → StronglySorted key_lt (ks1 ++ ks2).
Proof.
  intros (H12 & H1 & [_ H2]%StronglySorted_cons)%StronglySorted_app.
  apply StronglySorted_app_2; [|done..].
  intros x1 x2 Hx1 Hx2. apply H12; [done|by right].
Qed.

Lemma Inv_revalue s ch b v :
  Inv s ch → Inv (set_store (revalue b v (store s)) s) ch.
Proof.
  intros [Hlvl Hch Hnd Hs Hk].
  assert (key_at (revalue b v (store s)) <$> ch = key_at (store s) <$> ch) as Hkeys
    by (apply fmap_ext_elem; intros a _; apply key_at_revalue).
  split; sl_simpl; [done| |done|by rewrite Hkeys..].
  apply (lseg_frame (store s)); [|done]. intros a _. apply nxt_revalue.
Qed.

Lemma Inv_insert s k v pre post p n :
  Inv s (pre ++ post) → located s k pre post p → misses (store s) k post →
  is_nil k = false →
  Inv (set_length n (set_store (insert_store (store s) p (hd_error post) k v) s))
      (pre ++ List.length (store s) :: post).
Proof.
  intros HI [Hlt Hstop -> Hnext _] Hmiss Hknil.
  pose proof (λ a, Inv_valid _ _ a HI) as Hvalid.
  destruct HI as [Hlvl Hch Hnd Hs Hkeys].
  assert (Hkeys' :
    key_at (insert_store (store s) (last_of (head s) pre) (hd_error post) k v)
      <$> (pre ++ List.length (store s) :: post)
    = (key_at (store s) <$> pre) ++ k :: (key_at (store s) <$> post)).
  { rewrite fmap_app, fmap_cons. rewrite insert_store_key_new.
    rewrite (fmap_ext_elem _ (key_at (store s)) pre),
            (fmap_ext_elem _ (key_at (store s)) post); [done| |].
    - intros a Ha. apply insert_store_key_old, Hvalid. set_solver.
    - intros a Ha. apply insert_store_key_old, Hvalid. set_solver. }
  destruct (chain_split _ _ _ _ Hch) as (l1 & Hl1 & Hseg1 & _ & Hseg2).
  set (p := last_of (head s) pre) in *.
  assert (Hall : head s :: pre ++ post = l1 ++ p :: post).
  { change (head s :: pre ++ post) with ((head s :: pre) ++ post).
    rewrite Hl1, <-app_assoc. done. }
  rewrite Hall in Hnd.
  assert (Hfresh : ∀ a, a ∈ head s :: pre ++ post → a ≠ List.length (store s)).
  { intros a Ha%Hvalid%lookup_lt_is_Some. lia. }
  split; sl_simpl.
  - done.
  - change (head s :: pre ++ List.length (store s) :: post)
      with ((head s :: pre) ++ List.length (store s) :: post).
    rewrite Hl1, <-app_assoc. simpl.
    apply (chain_rebuild _ _ _ _ (Some (List.length (store s)))).
    + apply (lseg_frame (store s)); [|done]. intros a Ha.
      apply insert_store_nxt_other.
      * apply Hvalid. rewrite Hall. set_solver.
      * intros ->. apply NoDup_app in Hnd as (_ & Hdis & _).
        apply (Hdis p Ha). left.
    + by eapply insert_store_nxt_pred.
    + simpl. split; [done|]. exists (hd_error post). split.
      * apply insert_store_nxt_new. by eapply nxt_is_Some.
      * apply (lseg_frame (store s)); [|done]. intros a Ha.
        apply insert_store_nxt_other.
        -- apply Hvalid. set_solver.
        -- intros ->. apply NoDup_app in Hnd as (_ & _ & Hnd).
           apply NoDup_cons in Hnd as [Hnd _]. done.
  - rewrite <-Hall in Hnd.
    change (head s :: pre ++ List.length (store s) :: post)
      with ((head s :: pre) ++ List.length (store s) :: post).
    rewrite <-Permutation_middle. constructor; [|done].
    intros Hin. by apply (Hfresh _ Hin).
  - rewrite Hkeys'. rewrite fmap_app in Hs. apply sorted_insert; [done| |].
    + by apply Forall_fmap.
    + destruct post as [|b post]; [done|]. simpl in *.
      apply compare_gt_lt. unfold key_lt in Hstop. lia.
  - rewrite Hkeys'. rewrite fmap_app in Hkeys.
    apply Forall_app in Hkeys as [H1 H2]. apply Forall_app. split; [done|].
    by constructor.
Qed.

Lemma Inv_delete s k pre t post p n :
  Inv s (pre ++ t :: post) → located s k pre (t :: post) p →
  nxt (store s) 0 t = Some (hd_error post) ∧
  Inv (set_length n (set_store (relink p (hd_error post) (store s)) s))
      (pre ++ post).
Proof.
  intros HI [Hlt Hstop -> Hnext _].
  destruct HI as [Hlvl Hch Hnd Hs Hkeys].
  destruct (chain_split _ _ _ _ Hch) as (l1 & Hl1 & Hseg1 & _ & Hseg2).
  set (p := last_of (head s) pre) in *.
  destruct Hseg2 as (_ & m & Ht & Hpost).
  rewrite (lseg_hd_error _ _ _ _ Hpost) in Ht. split; [done|].
  assert (Hall : head s :: pre ++ t :: post = l1 ++ p :: t :: post).
  { change (head s :: pre ++ t :: post) with ((head s :: pre) ++ t :: post).
    rewrite Hl1, <-app_assoc. done. }
  rewrite Hall in Hnd.
  split; sl_simpl.
  - done.
  - change (head s :: pre ++ post) with ((head s :: pre) ++ post).
    rewrite Hl1, <-app_assoc. simpl.
    apply (chain_rebuild _ _ _ _ (hd_error post)).
    + apply (lseg_frame (store s)); [|done]. intros a Ha.
      apply nxt_relink_ne. intros ->.
      apply NoDup_app in Hnd as (_ & Hdis & _). apply (Hdis a Ha). left.
    + by eapply nxt_relink_eq.
    + rewrite <-(lseg_hd_error _ _ _ _ Hpost).
      apply (lseg_frame (store s)); [|done]. intros a Ha.
      apply nxt_relink_ne. intros ->.
      apply NoDup_app in Hnd as (_ & _ & Hnd).
      apply NoDup_cons in Hnd as [Hnd _]. apply Hnd. by right.
  - change (head s :: pre ++ post) with ((head s :: pre) ++ post).
    rewrite Hl1, <-app_assoc. simpl.
    apply NoDup_app in Hnd as (H1 & Hdis & H2). apply NoDup_app. split; [done|].
    split.
    + intros a Ha Hin. apply (Hdis a Ha). set_solver.
    + apply NoDup_cons in H2 as [Hp H2]. apply NoDup_cons in H2 as [_ H2].
      constructor; [set_solver|done].
  - erewrite fmap_ext_elem; [|intros a _; apply key_at_relink].
    rewrite fmap_app. rewrite fmap_app, fmap_cons in Hs.
    by eapply sorted_delete.
  - erewrite fmap_ext_elem; [|intros a _; apply key_at_relink].
    rewrite fmap_app. rewrite fmap_app, fmap_cons in Hkeys.
    apply Forall_app in Hkeys as [H1 [_ H2]%Forall_cons]. by apply Forall_app.
Qed.

Lemma Inv_clear s n fw :
  store s !! head s = Some n → fw !! 0%nat = Some None →
  Inv (set_length 0 (set_level 1 (set_store
         (<[head s := mkNode (key n) (value n) fw]> (store s)) s))) [].
Proof.
  intros Hn Hfw. split; sl_simpl.
  - done.
  - split; [done|]. exists None. split; [|done]. unfold nxt.
    rewrite list_lookup_insert_eq by (by eapply lookup_lt_Some). done.
  - apply NoDup_singleton.
  - constructor.
  - constructor.
Qed.

Lemma Inv_new kt : Inv (NewSkipList kt) [].
Proof.
  split; sl_simpl.
  - done.
  - split; [done|]. by exists None.
  - apply NoDup_singleton.
  - constructor.
  - constructor.
Qed.

(** ** What the three calls compute *)

Lemma hit_node_Some h k ch b :
  hit_node h k ch = Some b ↔
  ∃ post, post_of h k ch = b :: post ∧ compare (key_at h b) k = 0.
Proof.
  unfold hit_node. destruct (post_of h k ch) as [|b' post]; [naive_solver|].
  destruct (Z.eqb_spec (compare (key_at h b') k) 0); naive_solver.
Qed.

Lemma hit_node_None h k ch :
  hit_node h k ch = None ↔ misses h k (post_of h k ch).
Proof.
  unfold hit_node, misses. destruct (post_of h k ch) as [|b' post]; [done|].
  destruct (Z.eqb_spec (compare (key_at h b') k) 0); naive_solver.
Qed.

Lemma Inv_post_valid s ch k b :
  Inv s ch → b ∈ post_of (store s) k ch → is_Some (store s !! b).
Proof.
  intros HI Hb%post_of_elem. eapply Inv_valid; [done|]. by right.
Qed.

Lemma Insert_eq s ch rnd k v :
  Inv s ch → is_nil k = false →
  Insert rnd k v s =
  match hit_node (store s) k (live s) with
  | Some b => Ret None (upsert_state b v s)
  | None => if rnd 0%nat then Panic IndexOutOfRange s
            else Ret None (insert_state k v s)
  end.
Proof.
  intros HI Hk. pose proof (Inv_located s ch k HI) as Hloc.
  unfold insert_state. rewrite (Inv_live _ _ HI).
  destruct (hit_node (store s) k ch) as [b|] eqn:Hhit.
  - apply hit_node_Some in Hhit as (post & Hpost & Hcmp). rewrite Hpost in Hloc.
    eapply Insert_hit; [apply HI|done|done| |done].
    eapply Inv_post_valid; [done|]. rewrite Hpost. left.
  - apply hit_node_None in Hhit. destruct (rnd 0%nat) eqn:Hrnd.
    + eapply Insert_miss_panic; eauto using inv_level, Inv_post_valid.
    + eapply Insert_miss_one; eauto using inv_level, Inv_post_valid.
Qed.

Lemma Search_eq s ch k :
  Inv s ch → is_nil k = false →
  Search k s =
  match hit_node (store s) k (live s) with
  | Some b => Ret (value_at (store s) b, None) s
  | None => Ret (INil, NotFound) s
  end.
Proof.
  intros HI Hk. pose proof (Inv_located s ch k HI) as Hloc.
  rewrite (Inv_live _ _ HI).
  destruct (hit_node (store s) k ch) as [b|] eqn:Hhit.
  - apply hit_node_Some in Hhit as (post & Hpost & Hcmp). rewrite Hpost in Hloc.
    eapply Search_hit; [apply HI|done|done| |done].
    eapply Inv_post_valid; [done|]. rewrite Hpost. left.
  - apply hit_node_None in Hhit.
    eapply Search_miss; eauto using inv_level, Inv_post_valid.
Qed.

Lemma Delete_eq s ch k :
  Inv s ch → is_nil k = false →
  Delete k s =
  match hit_node (store s) k (live s) with
  | Some b => Ret None (delete_state k s)
  | None => Ret NotFound s
  end.
Proof.
  intros HI Hk. pose proof (Inv_located s ch k HI) as Hloc.
  unfold delete_state. rewrite (Inv_live _ _ HI).
  destruct (hit_node (store s) k ch) as [b|] eqn:Hhit.
  - apply hit_node_Some in Hhit as (post & Hpost & Hcmp). rewrite Hpost in Hloc.
    rewrite Hpost. simpl tail.
    pose proof HI as HI'. rewrite <-(pre_post_of (store s) k ch), Hpost in HI'.
    destruct (Inv_delete s k _ _ _ _ 0 HI' Hloc) as [Hb _].
    eapply Delete_hit; [apply HI|done|done|done|done].
  - apply hit_node_None in Hhit.
    eapply Delete_miss; eauto using inv_level, Inv_post_valid.
Qed.

Lemma Inv_upsert s ch b v : Inv s ch → Inv (upsert_state b v s) ch.
Proof. apply Inv_revalue. Qed.

Lemma Inv_insert_state s ch k v :
  Inv s ch → is_nil k = false → hit_node (store s) k (live s) = None →
  Inv (insert_state k v s)
      (pre_of (store s) k ch ++ List.length (store s) :: post_of (store s) k ch).
Proof.
  intros HI Hk Hhit. pose proof (Inv_located s ch k HI) as Hloc.
  rewrite (Inv_live _ _ HI) in Hhit. apply hit_node_None in Hhit.
  unfold insert_state. rewrite (Inv_live _ _ HI).
  apply (Inv_insert s k v); [|done..]. by rewrite pre_post_of.
Qed.

Lemma Inv_delete_state s ch k b :
  Inv s ch → hit_node (store s) k (live s) = Some b →
  Inv (delete_state k s)
      (pre_of (store s) k ch ++ tail (post_of (store s) k ch)).
Proof.
  intros HI Hhit. pose proof (Inv_located s ch k HI) as Hloc.
  rewrite (Inv_live _ _ HI) in Hhit.
  apply hit_node_Some in Hhit as (post & Hpost & Hcmp).
  unfold delete_state. rewrite (Inv_live _ _ HI), Hpost. simpl tail.
  rewrite Hpost in Hloc. eapply Inv_delete; [|done].
  by rewrite <-Hpost, pre_post_of.
Qed.

Lemma Slotless_clear s n :
  store s !! head s = Some n →
  Slotless (set_length 0 (set_level 1 (set_store
              (<[head s := mkNode (key n) (value n) []]> (store s)) s))).
Proof.
  intros Hn. split; [done|]. split; [done|]. sl_simpl. eexists.
  split; [apply list_lookup_insert_eq; by eapply lookup_lt_Some|done].
Qed.

(** What Clear does, by the value [DefaultMaxLevel] holds: with a positive
    value it leaves an empty list that satisfies the invariant, with 0 a
    head with no forward slot, and with a value that is negative or beyond
    the greatest length it panics and leaves the list as it was. *)
Lemma Clear_eq s maxLevel :
  is_Some (store s !! head s) →
  (0 < maxLevel ≤ max_slice_len →
     ∃ s', Clear maxLevel s = Ret tt s' ∧ Inv s' [] ∧ length s' = 0 ∧
           List.length (store s') = List.length (store s)) ∧
  (maxLevel = 0 →
     ∃ s', Clear maxLevel s = Ret tt s' ∧ Slotless s' ∧
           List.length (store s') = List.length (store s)) ∧
  (maxLevel < 0 ∨ max_slice_len < maxLevel →
     Clear maxLevel s = Panic MakeSliceLen s).
Proof.
  intros [n Hn]. split; [|split].
  - intros Hml. eexists. split; [apply (Clear_spec s n); [done|lia]|].
    split; [|split; [done|sl_simpl; apply length_insert]].
    apply Inv_clear; [done|]. apply lookup_replicate. split; [done|lia].
  - intros ->. eexists. split; [by apply (Clear_spec s n)|].
    split; [by apply Slotless_clear|sl_simpl; apply length_insert].
  - by apply (Clear_out_of_range s n).
Qed.

Lemma Clear_cases s maxLevel s' :
  is_Some (store s !! head s) →
  (∃ r, Clear maxLevel s = Ret r s') ∨ (∃ p, Clear maxLevel s = Panic p s') →
  s' = s ∨ Slotless s' ∨
  (Inv s' [] ∧ length s' = 0 ∧ List.length (store s') = List.length (store s)).
Proof.
  intros Hhd H. destruct (Clear_eq s maxLevel Hhd) as (Hpos & Hzero & Hneg).
  destruct (decide (maxLevel = 0)) as [Hml|Hml];
    [|destruct (decide (0 < maxLevel ≤ max_slice_len)) as [Hin|Hout]].
  - destruct (Hzero Hml) as (s1 & Hs1 & HS & _). rewrite Hs1 in H.
    right; left. by destruct H as [[? [= _ <-]]|[? [=]]].
  - destruct (Hpos Hin) as (s1 & Hs1 & HI & Hl & Hlen). rewrite Hs1 in H.
    right; right. by destruct H as [[? [= _ <-]]|[? [=]]].
  - rewrite Hneg in H by lia. left. by destruct H as [[? [=]]|[? [= _ <-]]].
Qed.

(** ** The list with no forward slot *)

Lemma Slotless_head s : Slotless s → is_Some (store s !! head s).
Proof. intros (_ & _ & n & Hn & _). eauto. Qed.

Lemma Slotless_nxt s i : Slotless s → nxt (store s) i (head s) = None.
Proof. intros (_ & _ & n & Hn & Hfw). unfold nxt. rewrite Hn. simpl. by rewrite Hfw. Qed.

Lemma Slotless_no_slot s : Slotless s → ¬ has_bottom_slot s.
Proof. intros H [m Hm]. by rewrite (Slotless_nxt s 0 H) in Hm. Qed.

Lemma Slotless_live s : Slotless s → live s = [].
Proof. intros H. unfold live, level_chain. by rewrite (Slotless_nxt s 0 H). Qed.

Lemma Inv_has_bottom_slot s ch : Inv s ch → has_bottom_slot s.
Proof. intros HI. destruct (inv_chain _ _ HI) as (_ & m & Hm & _). by exists m. Qed.

Lemma Inv_not_Slotless s ch : Inv s ch → ¬ Slotless s.
Proof. intros HI HS. by apply (Slotless_no_slot s HS), (Inv_has_bottom_slot s ch). Qed.

(** Every read of a forward pointer of the head panics. *)
Lemma get_forward_slotless s i :
  Slotless s → get_forward (Some (head s)) i s = Panic IndexOutOfRange s.
Proof.
  intros (_ & _ & n & Hn & Hfw). unfold get_forward.
  mstep (unfold deref; by rewrite Hn). rewrite Hfw. unfold index.
  by destruct (i <? 0).
Qed.

Lemma descend_slotless s k update :
  Slotless s →
  descend (Z.to_nat 1) k (Some (head s)) update s = Panic IndexOutOfRange s.
Proof.
  intros H. change (Z.to_nat 1) with 1%nat. cbn [descend]. unfold walk_bound.
  mstep reflexivity. apply bind_Panic. rewrite advance_S. apply bind_Panic.
  by apply get_forward_slotless.
Qed.

Lemma Insert_slotless s rnd k v :
  Slotless s → is_nil k = false → Insert rnd k v s = Panic IndexOutOfRange s.
Proof.
  intros H Hk. unfold Insert. rewrite Hk. mstep reflexivity.
  rewrite (proj1 H). mstep reflexivity. mstep reflexivity. apply bind_Panic.
  by apply descend_slotless.
Qed.

Lemma Delete_slotless s k :
  Slotless s → is_nil k = false → Delete k s = Panic IndexOutOfRange s.
Proof.
  intros H Hk. unfold Delete. rewrite Hk. mstep reflexivity.
  rewrite (proj1 H). mstep reflexivity. mstep reflexivity. apply bind_Panic.
  by apply descend_slotless.
Qed.

Lemma Search_slotless s k :
  Slotless s → is_nil k = false → Search k s = Panic IndexOutOfRange s.
Proof.
  intros H Hk. unfold Search. rewrite Hk. mstep reflexivity.
  rewrite (proj1 H). mstep reflexivity. apply bind_Panic.
  change (Z.to_nat 1) with 1%nat. cbn [descend_search]. unfold walk_bound.
  mstep reflexivity. apply bind_Panic. rewrite advance_S. apply bind_Panic.
  by apply get_forward_slotless.
Qed.

(** The first call of Next by a fresh cursor panics. *)
Lemma full_iteration_slotless s :
  Slotless s → full_iteration s = Panic IndexOutOfRange s.
Proof.
  intros H. unfold full_iteration, Iterator, walk_bound.
  mstep (mstep reflexivity; reflexivity). mstep reflexivity.
  cbn [iterate]. apply bind_Panic. unfold Next. simpl it_node.
  apply bind_Panic. by apply get_forward_slotless.
Qed.

(** A call on that list leaves it as it is, unless it is a Clear. *)
Lemma step_slotless s s' :
  Slotless s → step s s' →
  s' = s ∨ Slotless s' ∨ (Inv s' [] ∧ length s' = 0).
Proof.
  intros HS Hstep. destruct Hstep as
    [rnd k v s e s' H|rnd k v s p s' H|k s e s' H|k s p s' H|ml s s' H|ml s p s' H].
  - destruct (is_nil k) eqn:Hk.
    + destruct k; try done. injection H as <- <-. by left.
    + by rewrite Insert_slotless in H.
  - destruct (is_nil k) eqn:Hk; [by destruct k|].
    rewrite Insert_slotless in H by done. injection H as <- <-. by left.
  - destruct (is_nil k) eqn:Hk.
    + destruct k; try done. injection H as <- <-. by left.
    + by rewrite Delete_slotless in H.
  - destruct (is_nil k) eqn:Hk; [by destruct k|].
    rewrite Delete_slotless in H by done. injection H as <- <-. by left.
  - destruct (Clear_cases s ml s' (Slotless_head s HS) (or_introl (ex_intro _ tt H)))
      as [?|[?|(?&?&?)]]; eauto.
  - destruct (Clear_cases s ml s' (Slotless_head s HS) (or_intror (ex_intro _ p H)))
      as [?|[?|(?&?&?)]]; eauto.
Qed.

Lemma hit_node_elem h k ch b : hit_node h k ch = Some b → b ∈ ch.
Proof.
  intros (post & Hpost & _)%hit_node_Some.
  apply (post_of_elem h k). rewrite Hpost. left.
Qed.

Lemma step_cases s s' ch : Inv s ch → step s s' → step_kind s ch s'.
Proof.
  intros HI Hstep. destruct Hstep as
    [rnd k v s e s' H|rnd k v s p s' H|k s e s' H|k s p s' H|ml s s' H|ml s p s' H].
  - destruct (is_nil k) eqn:Hk.
    { destruct k; try done. injection H as <- <-. by apply sk_same. }
    rewrite (Insert_eq s ch) in H by done.
    destruct (hit_node (store s) k (live s)) as [b|] eqn:Hhit.
    + injection H as <- <-. eapply sk_upsert; [|done].
      rewrite (Inv_live _ _ HI) in Hhit. by eapply hit_node_elem.
    + destruct (rnd 0%nat); [done|]. injection H as <- <-.
      by eapply sk_insert.
  - destruct (is_nil k) eqn:Hk; [by destruct k|].
    rewrite (Insert_eq s ch) in H by done.
    destruct (hit_node (store s) k (live s)) as [b|] eqn:Hhit; [done|].
    destruct (rnd 0%nat); [|done]. injection H as <- <-. by apply sk_same.
  - destruct (is_nil k) eqn:Hk.
    { destruct k; try done. injection H as <- <-. by apply sk_same. }
    rewrite (Delete_eq s ch) in H by done.
    destruct (hit_node (store s) k (live s)) as [b|] eqn:Hhit.
    + injection H as <- <-. by eapply sk_delete.
    + injection H as <- <-. by apply sk_same.
  - destruct (is_nil k) eqn:Hk; [by destruct k|].
    rewrite (Delete_eq s ch) in H by done.
    by destruct (hit_node (store s) k (live s)).
  - assert (is_Some (store s !! head s)) as Hhd by (eapply Inv_valid; [done|left]).
    destruct (Clear_cases s ml s' Hhd (or_introl (ex_intro _ tt H)))
      as [->|[?|(?&?&?)]];
      [by apply sk_same|by apply sk_slotless|by apply sk_clear].
  - assert (is_Some (store s !! head s)) as Hhd by (eapply Inv_valid; [done|left]).
    destruct (Clear_cases s ml s' Hhd (or_intror (ex_intro _ p H)))
      as [->|[?|(?&?&?)]];
      [by apply sk_same|by apply sk_slotless|by apply sk_clear].
Qed.

(** Every call keeps the invariant, whatever its outcome, unless it is a
    Clear that leaves a head with no forward slot. *)
Lemma step_Inv s s' ch :
  Inv s ch → step s s' → (∃ ch', Inv s' ch') ∨ Slotless s'.
Proof.
  intros HI Hstep.
  destruct (step_cases s s' ch HI Hstep) as
    [->| b v Hb -> | k v Hk Hhit -> | k b Hhit -> | HI' _ _ | HS];
    eauto using Inv_upsert, Inv_insert_state, Inv_delete_state.
Qed.

(** A list a program can hold satisfies the invariant, or is the list
    with no forward slot. *)
Lemma reachable_cases s : reachable s → (∃ ch, Inv s ch) ∨ Slotless s.
Proof.
  induction 1 as [kt|s s' _ [[ch HI]|HS] Hstep]; [eauto using Inv_new| |].
  - eauto using step_Inv.
  - destruct (step_slotless s s' HS Hstep) as [->|[?|[? _]]]; eauto.
Qed.

Lemma reachable_Inv_slot s : reachable s → has_bottom_slot s → ∃ ch, Inv s ch.
Proof.
  intros [?|HS]%reachable_cases Hslot; [done|].
  by destruct (Slotless_no_slot s HS).
Qed.

Lemma reachable_Inv_live s a : reachable s → a ∈ live s → ∃ ch, Inv s ch.
Proof.
  intros [?|HS]%reachable_cases Ha; [done|].
  rewrite (Slotless_live s HS) in Ha. by apply elem_of_nil in Ha.
Qed.

Lemma reachable_Inv_Insert s rnd k v s1 :
  reachable s → Insert rnd k v s = Ret None s1 → ∃ ch, Inv s ch.
Proof.
  intros [?|HS]%reachable_cases Hins; [done|].
  destruct (is_nil k) eqn:Hk; [by destruct k|].
  by rewrite Insert_slotless in Hins.
Qed.

(** ** Keys of a sorted chain *)

Lemma sorted_NoDup (ks : list iface) : StronglySorted key_lt ks → NoDup ks.
Proof.
  induction 1 as [|k ks _ IH Hk]; constructor; [|done].
  intros Hin. rewrite Forall_forall in Hk. by apply (key_lt_irrefl k), Hk.
Qed.

Lemma split_at h k l1 : ∀ b l2,
  Forall (λ a, key_lt (key_at h a) k) l1 → ¬ key_lt (key_at h b) k →
  pre_of h k (l1 ++ b :: l2) = l1 ∧ post_of h k (l1 ++ b :: l2) = b :: l2.
Proof.
  induction l1 as [|a l1 IH]; intros b l2 Hlt Hb; simpl.
  - unfold key_lt in Hb. by destruct (Z.ltb_spec (compare (key_at h b) k) 0).
  - apply Forall_cons in Hlt as [Ha Hlt]. unfold key_lt in Ha.
    destruct (Z.ltb_spec (compare (key_at h a) k) 0); [|lia].
    destruct (IH b l2 Hlt Hb) as [-> ->]. done.
Qed.

(** The walk for the key of a live node stops in front of that node. *)
Lemma split_at_node h l1 b l2 :
  StronglySorted key_lt (key_at h <$> (l1 ++ b :: l2)) →
  pre_of h (key_at h b) (l1 ++ b :: l2) = l1 ∧
  post_of h (key_at h b) (l1 ++ b :: l2) = b :: l2.
Proof.
  intros Hs. apply split_at; [|apply key_lt_irrefl].
  rewrite fmap_app, fmap_cons in Hs. apply StronglySorted_app in Hs as (H12 & _ & _).
  apply Forall_forall. intros a Ha. apply H12; [|left].
  apply list_elem_of_fmap. eauto.
Qed.

Lemma hit_node_key s ch b :
  Inv s ch → b ∈ ch → hit_node (store s) (key_at (store s) b) ch = Some b.
Proof.
  intros HI (l1 & l2 & ->)%list_elem_of_split.
  destruct (split_at_node (store s) l1 b l2 (inv_sorted _ _ HI)) as [_ Hpost].
  apply hit_node_Some. exists l2. split; [done|apply compare_refl].
Qed.

Lemma Inv_key_nonnil s ch b : Inv s ch → b ∈ ch → is_nil (key_at (store s) b) = false.
Proof.
  intros HI Hb. pose proof (inv_keys _ _ HI) as Hk. rewrite Forall_forall in Hk.
  apply Hk, list_elem_of_fmap. eauto.
Qed.


Lemma upsert_state_facts s ch b v :
  Inv s ch → b ∈ ch →
  live (upsert_state b v s) = live s ∧
  live_keys (upsert_state b v s) = live_keys s ∧
  List.length (store (upsert_state b v s)) = List.length (store s) ∧
  Length (upsert_state b v s) = Length s ∧
  value_at (store (upsert_state b v s)) b = v ∧
  (∀ a, a ≠ b → value_at (store (upsert_state b v s)) a = value_at (store s) a).
Proof.
  intros HI Hb. pose proof (Inv_upsert s ch b v HI) as HI'.
  unfold live_keys. rewrite (Inv_live _ _ HI), (Inv_live _ _ HI').
  split; [done|]. split.
  { apply fmap_ext_elem. intros a _. apply key_at_revalue. }
  split; [apply length_revalue|]. split; [done|]. split.
  - apply value_at_revalue_eq. eapply Inv_valid; [done|by right].
  - intros a Ha. by apply value_at_revalue_ne.
Qed.

(** Insert of a key whose node the walk finds, followed by Search. *)
Lemma upsert_then_search s ch k b rnd v :
  Inv s ch → is_nil k = false → hit_node (store s) k (live s) = Some b →
  Insert rnd k v s = Ret None (upsert_state b v s) ∧
  Search k (upsert_state b v s) = Ret (v, None) (upsert_state b v s).
Proof.
  intros HI Hk Hhit. split; [by rewrite (Insert_eq s ch), Hhit|].
  pose proof (Inv_upsert s ch b v HI) as HI'.
  assert (b ∈ ch) as Hb.
  { rewrite (Inv_live _ _ HI) in Hhit.
    apply hit_node_Some in Hhit as (post & Hpost & _).
    apply (post_of_elem (store s) k). rewrite Hpost. left. }
  destruct (upsert_state_facts s ch b v HI Hb) as (Hlive & _ & _ & _ & Hv & _).
  rewrite (Search_eq _ ch) by done. rewrite Hlive.
  assert (hit_node (store (upsert_state b v s)) k (live s) = Some b) as ->.
  { rewrite <-Hhit. apply hit_node_ext. intros a _. apply key_at_revalue. }
  by rewrite Hv.
Qed.

Lemma insert_state_hit s ch k v :
  Inv s ch → is_nil k = false → hit_node (store s) k (live s) = None →
  hit_node (store (insert_state k v s)) k (live (insert_state k v s))
  = Some (List.length (store s)).
Proof.
  intros HI Hk Hhit. pose proof (Inv_insert_state s ch k v HI Hk Hhit) as HI'.
  rewrite (Inv_live _ _ HI'). unfold insert_state. sl_simpl.
  rewrite (Inv_live _ _ HI).
  set (h' := insert_store _ _ _ _ _).
  assert (Hnew : key_at h' (List.length (store s)) = k)
    by apply insert_store_key_new.
  destruct (split_at h' k (pre_of (store s) k ch) (List.length (store s))
              (post_of (store s) k ch)) as [_ Hpost].
  - apply Forall_forall. intros a Ha. unfold h'.
    rewrite insert_store_key_old.
    + pose proof (pre_of_lt (store s) k ch) as Hlt.
      rewrite Forall_forall in Hlt. by apply Hlt.
    + eapply Inv_valid; [done|]. right.
      rewrite <-(pre_post_of (store s) k ch). set_solver.
  - rewrite Hnew. apply key_lt_irrefl.
  - apply hit_node_Some. eexists. split; [done|]. rewrite Hnew. apply compare_refl.
Qed.

(** ** Lists built by calls *)

Lemma reachable_Insert s rnd k v :
  reachable s → reachable (state_of (Insert rnd k v s) s).
Proof.
  intros Hr. destruct (Insert rnd k v s) as [e s'|p s'|] eqn:E; simpl; [| |done].
  - eapply reach_step; [done|]. by eapply step_Insert_ret.
  - eapply reach_step; [done|]. by eapply step_Insert_panic.
Qed.

Lemma reachable_Delete s k :
  reachable s → reachable (state_of (Delete k s) s).
Proof.
  intros Hr. destruct (Delete k s) as [e s'|p s'|] eqn:E; simpl; [| |done].
  - eapply reach_step; [done|]. by eapply step_Delete_ret.
  - eapply reach_step; [done|]. by eapply step_Delete_panic.
Qed.

Lemma ex_list_reachable : reachable ex_list.
Proof.
  unfold ex_list, ex_list2, ex_list1. repeat apply reachable_Insert. apply reach_new.
Qed.

(** The level of a list never leaves 1. *)
Lemma reachable_level_one s : reachable s → level s = 1.
Proof. intros [[ch HI]|HS]%reachable_cases; [apply HI|apply HS]. Qed.

(** ** C1 *)

(** On a list that satisfies the invariant, Insert of a key that has no
    node panics as soon as the sampled height is above 1, and leaves the
    list as it was. *)
Lemma Insert_panics_above_level s rnd k v :
  reachable s → is_nil k = false → hit_node (store s) k (live s) = None →
  rnd 0%nat = true →
  Insert rnd k v s = Panic IndexOutOfRange s.
Proof.
  intros [[ch HI]|HS]%reachable_cases Hk Hhit Hrnd.
  - by rewrite (Insert_eq s ch), Hhit, Hrnd.
  - by apply Insert_slotless.
Qed.

(** C1: Insert does not succeed for every non-nil key.  On the empty list
    returned by NewSkipList, Insert(1, "a") with a sampled height of 2 (the
    first test rand.Float64() < 0.5 succeeds, the second fails) panics with
    an index out of range on [update[1] = s.head]: the update vector has
    [s.level] entries and is not extended, nor is the head's forward
    array, and the list is left as it was. *)
Theorem C1_Insert_panics_when_height_exceeds_level :
  Insert one_coin (IInt 1) (IString "a") (NewSkipList TInt)
  = Panic IndexOutOfRange (NewSkipList TInt).
Proof. reflexivity. Qed.

(** ** C2 *)



(** ** C3 *)

(** C3: after an Insert(key, v1) that returned nil, Insert(key, v2) returns
    nil, leaves Length() and the number of allocated nodes unchanged, keeps
    the chain of live nodes, and Search(key) then returns v2. *)
Theorem C3_upsert_overwrites s rnd1 rnd2 k v1 v2 s1 :
  reachable s →
  Insert rnd1 k v1 s = Ret None s1 →
  ∃ s2, Insert rnd2 k v2 s1 = Ret None s2 ∧
        Length s2 = Length s1 ∧
        List.length (store s2) = List.length (store s1) ∧
        live s2 = live s1 ∧
        Search k s2 = Ret (v2, None) s2.
Proof.
  intros Hr Hins. destruct (reachable_Inv_Insert _ _ _ _ _ Hr Hins) as [ch HI].
  destruct (is_nil k) eqn:Hk; [by destruct k|].
  assert (∃ ch1 b, Inv s1 ch1 ∧ hit_node (store s1) k (live s1) = Some b)
    as (ch1 & b & HI1 & Hhit1).
  { rewrite (Insert_eq s ch) in Hins by done.
    destruct (hit_node (store s) k (live s)) as [b|] eqn:Hhit.
    - injection Hins as <-. exists ch, b. split; [by apply Inv_upsert|].
      assert (b ∈ ch) as Hb.
      { rewrite (Inv_live _ _ HI) in Hhit.
        apply hit_node_Some in Hhit as (post & Hpost & _).
        apply (post_of_elem (store s) k). rewrite Hpost. left. }
      destruct (upsert_state_facts s ch b v1 HI Hb) as (-> & _).
      rewrite <-Hhit. apply hit_node_ext. intros a _. apply key_at_revalue.
    - destruct (rnd1 0%nat); [done|]. injection Hins as <-.
      eexists _, _. split; [by apply Inv_insert_state|].
      by eapply insert_state_hit. }
  assert (b ∈ ch1) as Hb.
  { rewrite (Inv_live _ _ HI1) in Hhit1.
    apply hit_node_Some in Hhit1 as (post & Hpost & _).
    apply (post_of_elem (store s1) k). rewrite Hpost. left. }
  destruct (upsert_then_search s1 ch1 k b rnd2 v2 HI1 Hk Hhit1) as [Hi Hs].
  destruct (upsert_state_facts s1 ch1 b v2 HI1 Hb) as (Hl & _ & Hlen & HL & _).
  exists (upsert_state b v2 s1). done.
Qed.

Lemma C3_upsert_overwrites_witness :
  ∃ s2, Insert no_coin (IInt 2) (IString "z")
          (upsert_state 3%nat (IString "y") ex_list) = Ret None s2 ∧
        Length s2 = 3 ∧
        Search (IInt 2) s2 = Ret (IString "z", None) s2.
Proof.
  pose proof ex_list_reachable as Hr.
  destruct (C3_upsert_overwrites ex_list no_coin no_coin (IInt 2)
              (IString "y") (IString "z") (upsert_state 3%nat (IString "y") ex_list)
              Hr eq_refl) as (s2 & H1 & H2 & _ & _ & H3).
  exists s2. split; [exact H1|]. split; [exact H2|exact H3].
Defined.

(** ** The count *)

Lemma reachable_in_reachable n s : reachable_in n s → reachable s.
Proof. induction 1; [apply reach_new|by eapply reach_step]. Qed.

Lemma built_reachable s : built s → reachable s.
Proof. intros (n & Hn & _). by eapply reachable_in_reachable. Qed.

Lemma length_pre_post h k (ch : list addr) :
  List.length ch = (List.length (pre_of h k ch) + List.length (post_of h k ch))%nat.
Proof. by rewrite <-length_app, pre_post_of. Qed.

Lemma reachable_in_counted n s :
  reachable_in n s → Z.of_nat n ≤ max_int →
  (∃ ch, Inv s ch ∧ Counted s ch ∧ (List.length ch ≤ n)%nat) ∨ Slotless s.
Proof.
  unfold max_int. induction 1 as [kt|n s s' _ IH Hstep]; intros Hn.
  - left. exists []. split; [apply Inv_new|]. split; [done|simpl; lia].
  - destruct IH as [(ch & HI & Hc & Hlen)|HS]; [lia| |].
    2:{ destruct (step_slotless s s' HS Hstep) as [->|[?|[? ?]]]; [by right..|].
        left. exists []. split; [done|]. split; [done|simpl; lia]. }
    unfold Counted in *.
    destruct (step_cases s s' ch HI Hstep) as
      [->| b v Hb -> | k v Hk Hhit -> | k b Hhit -> | HI' Hl _ | HS];
      [left..|by right].
    + exists ch. split; [done|]. split; [done|lia].
    + exists ch. split; [by apply Inv_upsert|]. split; [done|lia].
    + eexists. split; [by apply Inv_insert_state|].
      rewrite length_app, length_cons, Nat.add_succ_r, <-length_pre_post.
      unfold insert_state. sl_simpl. rewrite int_wrap_small by lia.
      split; lia.
    + eexists. split; [by eapply Inv_delete_state|].
      rewrite (Inv_live _ _ HI) in Hhit.
      apply hit_node_Some in Hhit as (post & Hpost & _).
      pose proof (length_pre_post (store s) k ch) as Hpp.
      rewrite Hpost in *. simpl in Hpp. simpl tail. rewrite length_app.
      unfold delete_state. sl_simpl. rewrite int_wrap_small by lia.
      split; lia.
    + exists []. split; [done|]. split; [done|simpl; lia].
Qed.

Lemma built_cases s : built s → (∃ ch, Inv s ch ∧ Counted s ch) ∨ Slotless s.
Proof.
  intros (n & Hn & Hle).
  destruct (reachable_in_counted n s Hn Hle) as [(ch & ? & ? & _)|?]; eauto.
Qed.

Lemma built_counted s : built s → has_bottom_slot s → ∃ ch, Inv s ch ∧ Counted s ch.
Proof.
  intros [?|HS]%built_cases Hslot; [done|]. by destruct (Slotless_no_slot s HS).
Qed.

Lemma built_counted_live s a : built s → a ∈ live s → ∃ ch, Inv s ch ∧ Counted s ch.
Proof.
  intros [?|HS]%built_cases Ha; [done|].
  rewrite (Slotless_live s HS) in Ha. by apply elem_of_nil in Ha.
Qed.

Lemma built_length_range s ch :
  built s → Inv s ch → length s = Z.of_nat (List.length ch) ∧ length s ≤ max_int.
Proof.
  intros (n & Hn & Hle) HI.
  destruct (reachable_in_counted n s Hn Hle) as [(ch' & HI' & Hc & Hlen)|HS].
  - rewrite (Inv_unique _ _ _ HI HI'). unfold Counted in Hc. lia.
  - by destruct (Inv_not_Slotless s ch).
Qed.

(** A populated list has a bottom slot. *)
Lemma populated_has_bottom_slot s : live s ≠ [] → has_bottom_slot s.
Proof.
  unfold live, level_chain, has_bottom_slot.
  destruct (nxt (store s) 0 (head s)); [eauto|done].
Qed.

(** ** Presence of a key *)

(** The walk finds a node exactly when some live key compares equal. *)
Lemma hit_node_None_iff s ch k :
  Inv s ch →
  hit_node (store s) k ch = None ↔
  ∀ b, b ∈ ch → compare (key_at (store s) b) k ≠ 0.
Proof.
  intros HI. split.
  - intros Hmiss%hit_node_None b Hb.
    pose proof (pre_of_lt (store s) k ch) as Hlt.
    pose proof (post_of_stops (store s) k ch) as Hstop.
    pose proof (inv_sorted _ _ HI) as Hs.
    rewrite <-(pre_post_of (store s) k ch) in Hb, Hs.
    apply elem_of_app in Hb as [Hb|Hb].
    { rewrite Forall_forall in Hlt. specialize (Hlt b Hb). unfold key_lt in Hlt. lia. }
    destruct (post_of (store s) k ch) as [|b' post]; [by apply elem_of_nil in Hb|].
    simpl in Hmiss, Hstop.
    assert (key_lt k (key_at (store s) b')) as Hkb'.
    { apply compare_gt_lt. unfold key_lt in Hstop. lia. }
    apply elem_of_cons in Hb as [->|Hb]; [done|].
    rewrite fmap_app, fmap_cons in Hs.
    apply StronglySorted_app_1_r, StronglySorted_cons in Hs as [Hb' _].
    rewrite Forall_forall in Hb'.
    assert (key_lt (key_at (store s) b') (key_at (store s) b)) as Hbb
      by (apply Hb', list_elem_of_fmap; eauto).
    assert (0 < compare (key_at (store s) b) k)
      by (apply compare_gt_lt; by transitivity (key_at (store s) b')).
    lia.
  - intros Hall. destruct (hit_node (store s) k ch) as [b|] eqn:Hhit; [|done].
    pose proof (hit_node_elem _ _ _ _ Hhit) as Hb.
    apply hit_node_Some in Hhit as (_ & _ & Hcmp). by destruct (Hall b Hb).
Qed.

(** For a key of type int or string on a list whose keys have its type,
    comparing equal to no live key is being absent. *)
Lemma absent_same_type s ch k :
  dyn_type k = Some TInt ∨ dyn_type k = Some TString →
  Forall (λ x, dyn_type x = dyn_type k) (key_at (store s) <$> ch) →
  (∀ b, b ∈ ch → compare (key_at (store s) b) k ≠ 0) ↔
  k ∉ key_at (store s) <$> ch.
Proof.
  intros Hsup Hty. rewrite Forall_forall in Hty. split.
  - intros Hall (b & -> & Hb)%list_elem_of_fmap.
    apply (Hall b Hb), compare_refl.
  - intros Habs b Hb Hcmp. apply Habs.
    assert (key_at (store s) b ∈ key_at (store s) <$> ch) as Hin
      by (apply list_elem_of_fmap; eauto).
    pose proof (Hty _ Hin) as Hb'.
    rewrite <-(compare_eq_same_type _ _ Hcmp Hb'); [done|].
    by rewrite Hb'.
Qed.

(** ** C4 *)

(** On the list with the int keys 1, 2, 3 the string key "zz", which no
    node holds, is found by Search (with the value of the node of key 1)
    and removed by Delete. *)
Lemma C4_counterexample :
  reachable ex_list ∧
  is_nil (IString "zz") = false ∧
  (IString "zz" ∉ live_keys ex_list) ∧
  Search (IString "zz") ex_list = Ret (IString "a", None) ex_list ∧
  result_of (Delete (IString "zz") ex_list) = Some None.
Proof.
  split; [apply ex_list_reachable|]. split; [done|]. split; [|done].
  assert (live_keys ex_list = [IInt 1; IInt 2; IInt 3]) as -> by reflexivity.
  intros H. repeat (apply elem_of_cons in H as [H|H]; [discriminate|]).
  by apply elem_of_nil in H.
Qed.

(** C4, amended: Insert, Search and Delete return the NilKey error exactly
    when the key is nil; Search and Delete return NotFound exactly when the
    key is not nil, the head has a bottom forward slot (as on every list
    but the one Clear leaves when DefaultMaxLevel is 0) and no live key
    compares equal to the key under the comparator, which for a key of
    type int or string on a list whose keys have that type means that the
    key is absent; Search never changes the list, and a Delete that
    returns an error leaves it unchanged. *)
Theorem C4_errors s k :
  reachable s →
  (∀ rnd v, result_of (Insert rnd k v s) = Some NilKey ↔ k = INil) ∧
  (snd <$> result_of (Search k s) = Some NilKey ↔ k = INil) ∧
  (result_of (Delete k s) = Some NilKey ↔ k = INil) ∧
  (snd <$> result_of (Search k s) = Some NotFound ↔
     k ≠ INil ∧ has_bottom_slot s ∧
     ∀ b, b ∈ live s → compare (key_at (store s) b) k ≠ 0) ∧
  (result_of (Delete k s) = Some NotFound ↔
     k ≠ INil ∧ has_bottom_slot s ∧
     ∀ b, b ∈ live s → compare (key_at (store s) b) k ≠ 0) ∧
  (dyn_type k = Some TInt ∨ dyn_type k = Some TString →
   Forall (λ x, dyn_type x = dyn_type k) (live_keys s) →
   has_bottom_slot s →
   (snd <$> result_of (Search k s) = Some NotFound ↔ k ∉ live_keys s) ∧
   (result_of (Delete k s) = Some NotFound ↔ k ∉ live_keys s)) ∧
  (∀ r s', Search k s = Ret r s' → s' = s) ∧
  (∀ e s', Delete k s = Ret (Some e) s' → s' = s).
Proof.
  intros Hr. destruct (is_nil k) eqn:Hk.
  { destruct k; try done.
    change (Search INil s) with (Ret (INil, NilKey) s).
    change (Delete INil s) with (Ret NilKey s).
    repeat split; try done; try (by intros [? _]); try (by intros ?? [= _ <-]);
      match goal with H : _ ∨ _ |- _ => by destruct H end. }
  assert (k ≠ INil) as Hne by (by intros ->).
  destruct (reachable_cases s Hr) as [[ch HI]|HS].
  2:{ pose proof (Slotless_no_slot s HS) as Hno.
      rewrite (Search_slotless s k HS Hk), (Delete_slotless s k HS Hk).
      split; [intros rnd v; by rewrite (Insert_slotless s rnd k v HS Hk)|].
      repeat split; try done; try (by intros (_ & ? & _)). }
  pose proof (Inv_has_bottom_slot s ch HI) as Hslot.
  unfold live_keys. rewrite (Inv_live _ _ HI).
  pose proof (hit_node_None_iff s ch k HI) as Hnone.
  assert (HS : snd <$> result_of (Search k s) = Some NotFound ↔
               hit_node (store s) k ch = None).
  { rewrite (Search_eq s ch), (Inv_live _ _ HI) by done.
    by destruct (hit_node (store s) k ch). }
  assert (HD : result_of (Delete k s) = Some NotFound ↔
               hit_node (store s) k ch = None).
  { rewrite (Delete_eq s ch), (Inv_live _ _ HI) by done.
    by destruct (hit_node (store s) k ch). }
  split; [|split; [|split; [|split; [|split; [|split; [|split]]]]]].
  - intros rnd v. rewrite (Insert_eq s ch) by done.
    destruct (hit_node (store s) k (live s)); [|destruct (rnd 0%nat)];
      simpl; split; done.
  - rewrite (Search_eq s ch) by done.
    destruct (hit_node (store s) k (live s)); simpl; split; done.
  - rewrite (Delete_eq s ch) by done.
    destruct (hit_node (store s) k (live s)); simpl; split; done.
  - rewrite HS, Hnone. naive_solver.
  - rewrite HD, Hnone. naive_solver.
  - intros Hsup Hty _. rewrite HS, HD, Hnone. split; by apply absent_same_type.
  - intros r s'. rewrite (Search_eq s ch) by done.
    destruct (hit_node (store s) k (live s)); by intros [= _ <-].
  - intros e s'. rewrite (Delete_eq s ch) by done.
    destruct (hit_node (store s) k (live s)); [done|]. by intros [= _ <-].
Qed.

Lemma C4_errors_witness :
  result_of (Delete (IInt 5) ex_list) = Some NotFound ↔ IInt 5 ∉ live_keys ex_list.
Proof.
  destruct (C4_errors ex_list (IInt 5) ex_list_reachable)
    as (_ & _ & _ & _ & _ & H & _).
  apply H; [by left| |by eexists].
  assert (live_keys ex_list = [IInt 1; IInt 2; IInt 3]) as -> by reflexivity.
  repeat constructor.
Defined.

(** ** C5 *)

Lemma delete_state_facts s ch l1 b l2 :
  Inv s ch → ch = l1 ++ b :: l2 →
  let k := key_at (store s) b in
  Delete k s = Ret None (delete_state k s) ∧
  Inv (delete_state k s) (l1 ++ l2) ∧
  nxt (store (delete_state k s)) 0 (last_of (head s) l1) = nxt (store s) 0 b ∧
  (∀ a, key_at (store (delete_state k s)) a = key_at (store s) a) ∧
  (∀ a, value_at (store (delete_state k s)) a = value_at (store s) a) ∧
  length (delete_state k s) = int_wrap (length s - 1) ∧
  Search k (delete_state k s) = Ret (INil, NotFound) (delete_state k s).
Proof.
  intros HI -> k.
  assert (b ∈ l1 ++ b :: l2) as Hb by set_solver.
  pose proof (Inv_key_nonnil _ _ _ HI Hb) as Hk.
  pose proof (hit_node_key _ _ _ HI Hb) as Hhit.
  destruct (split_at_node (store s) l1 b l2 (inv_sorted _ _ HI)) as [Hpre Hpost].
  rewrite <-(Inv_live _ _ HI) in Hhit.
  pose proof (Inv_delete_state _ _ _ _ HI Hhit) as HI'.
  fold k in Hpre, Hpost, Hhit, Hk, HI'. rewrite Hpre, Hpost in HI'. simpl in HI'.
  pose proof (Inv_located s _ k HI) as Hloc. rewrite Hpre, Hpost in Hloc.
  destruct (Inv_delete s k l1 b l2 _ 0 HI Hloc) as [Hnb _].
  assert (Hst : store (delete_state k s)
                = relink (last_of (head s) l1) (hd_error l2) (store s)).
  { unfold delete_state, pred_of. sl_simpl.
    by rewrite (Inv_live _ _ HI), Hpre, Hpost. }
  split; [by rewrite (Delete_eq _ _ _ HI Hk), Hhit|]. split; [done|].
  split.
  { pose proof (loc_next _ _ _ _ _ Hloc) as Hpn. unfold pred_of in Hpn.
    rewrite (Inv_live _ _ HI), Hpre in Hpn.
    rewrite Hst, Hnb. eapply nxt_relink_eq, Hpn. }
  split; [intros a; rewrite Hst; apply key_at_relink|].
  split; [intros a; rewrite Hst; apply value_at_relink|].
  split; [done|].
  rewrite (Search_eq _ _ _ HI' Hk), (Inv_live _ _ HI').
  assert (hit_node (store (delete_state k s)) k (l1 ++ l2) = None) as ->; [|done].
  apply (hit_node_None_iff _ _ _ HI'). intros a Ha.
  rewrite Hst, key_at_relink.
  pose proof (inv_sorted _ _ HI) as Hs. rewrite fmap_app, fmap_cons in Hs.
  apply StronglySorted_app in Hs as (H12 & _ & [H2 _]%StronglySorted_cons).
  apply elem_of_app in Ha as [Ha|Ha].
  - assert (key_lt (key_at (store s) a) k) as Hlt.
    { apply H12; [|left]. apply list_elem_of_fmap. eauto. }
    unfold key_lt in Hlt. lia.
  - rewrite Forall_forall in H2.
    assert (key_lt k (key_at (store s) a)) as Hlt%compare_gt_lt.
    { apply H2, list_elem_of_fmap. eauto. }
    lia.
Qed.

(** On a list built by calls that contains the key k, Delete(k) returns
    nil; the node of k is unlinked from the chain of the one level in use,
    its predecessor now pointing to its successor; the level stays 1; the
    count decreases by exactly 1; keys and values of the other nodes are
    untouched; and Search(k) then returns NotFound. *)
Lemma Delete_removes_built s k :
  built s → k ∈ live_keys s →
  ∃ pre b post,
    live s = pre ++ b :: post ∧ key_at (store s) b = k ∧
    Delete k s = Ret None (delete_state k s) ∧
    live (delete_state k s) = pre ++ post ∧
    nxt (store (delete_state k s)) 0 (last_of (head s) pre) = nxt (store s) 0 b ∧
    (∀ a, key_at (store (delete_state k s)) a = key_at (store s) a) ∧
    (∀ a, value_at (store (delete_state k s)) a = value_at (store s) a) ∧
    level (delete_state k s) = 1 ∧
    Length (delete_state k s) = Length s - 1 ∧
    Search k (delete_state k s) = Ret (INil, NotFound) (delete_state k s).
Proof.
  intros Hb Hk. unfold live_keys in Hk.
  apply list_elem_of_fmap in Hk as (b & -> & Hk).
  destruct (built_counted_live s b Hb Hk) as (ch & HI & Hc).
  destruct (built_length_range s ch Hb HI) as [Hlen Hmax].
  rewrite (Inv_live _ _ HI) in *.
  apply list_elem_of_split in Hk as (l1 & l2 & ->).
  destruct (delete_state_facts s _ l1 b l2 HI eq_refl)
    as (HD & HI' & Hn & Hkeys & Hvals & HL & HS).
  exists l1, b, l2. rewrite (Inv_live _ _ HI').
  repeat split; try done.
  - apply HI'.
  - unfold Length. rewrite HL, Hlen. unfold max_int in Hmax.
    rewrite length_app in *. simpl in *. apply int_wrap_small. lia.
Qed.

Lemma ex_list_built : built ex_list.
Proof.
  exists 3%nat. split; [|done].
  apply (reach_in_step 2 ex_list2); [apply (reach_in_step 1 ex_list1);
    [apply (reach_in_step 0 (NewSkipList TInt)); [apply reach_in_new|]|]|].
  - by apply (step_Insert_ret no_coin (IInt 3) (IString "c") _ None).
  - by apply (step_Insert_ret no_coin (IInt 1) (IString "a") _ None).
  - by apply (step_Insert_ret no_coin (IInt 2) (IString "b") _ None).
Qed.

(** ** Lists of several levels *)

(** *** Reads and writes at a level *)

Lemma get_forward_nxt_at s (i : nat) a m :
  nxt (store s) i a = Some m → get_forward (Some a) (Z.of_nat i) s = Ret m s.
Proof.
  intros (n & Hn & Hm)%nxt_Some.
  unfold get_forward, bind, deref, index. rewrite Hn.
  destruct (Z.ltb_spec (Z.of_nat i) 0); [lia|]. by rewrite Nat2Z.id, Hm.
Qed.

Lemma index_at {A} (l : list A) (i : nat) x s :
  l !! i = Some x → index l (Z.of_nat i) s = Ret x s.
Proof.
  intros Hx. unfold index.
  destruct (Z.ltb_spec (Z.of_nat i) 0); [lia|]. by rewrite Nat2Z.id, Hx.
Qed.

Lemma index_set_at {A} (l : list A) (i : nat) x y s :
  l !! i = Some x → index_set l (Z.of_nat i) y s = Ret (<[i := y]> l) s.
Proof.
  intros Hx. unfold index_set. mstep (by apply index_at).
  by rewrite Nat2Z.id.
Qed.

Lemma length_relink_at i a q h : List.length (relink_at i a q h) = List.length h.
Proof. unfold relink_at. destruct (h !! a); [apply length_insert|done]. Qed.

Lemma nxt_relink_at_eq i a q h m :
  nxt h i a = Some m → nxt (relink_at i a q h) i a = Some q.
Proof.
  intros (n & Hn & Hm)%nxt_Some. unfold relink_at, nxt. rewrite Hn.
  rewrite list_lookup_insert_eq by (by eapply lookup_lt_Some). simpl.
  apply list_lookup_insert_eq. by eapply lookup_lt_Some.
Qed.

Lemma nxt_relink_at_other i a q h j b :
  i ≠ j ∨ a ≠ b → nxt (relink_at i a q h) j b = nxt h j b.
Proof.
  intros Hne. unfold relink_at, nxt. destruct (h !! a) as [n|] eqn:Hn; [|done].
  destruct (decide (a = b)) as [->|Hab].
  - rewrite list_lookup_insert_eq by (by eapply lookup_lt_Some). rewrite Hn. simpl.
    apply list_lookup_insert_ne. by destruct Hne.
  - by rewrite list_lookup_insert_ne.
Qed.

Lemma key_at_relink_at i a q h b : key_at (relink_at i a q h) b = key_at h b.
Proof.
  unfold relink_at, key_at. destruct (h !! a) as [n|] eqn:Hn; [|done].
  destruct (decide (a = b)) as [->|Hne].
  - rewrite list_lookup_insert_eq by (by eapply lookup_lt_Some). by rewrite Hn.
  - by rewrite list_lookup_insert_ne.
Qed.

Lemma value_at_relink_at i a q h b : value_at (relink_at i a q h) b = value_at h b.
Proof.
  unfold relink_at, value_at. destruct (h !! a) as [n|] eqn:Hn; [|done].
  destruct (decide (a = b)) as [->|Hne].
  - rewrite list_lookup_insert_eq by (by eapply lookup_lt_Some). by rewrite Hn.
  - by rewrite list_lookup_insert_ne.
Qed.

Lemma set_forward_relink_at s (i : nat) a q m :
  nxt (store s) i a = Some m →
  set_forward (Some a) (Z.of_nat i) q s
  = Ret tt (set_store (relink_at i a q (store s)) s).
Proof.
  intros (n & Hn & Hm)%nxt_Some. unfold set_forward.
  mstep (unfold deref; by rewrite Hn).
  mstep (by apply (index_set_at _ _ m)).
  unfold assign, relink_at. by rewrite Hn.
Qed.

Lemma set_store_id s : set_store (store s) s = s.
Proof. by destruct s. Qed.

Lemma set_level_id s : set_level (level s) s = s.
Proof. by destruct s. Qed.

(** *** The walk at a level *)

Lemma advance_at_spec s k (i : nat) pre : ∀ a post fuel,
  lseg (store s) i (Some a) (a :: pre ++ post) None →
  Forall (λ b, key_lt (key_at (store s) b) k) pre →
  stops (store s) k post →
  (List.length pre < fuel)%nat →
  advance fuel (Z.of_nat i) k (Some a) s = Ret (Some (last_of a pre)) s.
Proof.
  induction pre as [|b pre IH]; intros a post fuel Hseg Hlt Hstop Hfuel;
    (destruct fuel as [|fuel]; [simpl in Hfuel; lia|]);
    destruct Hseg as (_ & m & Hm & Hrest); rewrite advance_S;
    rewrite (bind_Ret _ _ _ _ _ (get_forward_nxt_at s i a m Hm)).
  - destruct post as [|b post]; simpl in Hrest; [by subst m|].
    destruct Hrest as (-> & m' & Hm' & _).
    rewrite (bind_Ret _ _ _ _ _ (get_key_at s b (nxt_is_Some _ _ _ _ Hm'))).
    simpl in Hstop. unfold key_lt in Hstop.
    by destruct (Z.ltb_spec (compare (key_at (store s) b) k) 0).
  - destruct Hrest as (-> & m' & Hm' & Hrest).
    rewrite (bind_Ret _ _ _ _ _ (get_key_at s b (nxt_is_Some _ _ _ _ Hm'))).
    apply Forall_cons in Hlt as [Hb Hlt]. unfold key_lt in Hb.
    destruct (Z.ltb_spec (compare (key_at (store s) b) k) 0); [|lia].
    simpl. apply (IH b post); [|done|done|simpl in Hfuel; lia].
    split; [done|]. eauto.
Qed.

Lemma last_of_split l1 : ∀ a l c l2,
  a :: l = l1 ++ c :: l2 → last_of a l = last_of c l2.
Proof.
  induction l1 as [|x l1 IH]; intros a l c l2 H; simpl in H.
  - by injection H as -> ->.
  - injection H as -> ->. destruct l1 as [|y l1]; [done|]. by apply (IH y).
Qed.

Lemma split_tail_sub {A} (l1 : list A) a l c l2 :
  a :: l = l1 ++ c :: l2 → l2 ⊆ l ∧ (List.length l2 ≤ List.length l)%nat.
Proof.
  intros H. destruct l1 as [|x l1]; simpl in H; injection H as -> ->.
  - split; [set_solver|simpl; lia].
  - split; [set_solver|rewrite length_app; simpl; lia].
Qed.

(** The walk may start at any node that it would pass. *)
Lemma advance_from s k (i : nat) hd pre post c fuel :
  lseg (store s) i (Some hd) (hd :: pre ++ post) None →
  Forall (λ b, key_lt (key_at (store s) b) k) pre →
  stops (store s) k post →
  c ∈ hd :: pre → (List.length pre < fuel)%nat →
  advance fuel (Z.of_nat i) k (Some c) s = Ret (Some (last_of hd pre)) s.
Proof.
  intros Hch Hlt Hstop (l1 & l2 & Hsplit)%list_elem_of_split Hfuel.
  rewrite (last_of_split l1 hd pre c l2 Hsplit).
  destruct (split_tail_sub l1 hd pre c l2 Hsplit) as [Hsub Hlen].
  change (hd :: pre ++ post) with ((hd :: pre) ++ post) in Hch.
  rewrite Hsplit, <-app_assoc in Hch. apply lseg_app in Hch as (m & _ & Hc).
  simpl in Hc. destruct Hc as (-> & Hc).
  apply (advance_at_spec s k i l2 c post); [by split| |done|lia].
  rewrite Forall_forall in Hlt |- *. intros b Hb. by apply Hlt, Hsub.
Qed.

(** On a chain whose keys increase, every node with a key before [k] is
    passed by the walk for [k]. *)
Lemma pre_of_mem h k ch b :
  StronglySorted key_lt (key_at h <$> ch) → b ∈ ch → key_lt (key_at h b) k →
  b ∈ pre_of h k ch.
Proof.
  induction ch as [|a ch IH]; intros Hs Hb Hlt; [done|].
  rewrite fmap_cons in Hs. apply StronglySorted_cons in Hs as [Ha Hs]. simpl.
  destruct (Z.ltb_spec (compare (key_at h a) k) 0) as [Hak|Hak].
  - apply elem_of_cons in Hb as [->|Hb]; [left|right; by apply IH].
  - apply elem_of_cons in Hb as [->|Hb]; [unfold key_lt in Hlt; lia|].
    rewrite Forall_forall in Ha.
    assert (key_lt (key_at h a) (key_at h b)) as Hab
      by (apply Ha, list_elem_of_fmap; eauto).
    assert (key_lt (key_at h a) k) as Hk by (by transitivity (key_at h b)).
    unfold key_lt in Hk. lia.
Qed.

Lemma pre_of_elem h k ch a : a ∈ pre_of h k ch → a ∈ ch ∧ key_lt (key_at h a) k.
Proof.
  intros Ha. split.
  - rewrite <-(pre_post_of h k ch). set_solver.
  - pose proof (pre_of_lt h k ch) as Hlt. rewrite Forall_forall in Hlt. by apply Hlt.
Qed.

Lemma chain_length_bound h i hd ch :
  lseg h i (Some hd) (hd :: ch) None → NoDup (hd :: ch) →
  (S (List.length ch) ≤ List.length h)%nat.
Proof.
  intros Hch Hnd. change (S (List.length ch)) with (List.length (hd :: ch)).
  apply NoDup_bounded_length; [done|].
  intros a Ha. apply lookup_lt_is_Some. eauto using lseg_valid.
Qed.

Lemma chain_split_at h i hd pre post :
  lseg h i (Some hd) (hd :: pre ++ post) None →
  ∃ l1, hd :: pre = l1 ++ [last_of hd pre] ∧
        lseg h i (Some hd) l1 (Some (last_of hd pre)) ∧
        nxt h i (last_of hd pre) = Some (hd_error post) ∧
        lseg h i (hd_error post) post None.
Proof.
  intros Hch. destruct (last_of_snoc pre hd) as [l1 Hl1]. exists l1.
  split; [done|].
  change (hd :: pre ++ post) with ((hd :: pre) ++ post) in Hch.
  rewrite Hl1 in Hch.
  apply lseg_app in Hch as (m & (m1 & H1 & (-> & m' & Hp & <-))%lseg_app & Hpost).
  rewrite <-(lseg_hd_error _ _ _ _ Hpost). done.
Qed.

Lemma chain_rebuild_at h i hd l1 p m l2 :
  lseg h i (Some hd) l1 (Some p) → nxt h i p = Some m → lseg h i m l2 None →
  lseg h i (Some hd) (l1 ++ p :: l2) None.
Proof.
  intros H1 Hp H2. apply lseg_app. exists (Some p). split; [done|].
  simpl. eauto.
Qed.

(** *** Facts that follow from the shape *)

Lemma Shape_lookup s chs (i : nat) :
  Shape s chs → (i < List.length chs)%nat → ∃ ch, chs !! i = Some ch.
Proof. intros _ Hi. by apply lookup_lt_is_Some in Hi as [ch ?]; eauto. Qed.

Lemma Shape_bottom s chs : Shape s chs → ∃ ch0, chs !! 0%nat = Some ch0.
Proof.
  intros HS. apply (Shape_lookup s chs 0 HS).
  pose proof (shape_level _ _ HS). pose proof (shape_range _ _ HS). lia.
Qed.

Lemma Shape_incl s chs : Shape s chs → ∀ (j i : nat) ch ch',
  (i ≤ j)%nat → chs !! i = Some ch → chs !! j = Some ch' → ch' ⊆ ch.
Proof.
  intros HS. induction j as [|j IH]; intros i ch ch' Hij Hi Hj.
  - assert (i = 0%nat) as -> by lia. by simplify_eq.
  - destruct (decide (i = S j)) as [->|Hne]; [by simplify_eq|].
    destruct (Shape_lookup s chs j HS) as [chj Hchj];
      [apply lookup_lt_Some in Hj; lia|].
    transitivity chj; [by eapply shape_tower|]. apply (IH i); [lia|done..].
Qed.

Lemma Shape_valid s chs i ch a :
  Shape s chs → chs !! i = Some ch → a ∈ head s :: ch → is_Some (store s !! a).
Proof. intros HS Hch Ha. eauto using lseg_valid, shape_chain. Qed.

Lemma Shape_fuel s chs i ch :
  Shape s chs → chs !! i = Some ch →
  (List.length ch < S (List.length (store s)))%nat.
Proof.
  intros HS Hch.
  pose proof (chain_length_bound _ _ _ _ (shape_chain _ _ HS i ch Hch)
                (shape_nodup _ _ HS i ch Hch)). lia.
Qed.

Lemma Inv_Shape s ch : Inv s ch → Shape s [ch] ∧ Ordered s [ch].
Proof.
  intros [Hlvl Hch Hnd Hs Hk]. split.
  - split.
    + by rewrite Hlvl.
    + rewrite Hlvl. unfold max_slice_len. lia.
    + intros [|i] c Hc; by simplify_eq/=.
    + intros [|i] c Hc; by simplify_eq/=.
    + intros [|i] c c' Hc Hc'; by simplify_eq/=.
  - split; intros [|i] c Hc; by simplify_eq/=.
Qed.

(** *** The descent through the levels *)

(** A node that the walk for [k] stops at on one level is passed by the
    walk on the level below. *)
Lemma pred_carries s chs k (i : nat) ch c :
  Shape s chs → Ordered s chs → chs !! i = Some ch →
  c = head s ∨ (∃ ch', chs !! S i = Some ch' ∧ c ∈ pre_of (store s) k ch') →
  c ∈ head s :: pre_of (store s) k ch.
Proof.
  intros HS HO Hch [->|(ch' & Hch' & [Hc Hlt]%pre_of_elem)]; [left|right].
  apply pre_of_mem; [by eapply ord_sorted| |done].
  by apply (shape_tower _ _ HS i ch ch').
Qed.

Lemma preds_lookup s k chs (i : nat) ch :
  chs !! i = Some ch → preds s k chs !! i = Some (Some (pred_in s k ch)).
Proof. intros Hch. unfold preds. by rewrite list_lookup_fmap, Hch. Qed.

Lemma update_fill (n : nat) (P : list ptr) (x : ptr) s :
  P !! n = Some x →
  index_set (replicate (S n) None ++ drop (S n) P) (Z.of_nat n) x s
  = Ret (replicate n None ++ drop n P) s.
Proof.
  intros HP. rewrite (index_set_at _ n None).
  - f_equal. rewrite replicate_S_end, <-app_assoc. simpl.
    rewrite insert_app_r_alt by (rewrite length_replicate; lia).
    rewrite length_replicate, Nat.sub_diag. simpl.
    by rewrite (drop_S P x n HP).
  - rewrite lookup_app_l by (rewrite length_replicate; lia).
    apply lookup_replicate. split; [done|lia].
Qed.

Lemma walk_level s chs k (i : nat) ch c :
  Shape s chs → Ordered s chs → chs !! i = Some ch →
  c = head s ∨ (∃ ch', chs !! S i = Some ch' ∧ c ∈ pre_of (store s) k ch') →
  advance (S (List.length (store s))) (Z.of_nat i) k (Some c) s
  = Ret (Some (pred_in s k ch)) s.
Proof.
  intros HS HO Hch Hc.
  pose proof (shape_chain _ _ HS i ch Hch) as Hseg.
  rewrite <-(pre_post_of (store s) k ch) in Hseg.
  apply (advance_from s k i (head s) _ (post_of (store s) k ch));
    [done|apply pre_of_lt|apply post_of_stops|by eapply pred_carries|].
  pose proof (Shape_fuel s chs i ch HS Hch).
  pose proof (length_pre_post (store s) k ch). lia.
Qed.

Lemma pred_in_next s chs k (i : nat) ch :
  Shape s chs → chs !! i = Some ch →
  pred_in s k ch = head s ∨
  (∃ ch', chs !! i = Some ch' ∧ pred_in s k ch ∈ pre_of (store s) k ch').
Proof.
  intros HS Hch. unfold pred_in.
  pose proof (last_of_elem (pre_of (store s) k ch) (head s)) as [?|Hin]%elem_of_cons;
    [by left|right; eauto].
Qed.

(** The outer loop of Insert and Delete, from the top level down: it
    leaves the bottom predecessor and fills the update vector. *)
Lemma descend_levels s chs k ch0 :
  Shape s chs → Ordered s chs → chs !! 0%nat = Some ch0 →
  ∀ (n : nat) c,
    (n ≤ List.length chs)%nat →
    c = head s ∨ (∃ ch', chs !! n = Some ch' ∧ c ∈ pre_of (store s) k ch') →
    descend n k (Some c) (replicate n None ++ drop n (preds s k chs)) s
    = Ret (Some (if decide (n = 0%nat) then c else pred_in s k ch0),
           preds s k chs) s.
Proof.
  intros HS HO Hch0. induction n as [|i IH]; intros c Hn Hc; [done|].
  destruct (Shape_lookup s chs i HS) as [ch Hch]; [lia|].
  cbn [descend]. unfold walk_bound. mstep reflexivity.
  mstep (by apply (walk_level s chs k i ch c)).
  mstep (by apply update_fill, preds_lookup).
  rewrite (IH (pred_in s k ch)); [|lia|by apply pred_in_next].
  destruct (decide (i = 0%nat)) as [->|_]; [|done]. by simplify_eq.
Qed.

(** The outer loop of Search. *)
Lemma descend_search_levels s chs k ch0 :
  Shape s chs → Ordered s chs → chs !! 0%nat = Some ch0 →
  ∀ (n : nat) c,
    (n ≤ List.length chs)%nat →
    c = head s ∨ (∃ ch', chs !! n = Some ch' ∧ c ∈ pre_of (store s) k ch') →
    descend_search n k (Some c) s
    = Ret (Some (if decide (n = 0%nat) then c else pred_in s k ch0)) s.
Proof.
  intros HS HO Hch0. induction n as [|i IH]; intros c Hn Hc; [done|].
  destruct (Shape_lookup s chs i HS) as [ch Hch]; [lia|].
  cbn [descend_search]. unfold walk_bound. mstep reflexivity.
  mstep (by apply (walk_level s chs k i ch c)).
  rewrite (IH (pred_in s k ch)); [|lia|by apply pred_in_next].
  destruct (decide (i = 0%nat)) as [->|_]; [|done]. by simplify_eq.
Qed.

Lemma Shape_levels s chs : Shape s chs → Z.to_nat (level s) = List.length chs.
Proof. intros HS. rewrite (shape_level _ _ HS). apply Nat2Z.id. Qed.

Lemma Shape_pos s chs : Shape s chs → (1 ≤ List.length chs)%nat.
Proof.
  intros HS. pose proof (shape_level _ _ HS). pose proof (shape_range _ _ HS). lia.
Qed.

Lemma make_levels s chs :
  Shape s chs → make (level s) s = Ret (replicate (List.length chs) None) s.
Proof.
  intros HS. pose proof (shape_range _ _ HS).
  rewrite make_in_range by lia. by rewrite (Shape_levels s chs).
Qed.

(** The walk of Insert and Delete on a list of several levels. *)
Lemma descend_top s chs k ch0 :
  Shape s chs → Ordered s chs → chs !! 0%nat = Some ch0 →
  descend (List.length chs) k (Some (head s)) (replicate (List.length chs) None) s
  = Ret (Some (pred_in s k ch0), preds s k chs) s.
Proof.
  intros HS HO Hch0.
  pose proof (descend_levels s chs k ch0 HS HO Hch0 (List.length chs) (head s)) as H.
  rewrite drop_ge, app_nil_r in H by (unfold preds; by rewrite length_fmap).
  rewrite H; [|done|by left].
  pose proof (Shape_pos s chs HS). by destruct (decide (List.length chs = 0%nat)); [lia|].
Qed.

Lemma descend_search_top s chs k ch0 :
  Shape s chs → Ordered s chs → chs !! 0%nat = Some ch0 →
  descend_search (List.length chs) k (Some (head s)) s
  = Ret (Some (pred_in s k ch0)) s.
Proof.
  intros HS HO Hch0.
  rewrite (descend_search_levels s chs k ch0 HS HO Hch0); [|done|by left].
  pose proof (Shape_pos s chs HS). by destruct (decide (List.length chs = 0%nat)); [lia|].
Qed.

Lemma pred_in_nxt s chs k (i : nat) ch :
  Shape s chs → chs !! i = Some ch →
  nxt (store s) i (pred_in s k ch) = Some (hd_error (post_of (store s) k ch)).
Proof.
  intros HS Hch. pose proof (shape_chain _ _ HS i ch Hch) as Hseg.
  rewrite <-(pre_post_of (store s) k ch) in Hseg.
  by destruct (chain_split_at _ _ _ _ _ Hseg) as (_ & _ & _ & ? & _).
Qed.

Lemma hit_node_None_sorted h k ch :
  StronglySorted key_lt (key_at h <$> ch) →
  hit_node h k ch = None ↔ ∀ b, b ∈ ch → compare (key_at h b) k ≠ 0.
Proof.
  intros Hs. split.
  - intros Hmiss%hit_node_None b Hb.
    pose proof (pre_of_lt h k ch) as Hlt.
    pose proof (post_of_stops h k ch) as Hstop.
    rewrite <-(pre_post_of h k ch) in Hb, Hs.
    apply elem_of_app in Hb as [Hb|Hb].
    { rewrite Forall_forall in Hlt. specialize (Hlt b Hb). unfold key_lt in Hlt. lia. }
    destruct (post_of h k ch) as [|b' post]; [by apply elem_of_nil in Hb|].
    simpl in Hmiss, Hstop.
    assert (key_lt k (key_at h b')) as Hkb'.
    { apply compare_gt_lt. unfold key_lt in Hstop. lia. }
    apply elem_of_cons in Hb as [->|Hb]; [done|].
    rewrite fmap_app, fmap_cons in Hs.
    apply StronglySorted_app_1_r, StronglySorted_cons in Hs as [Hb' _].
    rewrite Forall_forall in Hb'.
    assert (key_lt (key_at h b') (key_at h b)) as Hbb
      by (apply Hb', list_elem_of_fmap; eauto).
    assert (0 < compare (key_at h b) k)
      by (apply compare_gt_lt; by transitivity (key_at h b')).
    lia.
  - intros Hall. destruct (hit_node h k ch) as [b|] eqn:Hhit; [|done].
    pose proof (hit_node_elem _ _ _ _ Hhit) as Hb.
    apply hit_node_Some in Hhit as (_ & _ & Hcmp). by destruct (Hall b Hb).
Qed.

(** Search on a list of several levels. *)
Lemma Search_levels s chs k ch0 :
  Shape s chs → Ordered s chs → chs !! 0%nat = Some ch0 → is_nil k = false →
  Search k s =
  match hit_node (store s) k ch0 with
  | Some b => Ret (value_at (store s) b, None) s
  | None => Ret (INil, NotFound) s
  end.
Proof.
  intros HS HO Hch0 Hk. unfold Search. rewrite Hk. mstep reflexivity.
  mstep reflexivity. rewrite (Shape_levels s chs HS).
  mstep (by apply (descend_search_top s chs k ch0)).
  mstep (apply (get_forward_nxt_at s 0); by apply (pred_in_nxt s chs)).
  assert (Hv : ∀ b, b ∈ post_of (store s) k ch0 → is_Some (store s !! b)).
  { intros b Hb%post_of_elem. eapply Shape_valid; [done..|by right]. }
  destruct (hit_node (store s) k ch0) as [b|] eqn:Hhit.
  - apply hit_node_Some in Hhit as (post & Hpost & Hcmp). rewrite Hpost in *.
    simpl hd_error. mstep (apply is_hit_node, Hv; left). rewrite Hcmp. simpl.
    mstep (apply get_value_at, Hv; left). done.
  - apply hit_node_None in Hhit. mstep (by apply is_hit_miss). done.
Qed.

(** *** Chains without a node *)

Lemma elem_of_without t ch a : a ∈ without t ch ↔ a ∈ ch ∧ a ≠ t.
Proof. unfold without. rewrite list_elem_of_filter. tauto. Qed.

Lemma without_notin t ch : t ∉ ch → without t ch = ch.
Proof.
  unfold without. induction ch as [|a ch IH]; intros Ht; [done|].
  rewrite filter_cons_True by set_solver. f_equal. apply IH. set_solver.
Qed.

Lemma without_split t l1 l2 :
  t ∉ l1 → t ∉ l2 → without t (l1 ++ t :: l2) = l1 ++ l2.
Proof.
  intros H1 H2. unfold without. rewrite filter_app, filter_cons_False by naive_solver.
  fold (without t l1) (without t l2). by rewrite !without_notin.
Qed.

Lemma NoDup_without hd t ch : NoDup (hd :: ch) → NoDup (hd :: without t ch).
Proof.
  intros [Hhd Hnd]%NoDup_cons. apply NoDup_cons. split.
  - rewrite elem_of_without. tauto.
  - by apply NoDup_filter.
Qed.

Lemma sorted_without h t ch :
  StronglySorted key_lt (key_at h <$> ch) →
  StronglySorted key_lt (key_at h <$> without t ch).
Proof.
  unfold without. induction ch as [|a ch IH]; intros Hs; [done|].
  rewrite fmap_cons in Hs. apply StronglySorted_cons in Hs as [Ha Hs].
  destruct (decide (a ≠ t)).
  - rewrite filter_cons_True by done. rewrite fmap_cons.
    constructor; [by apply IH|].
    rewrite Forall_forall in Ha |- *.
    intros x (b & -> & [Hb _]%elem_of_without)%list_elem_of_fmap.
    apply Ha, list_elem_of_fmap. eauto.
  - rewrite filter_cons_False by done. by apply IH.
Qed.

(** *** The unlinking loop *)

(** Where the node found by the walk stands on a level that holds it. *)
Lemma level_split s chs k ch0 t post0 (i : nat) ch :
  Shape s chs → Ordered s chs → chs !! 0%nat = Some ch0 →
  post_of (store s) k ch0 = t :: post0 →
  chs !! i = Some ch → t ∈ ch →
  ∃ l1 l2, ch = l1 ++ t :: l2 ∧
           pre_of (store s) k ch = l1 ∧ post_of (store s) k ch = t :: l2.
Proof.
  intros HS HO Hch0 Hpost Hch (l1 & l2 & ->)%list_elem_of_split.
  exists l1, l2. split; [done|]. apply split_at.
  - apply Forall_forall. intros b Hb.
    assert (b ∈ ch0) as Hb0.
    { apply (Shape_incl s chs HS i 0%nat ch0 (l1 ++ t :: l2)); [lia|done..|set_solver]. }
    pose proof (ord_sorted _ _ HO i _ Hch) as Hs. rewrite fmap_app, fmap_cons in Hs.
    apply StronglySorted_app in Hs as (H12 & _ & _).
    assert (key_lt (key_at (store s) b) (key_at (store s) t)) as Hbt
      by (apply H12; [apply list_elem_of_fmap; eauto|left]).
    pose proof (ord_sorted _ _ HO 0%nat _ Hch0) as Hs0.
    rewrite <-(pre_post_of (store s) k ch0), Hpost in Hb0, Hs0.
    apply elem_of_app in Hb0 as [Hb0|[->|Hb0]%elem_of_cons].
    + by apply pre_of_elem in Hb0 as [_ ?].
    + by destruct (key_lt_irrefl (key_at (store s) t)).
    + rewrite fmap_app, fmap_cons in Hs0.
      apply StronglySorted_app_1_r, StronglySorted_cons in Hs0 as [Ht _].
      rewrite Forall_forall in Ht.
      destruct (key_lt_asym _ _ Hbt). apply Ht, list_elem_of_fmap. eauto.
  - pose proof (post_of_stops (store s) k ch0) as Hstop. by rewrite Hpost in Hstop.
Qed.

Lemma unlink_in s chs k ch0 t post0 (i : nat) ch :
  Shape s chs → Ordered s chs → chs !! 0%nat = Some ch0 →
  post_of (store s) k ch0 = t :: post0 →
  chs !! i = Some ch → t ∈ ch →
  ∃ l1 l2, ch = l1 ++ t :: l2 ∧ pred_in s k ch = last_of (head s) l1 ∧
           nxt (store s) i (pred_in s k ch) = Some (Some t) ∧
           nxt (store s) i t = Some (hd_error l2).
Proof.
  intros HS HO Hch0 Hpost Hch Ht.
  destruct (level_split s chs k ch0 t post0 i ch) as (l1 & l2 & -> & Hpre & Hpo);
    [done..|].
  exists l1, l2. split; [done|]. split; [unfold pred_in; by rewrite Hpre|].
  split; [by rewrite (pred_in_nxt s chs k i _ HS Hch), Hpo|].
  pose proof (shape_chain _ _ HS i _ Hch) as Hseg.
  destruct (chain_split_at _ _ _ _ _ Hseg) as (_ & _ & _ & _ & _ & m & Hm & Hl2).
  by rewrite <-(lseg_hd_error _ _ _ _ Hl2).
Qed.

Lemma unlink_out s chs k (i : nat) ch t :
  Shape s chs → chs !! i = Some ch → t ∉ ch →
  ∃ m, nxt (store s) i (pred_in s k ch) = Some m ∧ m ≠ Some t.
Proof.
  intros HS Hch Ht. eexists. split; [by apply (pred_in_nxt s chs)|].
  intros Hm. apply Ht, (post_of_elem (store s) k).
  destruct (post_of (store s) k ch); simplify_eq/=. left.
Qed.

(** The loop [for i := 0; i < s.level; i++], [n] rounds from level [j],
    the levels below [j] being done. *)
Lemma unlink_levels s chs k ch0 t post0 :
  Shape s chs → Ordered s chs → chs !! 0%nat = Some ch0 →
  post_of (store s) k ch0 = t :: post0 →
  ∀ (n j : nat) h,
    (j + n = List.length chs)%nat →
    (∀ i ch, (i < j)%nat → chs !! i = Some ch → t ∈ ch) →
    List.length h = List.length (store s) →
    (∀ b, key_at h b = key_at (store s) b) →
    (∀ b, value_at h b = value_at (store s) b) →
    (∀ i b, nxt h i b =
       if decide ((i < j)%nat ∧ b = pred_in s k (default [] (chs !! i)))
       then nxt (store s) i t else nxt (store s) i b) →
    ∃ h', unlink n (Z.of_nat j) (Some t) (preds s k chs) (set_store h s)
          = Ret tt (set_store h' s) ∧
          Unlinked (store s) chs t (λ i, pred_in s k (default [] (chs !! i))) h'.
Proof.
  intros HS HO Hch0 Hpost.
  induction n as [|n IH]; intros j h Hj Hall Hlen Hkey Hval Hnxt.
  { exists h. split; [done|]. split; [done..|]. intros i b. rewrite Hnxt.
    apply decide_ext. split; intros [Hi ->]; (split; [|done]).
    - destruct (Shape_lookup s chs i HS) as [ch Hch]; [lia|].
      rewrite Hch. simpl. by eapply Hall.
    - destruct (chs !! i) as [ch|] eqn:Hch; [|by apply elem_of_nil in Hi].
      apply lookup_lt_Some in Hch. lia. }
  destruct (Shape_lookup s chs j HS) as [ch Hch]; [lia|].
  assert (Hnxtj : ∀ b, nxt h j b = nxt (store s) j b).
  { intros b. rewrite Hnxt. destruct (decide _) as [[? _]|_]; [lia|done]. }
  destruct (decide (t ∈ ch)) as [Ht|Ht].
  - destruct (unlink_in s chs k ch0 t post0 j ch) as (l1 & l2 & _ & _ & Hp & Hnt);
      [done..|].
    assert (Hround :
      unlink (S n) (Z.of_nat j) (Some t) (preds s k chs) (set_store h s)
      = unlink n (Z.of_nat (S j)) (Some t) (preds s k chs)
          (set_store (relink_at j (pred_in s k ch) (hd_error l2) h) s)).
    { cbn [unlink]. mstep (by apply index_at, preds_lookup).
      mstep (apply get_forward_nxt_at; sl_simpl; by rewrite Hnxtj).
      rewrite ptr_eqb_refl.
      mstep (apply get_forward_nxt_at; sl_simpl; by rewrite Hnxtj).
      mstep (apply (set_forward_relink_at _ _ _ _ (Some t)); sl_simpl;
             by rewrite Hnxtj).
      sl_simpl. by replace (Z.of_nat j + 1) with (Z.of_nat (S j)) by lia. }
    rewrite Hround. apply IH.
    + lia.
    + intros i c Hi Hc. destruct (decide (i = j)) as [->|]; [by simplify_eq|].
      eapply Hall; [|done]. lia.
    + by rewrite length_relink_at.
    + intros b. by rewrite key_at_relink_at.
    + intros b. by rewrite value_at_relink_at.
    + intros i b.
      destruct (decide (i = j ∧ b = pred_in s k ch)) as [[-> ->]|Hne].
      * rewrite (nxt_relink_at_eq _ _ _ _ (Some t)) by (by rewrite Hnxtj).
        rewrite Hch. simpl. by destruct (decide _) as [_|[]]; [|split; [lia|done]].
      * rewrite nxt_relink_at_other, Hnxt.
        -- apply decide_ext. split; intros [Hi ->]; (split; [|done]); [lia|].
           destruct (decide (i = j)) as [->|]; [|lia].
           destruct Hne. split; [done|]. by rewrite Hch.
        -- destruct (decide (j = i)) as [->|]; [|by left]. right.
           intros <-. by destruct Hne.
  - destruct (unlink_out s chs k j ch t HS Hch Ht) as (m & Hm & Hmt).
    assert (Hround :
      unlink (S n) (Z.of_nat j) (Some t) (preds s k chs) (set_store h s)
      = Ret tt (set_store h s)).
    { cbn [unlink]. mstep (by apply index_at, preds_lookup).
      mstep (apply get_forward_nxt_at; sl_simpl; by rewrite Hnxtj).
      assert (ptr_eqb m (Some t) = false) as ->; [|done].
      destruct (ptr_eqb m (Some t)) eqn:E; [|done]. by apply ptr_eqb_eq in E. }
    exists h. split; [done|]. split; [done..|]. intros i b. rewrite Hnxt.
    apply decide_ext. split; intros [Hi ->]; (split; [|done]).
    + destruct (Shape_lookup s chs i HS) as [c Hc]; [lia|].
      rewrite Hc. simpl. by eapply Hall.
    + destruct (chs !! i) as [c|] eqn:Hc; [|by apply elem_of_nil in Hi].
      simpl in Hi. destruct (decide (i < j)%nat); [done|].
      destruct Ht. apply (Shape_incl s chs HS i j ch c); [lia|done..].
Qed.

Lemma unlink_top s chs k ch0 t post0 :
  Shape s chs → Ordered s chs → chs !! 0%nat = Some ch0 →
  post_of (store s) k ch0 = t :: post0 →
  ∃ h', unlink (List.length chs) 0 (Some t) (preds s k chs) s
        = Ret tt (set_store h' s) ∧
        Unlinked (store s) chs t (λ i, pred_in s k (default [] (chs !! i))) h'.
Proof.
  intros HS HO Hch0 Hpost.
  destruct (unlink_levels s chs k ch0 t post0 HS HO Hch0 Hpost
              (List.length chs) 0%nat (store s)) as (h' & Hun & HU);
    [done|intros i ch Hi; lia|done..| |].
  - intros i b. by destruct (decide _) as [[? _]|_]; [lia|].
  - exists h'. split; [|done]. by rewrite set_store_id in Hun.
Qed.

(** After the loop every chain is the chain it was, without the node. *)
Lemma unlinked_chain s chs k ch0 t post0 h' (i : nat) ch :
  Shape s chs → Ordered s chs → chs !! 0%nat = Some ch0 →
  post_of (store s) k ch0 = t :: post0 →
  Unlinked (store s) chs t (λ i, pred_in s k (default [] (chs !! i))) h' →
  chs !! i = Some ch →
  lseg h' i (Some (head s)) (head s :: without t ch) None.
Proof.
  intros HS HO Hch0 Hpost HU Hch.
  pose proof (shape_chain _ _ HS i ch Hch) as Hseg.
  pose proof (shape_nodup _ _ HS i ch Hch) as Hnd.
  assert (Hnx : ∀ b, nxt h' i b =
            if decide (t ∈ ch ∧ b = pred_in s k ch)
            then nxt (store s) i t else nxt (store s) i b).
  { intros b. rewrite (unl_nxt _ _ _ _ _ HU i b), Hch. done. }
  destruct (decide (t ∈ ch)) as [Ht|Ht].
  2:{ rewrite without_notin by done. apply (lseg_frame (store s)); [|done].
      intros a _. rewrite Hnx. by destruct (decide _) as [[? _]|_]. }
  destruct (unlink_in s chs k ch0 t post0 i ch) as (l1 & l2 & -> & Hp & Hpt & Hnt);
    [done..|].
  destruct (chain_split_at _ _ _ _ _ Hseg) as (l1' & Hl1 & Hseg1 & _ & Hseg2).
  destruct Hseg2 as (_ & m & Hm & Hl2). simpl in Hm.
  assert (m = hd_error l2) as -> by (by rewrite Hnt in Hm; simplify_eq).
  rewrite <-Hp in *. remember (pred_in s k (l1 ++ t :: l2)) as p eqn:Ep.
  clear Ep Hp.
  assert (Hall : head s :: l1 ++ t :: l2 = l1' ++ p :: t :: l2).
  { change (head s :: l1 ++ t :: l2) with ((head s :: l1) ++ t :: l2).
    by rewrite Hl1, <-app_assoc. }
  rewrite Hall in Hnd.
  assert ((t ∉ l1) ∧ (t ∉ l2)) as [Ht1 Ht2].
  { apply NoDup_app in Hnd as (_ & Hdis & Hnd2).
    pose proof Hnd2 as [Hp2 [Ht2 _]%NoDup_cons]%NoDup_cons.
    split; [|done]. intros Hin.
    assert (t ∈ head s :: l1) as Hin' by set_solver. rewrite Hl1 in Hin'.
    apply elem_of_app in Hin' as [Hin'|Hin'].
    - apply (Hdis t Hin'). set_solver.
    - apply list_elem_of_singleton in Hin'. subst p. apply Hp2. left. }
  rewrite without_split by done.
  change (head s :: l1 ++ l2) with ((head s :: l1) ++ l2).
  rewrite Hl1, <-app_assoc. simpl.
  apply (chain_rebuild_at _ _ _ _ _ (hd_error l2)).
  - apply (lseg_frame (store s)); [|done]. intros a Ha. rewrite Hnx.
    destruct (decide _) as [[_ ->]|_]; [|done].
    apply NoDup_app in Hnd as (_ & Hdis & _). destruct (Hdis p Ha). left.
  - rewrite Hnx. by destruct (decide _) as [_|[]]; [|split].
  - apply (lseg_frame (store s)); [|done]. intros a Ha. rewrite Hnx.
    destruct (decide _) as [[_ ->]|_]; [|done].
    apply NoDup_app in Hnd as (_ & _ & Hnd).
    apply NoDup_cons in Hnd as [Hnd _]. destruct Hnd. by right.
Qed.

(** *** The shrinking loop *)

Lemma shrink_levels s (cs : list (list addr)) :
  (∀ i c, cs !! i = Some c → nxt (store s) i (head s) = Some (hd_error c)) →
  ∀ m fuel : nat,
    (1 ≤ m ≤ List.length cs)%nat → Z.of_nat m ≤ max_int → (m ≤ fuel)%nat →
    ∃ m' : nat,
      (1 ≤ m' ≤ m)%nat ∧
      shrink fuel (set_level (Z.of_nat m) s) = Ret tt (set_level (Z.of_nat m') s) ∧
      (∀ i c, (m' ≤ i < m)%nat → cs !! i = Some c → c = []) ∧
      ((1 < m')%nat → ∃ c, cs !! (m' - 1)%nat = Some c ∧ c ≠ []).
Proof.
  intros Htop. induction m as [|m IH]; intros fuel Hm Hmax Hfuel; [lia|].
  destruct fuel as [|fuel]; [lia|].
  destruct (decide (m = 0%nat)) as [->|Hm0].
  { exists 1%nat. split; [lia|]. split; [|split; [intros; lia|lia]].
    cbn [shrink]. mstep reflexivity. done. }
  destruct (lookup_lt_is_Some_2 cs m) as [c Hc]; [lia|].
  assert (Hround :
    shrink (S fuel) (set_level (Z.of_nat (S m)) s) =
    match c with
    | [] => shrink fuel (set_level (Z.of_nat m) s)
    | _ :: _ => Ret tt (set_level (Z.of_nat (S m)) s)
    end).
  { cbn [shrink]. mstep reflexivity. sl_simpl.
    destruct (Z.gtb_spec (Z.of_nat (S m)) 1) as [Hgt|Hle]; [|lia].
    mstep reflexivity. sl_simpl.
    replace (Z.of_nat (S m) - 1) with (Z.of_nat m) by lia.
    mstep (apply get_forward_nxt_at; sl_simpl; by apply Htop).
    destruct c as [|x c]; simpl hd_error; cbv iota; [|done].
    mstep reflexivity. unfold max_int in Hmax. by rewrite int_wrap_small by lia. }
  rewrite Hround. destruct c as [|x c].
  - destruct (IH fuel) as (m' & Hm' & Hsh & Hempty & Hfull);
      [lia|unfold max_int in *; lia|lia|].
    exists m'. split; [lia|]. split; [done|]. split; [|done].
    intros i c' Hi Hc'. destruct (decide (i = m)) as [->|]; [by simplify_eq|].
    apply (Hempty i); [lia|done].
  - exists (S m). split; [lia|]. split; [done|]. split; [intros; lia|].
    intros _. exists (x :: c). by rewrite Nat.sub_1_r.
Qed.

(** *** Delete on a list of several levels *)

Lemma deleted_lookup t (chs : list (list addr)) (L' i : nat) c :
  take L' (without t <$> chs) !! i = Some c →
  (i < L')%nat ∧ ∃ ch, chs !! i = Some ch ∧ c = without t ch.
Proof.
  intros [Hc Hi]%lookup_take_Some. split; [done|].
  rewrite list_lookup_fmap in Hc. destruct (chs !! i); simplify_eq/=. eauto.
Qed.

Lemma Shape_live s chs ch0 :
  Shape s chs → chs !! 0%nat = Some ch0 → live s = ch0.
Proof.
  intros HS Hch0. destruct (shape_chain _ _ HS 0%nat ch0 Hch0) as (_ & m & Hm & Hch).
  pose proof (Shape_fuel s chs 0%nat ch0 HS Hch0).
  unfold live, level_chain. rewrite Hm. simpl.
  rewrite (walk_lseg _ _ ch0); [done|done|lia].
Qed.

(** Delete of a key that the walk finds: the node is unlinked from every
    level that holds it, and the level goes down while the top chain is
    empty. *)
Lemma Delete_levels s chs k ch0 t :
  Shape s chs → Ordered s chs → chs !! 0%nat = Some ch0 → is_nil k = false →
  hit_node (store s) k ch0 = Some t →
  ∃ h' (L' : nat),
    Delete k s = Ret None (set_length (int_wrap (length s - 1))
                   (set_level (Z.of_nat L') (set_store h' s))) ∧
    Unlinked (store s) chs t (λ i, pred_in s k (default [] (chs !! i))) h' ∧
    (∀ i ch, chs !! i = Some ch →
       lseg h' i (Some (head s)) (head s :: without t ch) None) ∧
    (1 ≤ L' ≤ List.length chs)%nat ∧
    (∀ i ch, (L' ≤ i)%nat → chs !! i = Some ch → without t ch = []) ∧
    ((1 < L')%nat → ∃ ch, chs !! (L' - 1)%nat = Some ch ∧ without t ch ≠ []).
Proof.
  intros HS HO Hch0 Hk (post0 & Hpost & Hcmp)%hit_node_Some.
  destruct (unlink_top s chs k ch0 t post0 HS HO Hch0 Hpost) as (h' & Hun & HU).
  assert (Hchains : ∀ i ch, chs !! i = Some ch →
            lseg h' i (Some (head s)) (head s :: without t ch) None)
    by (intros; by eapply unlinked_chain).
  pose proof (shape_level _ _ HS) as Hlvl. pose proof (shape_range _ _ HS) as Hrange.
  destruct (shrink_levels (set_store h' s) (without t <$> chs))
    with (m := List.length chs) (fuel := S (List.length chs))
    as (L' & HL' & Hsh & Hempty & Hfull).
  { intros i c Hc. rewrite list_lookup_fmap in Hc.
    destruct (chs !! i) as [ch|] eqn:Hch; simplify_eq/=.
    destruct (Hchains i ch Hch) as (_ & m & Hm & Hrest).
    by rewrite <-(lseg_hd_error _ _ _ _ Hrest). }
  { rewrite length_fmap. lia. }
  { unfold max_int, max_slice_len in *. lia. }
  { lia. }
  assert (Hs1 : set_level (Z.of_nat (List.length chs)) (set_store h' s)
                = set_store h' s) by (rewrite <-Hlvl; by destruct s).
  rewrite Hs1 in Hsh.
  assert (t ∈ ch0) as Ht0 by (apply (post_of_elem (store s) k); rewrite Hpost; left).
  exists h', L'. split; [|split; [done|split; [done|split; [done|split]]]].
  - unfold Delete. rewrite Hk. mstep reflexivity. mstep (by apply make_levels).
    mstep reflexivity. rewrite (Shape_levels s chs HS).
    mstep (by apply (descend_top s chs k ch0)).
    mstep (apply (get_forward_nxt_at s 0); by apply (pred_in_nxt s chs)).
    rewrite Hpost. simpl hd_error.
    mstep (apply is_hit_node; eapply Shape_valid; [done..|by right]).
    rewrite Hcmp. simpl Z.eqb. cbv iota.
    mstep reflexivity. rewrite (Shape_levels s chs HS).
    mstep (exact Hun). mstep reflexivity. sl_simpl.
    rewrite (Shape_levels s chs HS). mstep (exact Hsh).
    mstep reflexivity. done.
  - intros i ch Hi Hch.
    apply (Hempty i); [|by rewrite list_lookup_fmap, Hch].
    apply lookup_lt_Some in Hch. lia.
  - intros HL. destruct (Hfull HL) as (c & Hc & Hne).
    rewrite list_lookup_fmap in Hc.
    destruct (chs !! (L' - 1)%nat) as [ch|]; simplify_eq/=. eauto.
Qed.

Lemma Shape_deleted s chs t h' (L' : nat) n :
  Shape s chs →
  (∀ i ch, chs !! i = Some ch →
     lseg h' i (Some (head s)) (head s :: without t ch) None) →
  (1 ≤ L' ≤ List.length chs)%nat →
  Shape (set_length n (set_level (Z.of_nat L') (set_store h' s)))
        (take L' (without t <$> chs)).
Proof.
  intros HS Hchains HL'.
  pose proof (shape_level _ _ HS). pose proof (shape_range _ _ HS).
  split; sl_simpl.
  - rewrite length_take, length_fmap. f_equal. lia.
  - lia.
  - intros i c (Hi & ch & Hch & ->)%deleted_lookup. by apply Hchains.
  - intros i c (Hi & ch & Hch & ->)%deleted_lookup.
    by eapply NoDup_without, shape_nodup.
  - intros i c c' (Hi & ch & Hch & ->)%deleted_lookup
      (Hi' & ch' & Hch' & ->)%deleted_lookup a [Ha Hne]%elem_of_without.
    apply elem_of_without. split; [|done]. by apply (shape_tower _ _ HS i ch ch').
Qed.

Lemma Ordered_deleted s chs t h' (L' : nat) n :
  Ordered s chs → (∀ b, key_at h' b = key_at (store s) b) →
  Ordered (set_length n (set_level (Z.of_nat L') (set_store h' s)))
          (take L' (without t <$> chs)).
Proof.
  intros HO Hkey.
  assert (Hk : ∀ l : list addr, key_at h' <$> l = key_at (store s) <$> l)
    by (intros l; by apply fmap_ext_elem).
  split; sl_simpl; intros i c (Hi & ch & Hch & ->)%deleted_lookup; rewrite Hk.
  - by eapply sorted_without, ord_sorted.
  - pose proof (ord_keys _ _ HO i ch Hch) as Hnil.
    rewrite Forall_forall in Hnil |- *.
    intros x (b & -> & [Hb _]%elem_of_without)%list_elem_of_fmap.
    apply Hnil, list_elem_of_fmap. eauto.
Qed.

Lemma length_without t l1 l2 :
  NoDup (l1 ++ t :: l2) →
  without t (l1 ++ t :: l2) = l1 ++ l2 ∧
  List.length (l1 ++ t :: l2) = S (List.length (without t (l1 ++ t :: l2))).
Proof.
  intros Hnd.
  assert ((t ∉ l1) ∧ (t ∉ l2)) as [H1 H2].
  { apply NoDup_app in Hnd as (_ & Hdis & [Ht _]%NoDup_cons). split; [|done].
    intros Hin. apply (Hdis t Hin). left. }
  rewrite without_split by done. split; [done|].
  rewrite !length_app. simpl. lia.
Qed.

(** The lists built by calls are among those of one level. *)
Lemma built_levels s :
  built s → has_bottom_slot s →
  Shape s [live s] ∧ Ordered s [live s] ∧ Counted s (live s) ∧ length s ≤ max_int.
Proof.
  intros Hb Hslot. destruct (built_counted s Hb Hslot) as (ch & HI & Hc).
  destruct (built_length_range s ch Hb HI) as [_ Hmax].
  rewrite (Inv_live _ _ HI). by destruct (Inv_Shape s ch HI).
Qed.

Lemma ex_tower_Shape :
  Shape ex_tower [[1; 2; 3]; [2]]%nat ∧ Ordered ex_tower [[1; 2; 3]; [2]]%nat.
Proof.
  split; split.
  - done.
  - by vm_compute.
  - intros [|[|i]] ch Hch; simplify_eq/=;
      repeat (split; [reflexivity|]; eexists; split; [reflexivity|]); reflexivity.
  - intros [|[|i]] ch Hch; simplify_eq/=;
      repeat (constructor; [set_solver|]); constructor.
  - intros [|[|i]] ch ch' Hch Hch'; simplify_eq/=. set_solver.
  - intros [|[|i]] ch Hch; simplify_eq/=; repeat constructor; by vm_compute.
  - intros [|[|i]] ch Hch; simplify_eq/=; repeat constructor.
Qed.

(** C5: on a well-linked list of any number of levels with increasing
    keys, as every list built by calls is, Delete of the key of a node [t]
    of the bottom level returns nil.  At every level the chain is
    afterwards the chain it was without [t], so that [t] is unlinked from
    every level that held it; a level that did not hold [t] is left as it
    was, pointer for pointer.  The level goes down to the highest level
    whose chain is not empty, and not below 1.  The result is again a
    well-linked list with increasing keys; keys, values and the number of
    allocated nodes are as they were; the count goes down by exactly 1 and
    still agrees with the bottom chain; and Search of the key then returns
    NotFound. *)
Theorem C5_Delete_removes s chs ch0 t :
  Shape s chs → Ordered s chs → chs !! 0%nat = Some ch0 →
  Counted s ch0 → length s ≤ max_int → t ∈ ch0 →
  ∃ s' (L' : nat),
    Delete (key_at (store s) t) s = Ret None s' ∧
    (∀ i ch, chs !! i = Some ch →
       lseg (store s') i (Some (head s')) (head s' :: without t ch) None ∧
       (t ∉ ch → ∀ b, nxt (store s') i b = nxt (store s) i b)) ∧
    (1 ≤ L' ≤ List.length chs)%nat ∧ level s' = Z.of_nat L' ∧
    (∀ i ch, (L' ≤ i)%nat → chs !! i = Some ch → without t ch = []) ∧
    ((1 < L')%nat → ∃ ch, chs !! (L' - 1)%nat = Some ch ∧ without t ch ≠ []) ∧
    Shape s' (take L' (without t <$> chs)) ∧
    Ordered s' (take L' (without t <$> chs)) ∧
    head s' = head s ∧ List.length (store s') = List.length (store s) ∧
    (∀ a, key_at (store s') a = key_at (store s) a) ∧
    (∀ a, value_at (store s') a = value_at (store s) a) ∧
    live s = ch0 ∧ live s' = without t ch0 ∧
    Length s' = Length s - 1 ∧ Counted s' (without t ch0) ∧
    Search (key_at (store s) t) s' = Ret (INil, NotFound) s'.
Proof.
  intros HS HO Hch0 Hc Hmax Ht. set (k := key_at (store s) t).
  pose proof Ht as (l1 & l2 & Hsplit)%list_elem_of_split.
  pose proof (ord_sorted _ _ HO 0%nat ch0 Hch0) as Hs.
  assert (is_nil k = false) as Hk.
  { pose proof (ord_keys _ _ HO 0%nat ch0 Hch0) as Hnil.
    rewrite Forall_forall in Hnil. apply Hnil, list_elem_of_fmap. eauto. }
  assert (hit_node (store s) k ch0 = Some t) as Hhit.
  { rewrite Hsplit in Hs |- *.
    destruct (split_at_node (store s) l1 t l2 Hs) as [_ Hpost].
    apply hit_node_Some. exists l2. split; [done|apply compare_refl]. }
  destruct (Delete_levels s chs k ch0 t HS HO Hch0 Hk Hhit)
    as (h' & L' & HD & HU & Hchains & HL' & Hempty & Hfull).
  pose proof (Shape_deleted s chs t h' L' (int_wrap (length s - 1)) HS Hchains HL')
    as HS'.
  pose proof (Ordered_deleted s chs t h' L' (int_wrap (length s - 1)) HO
                (unl_key _ _ _ _ _ HU)) as HO'.
  assert (Hch0' : take L' (without t <$> chs) !! 0%nat = Some (without t ch0)).
  { rewrite lookup_take_lt by lia. by rewrite list_lookup_fmap, Hch0. }
  pose proof (shape_nodup _ _ HS 0%nat ch0 Hch0) as [_ Hnd]%NoDup_cons.
  rewrite Hsplit in Hnd. destruct (length_without t l1 l2 Hnd) as [Hwo Hlen].
  rewrite <-Hsplit in Hwo, Hlen.
  assert (Hcount : int_wrap (length s - 1)
                   = Z.of_nat (List.length (without t ch0))).
  { unfold Counted in Hc. unfold max_int in Hmax. rewrite int_wrap_small by lia. lia. }
  eexists _, L'. split; [exact HD|]. sl_simpl.
  split; [|split; [done|split; [done|split; [done|split; [done|split; [done|
    split; [done|split; [done|split; [apply HU|split; [apply HU|split; [apply HU|
    split; [by eapply Shape_live|split; [by eapply Shape_live|split; [|split]]]]]]]]]]]]]].
  - intros i ch Hch. split; [by apply Hchains|]. intros Hni b.
    rewrite (unl_nxt _ _ _ _ _ HU i b), Hch. simpl.
    by destruct (decide _) as [[? _]|_].
  - unfold Length. sl_simpl. unfold Counted in Hc. lia.
  - done.
  - rewrite (Search_levels _ _ k (without t ch0) HS' HO' Hch0' Hk). sl_simpl.
    assert (hit_node h' k (without t ch0) = None) as ->; [|done].
    apply hit_node_None_sorted.
    { pose proof (ord_sorted _ _ HO' 0%nat _ Hch0') as Hs'. exact Hs'. }
    intros a [Ha Hne]%elem_of_without. rewrite (unl_key _ _ _ _ _ HU).
    rewrite Hsplit in Ha, Hs. rewrite fmap_app, fmap_cons in Hs.
    apply StronglySorted_app in Hs as (H12 & _ & [H2 _]%StronglySorted_cons).
    apply elem_of_app in Ha as [Ha|[->|Ha]%elem_of_cons]; [|done|].
    + assert (key_lt (key_at (store s) a) k) as Hlt.
      { apply H12; [|left]. apply list_elem_of_fmap. eauto. }
      unfold key_lt in Hlt. lia.
    + rewrite Forall_forall in H2.
      assert (key_lt k (key_at (store s) a)) as Hlt%compare_gt_lt.
      { apply H2, list_elem_of_fmap. eauto. }
      lia.
Qed.

Lemma C5_Delete_removes_witness :
  (∃ s', Delete (IInt 2) ex_tower = Ret None s' ∧
         level s' = 1 ∧ live s' = [1; 3]%nat ∧
         level_chain s' 1 = Some [] ∧
         Length s' = 2 ∧
         Search (IInt 2) s' = Ret (INil, NotFound) s') ∧
  (∃ s', Delete (IInt 1) ex_tower = Ret None s' ∧
         level s' = 2 ∧ live s' = [2; 3]%nat ∧
         level_chain s' 1 = Some [2]%nat ∧
         Length s' = 2 ∧
         Search (IInt 1) s' = Ret (INil, NotFound) s').
Proof.
  destruct ex_tower_Shape as [HS HO]. split.
  - destruct (C5_Delete_removes ex_tower [[1; 2; 3]; [2]]%nat [1; 2; 3]%nat 2%nat
                HS HO eq_refl eq_refl) as (s' & L' & HD & Hch & HL' & Hlvl & Hempty
                & Hfull & _ & _ & _ & _ & _ & _ & _ & Hlive & Hlen & _ & Hsearch);
      [by vm_compute|set_solver|].
    exists s'. split; [exact HD|].
    assert (L' = 1%nat) as ->.
    { destruct (decide (1 < L')%nat) as [HL|HL]; [|lia].
      destruct (Hfull HL) as (ch & Hc & Hne). simpl in HL'.
      assert (L' = 2%nat) as -> by lia. simplify_eq/=. }
    split; [exact Hlvl|]. split; [exact Hlive|].
    split; [|split; [exact Hlen|exact Hsearch]].
    injection HD as <-. reflexivity.
  - destruct (C5_Delete_removes ex_tower [[1; 2; 3]; [2]]%nat [1; 2; 3]%nat 1%nat
                HS HO eq_refl eq_refl) as (s' & L' & HD & Hch & HL' & Hlvl & Hempty
                & Hfull & _ & _ & _ & _ & _ & _ & _ & Hlive & Hlen & _ & Hsearch);
      [by vm_compute|set_solver|].
    exists s'. split; [exact HD|].
    assert (L' = 2%nat) as ->.
    { destruct (decide (L' = 2)%nat) as [|HL]; [done|].
      assert (without 1%nat [2]%nat = []) as Habs; [|done].
      apply (Hempty 1%nat); [simpl in HL'; lia|done]. }
    split; [exact Hlvl|]. split; [exact Hlive|].
    split; [|split; [exact Hlen|exact Hsearch]].
    injection HD as <-. reflexivity.
Defined.

(** ** C10 *)

(** C10: the comparator returns 0 for two keys of different dynamic types
    and for a first key of a type other than int and string.  So on a
    non-empty list whose keys all have a type other than that of the
    non-nil key k, every live key compares equal to k; Insert(k, v)
    returns nil and overwrites the value of the first node without
    allocating; Search(k) returns the value of the first node with no
    error; and Delete(k) returns nil and removes the first node. *)
Theorem C10_mismatched_keys_compare_equal s k b rest :
  reachable s → is_nil k = false → live s = b :: rest →
  Forall (λ x, dyn_type x ≠ dyn_type k) (live_keys s) →
  (∀ x y, dyn_type x ≠ dyn_type y ∨
          (dyn_type x ≠ Some TInt ∧ dyn_type x ≠ Some TString) →
          compare x y = 0) ∧
  (∀ a, a ∈ live s → compare (key_at (store s) a) k = 0) ∧
  (∀ rnd v,
     Insert rnd k v s = Ret None (upsert_state b v s) ∧
     value_at (store (upsert_state b v s)) b = v ∧
     live (upsert_state b v s) = live s ∧
     live_keys (upsert_state b v s) = live_keys s ∧
     List.length (store (upsert_state b v s)) = List.length (store s)) ∧
  Search k s = Ret (value_at (store s) b, None) s ∧
  Delete k s = Ret None (delete_state k s) ∧
  live (delete_state k s) = rest.
Proof.
  intros Hr Hk Hlive Hty.
  destruct (reachable_Inv_live s b Hr) as [ch HI]; [rewrite Hlive; left|].
  assert (Hall : ∀ a, a ∈ live s → compare (key_at (store s) a) k = 0).
  { intros a Ha. apply compare_mismatch. left.
    rewrite Forall_forall in Hty. apply Hty, list_elem_of_fmap. eauto. }
  assert (Hpre : pre_of (store s) k (live s) = []
               ∧ post_of (store s) k (live s) = b :: rest).
  { rewrite Hlive. simpl. rewrite (Hall b) by (rewrite Hlive; left). done. }
  destruct Hpre as [Hpre Hpost].
  assert (Hhit : hit_node (store s) k (live s) = Some b).
  { apply hit_node_Some. exists rest. split; [done|].
    apply Hall. rewrite Hlive. left. }
  assert (b ∈ ch) as Hb by (rewrite <-(Inv_live _ _ HI), Hlive; left).
  split; [intros x y; apply compare_mismatch|]. split; [done|]. split; [|split; [|split]].
  - intros rnd v.
    destruct (upsert_state_facts s ch b v HI Hb) as (Hl & Hks & Hlen & _ & Hv & _).
    split; [by rewrite (Insert_eq s ch), Hhit|done].
  - by rewrite (Search_eq s ch), Hhit.
  - by rewrite (Delete_eq s ch), Hhit.
  - pose proof (Inv_delete_state s ch k b HI Hhit) as HI'.
    rewrite (Inv_live _ _ HI'). rewrite <-(Inv_live _ _ HI), Hpre, Hpost. done.
Qed.

Lemma C10_mismatched_keys_compare_equal_witness :
  Search (IString "x") ex_list = Ret (IString "a", None) ex_list ∧
  live (delete_state (IString "x") ex_list) = [3; 1]%nat.
Proof.
  assert (Forall (λ x, dyn_type x ≠ dyn_type (IString "x")) (live_keys ex_list)) as Hty.
  { assert (live_keys ex_list = [IInt 1; IInt 2; IInt 3]) as -> by reflexivity.
    repeat constructor; discriminate. }
  destruct (C10_mismatched_keys_compare_equal ex_list (IString "x") 2%nat [3; 1]%nat
              ex_list_reachable eq_refl eq_refl Hty)
    as (_ & _ & _ & HS & _ & HD).
  split; [exact HS|exact HD].
Defined.

(** ** C6 *)

Lemma iterate_S fuel it out n :
  iterate (S fuel) it out n =
  (let* (more, it) := Next it in
   if (more : bool) then
     let* k := Key it in
     let* v := Value it in
     iterate fuel it (out ++ [(k, v)]) (n + 1)
   else ret (out, n)).
Proof. done. Qed.

Lemma iterate_spec s l : ∀ a hf out n fuel,
  lseg (store s) 0 (Some a) (a :: l) None → (List.length l < fuel)%nat →
  iterate fuel (mkIterator (Some a) hf) out n s
  = Ret (out ++ (entry_at (store s) <$> l), n + Z.of_nat (List.length l)) s.
Proof.
  induction l as [|b l IH]; intros a hf out n fuel (_ & m & Hm & Hl) Hfuel;
    (destruct fuel as [|fuel]; [simpl in Hfuel; lia|]); rewrite iterate_S;
    unfold Next; simpl it_node.
  - simpl in Hl. subst m.
    mstep (mstep (by apply get_forward_nxt); reflexivity).
    simpl. by rewrite app_nil_r, Z.add_0_r.
  - pose proof Hl as (-> & m' & Hm' & _).
    mstep (mstep (by apply get_forward_nxt); reflexivity).
    pose proof (nxt_is_Some _ _ _ _ Hm') as Hb.
    unfold Key, Value. simpl isHead. cbv iota. simpl it_node.
    mstep (by apply get_key_at). mstep (by apply get_value_at).
    assert (List.length l < fuel)%nat as Hfuel' by (simpl in Hfuel; lia).
    rewrite (IH b false _ _ fuel Hl Hfuel').
    rewrite <-app_assoc. simpl List.length. simpl. f_equal. f_equal. lia.
Qed.

Lemma iteration_facts s :
  built s → has_bottom_slot s →
  full_iteration s = Ret (entry_at (store s) <$> live s, Length s) s ∧
  fst <$> (entry_at (store s) <$> live s) = live_keys s ∧
  StronglySorted key_lt (live_keys s).
Proof.
  intros Hb Hslot. destruct (built_counted s Hb Hslot) as (ch & HI & Hc).
  unfold live_keys. rewrite (Inv_live _ _ HI). split; [|split].
  - unfold full_iteration, Iterator, walk_bound.
    mstep (mstep reflexivity; reflexivity). mstep reflexivity.
    rewrite (iterate_spec s ch); [|apply HI|].
    + unfold Length. by rewrite Hc.
    + pose proof (Inv_length _ _ HI). lia.
  - rewrite <-list_fmap_compose. by apply fmap_ext_elem.
  - apply HI.
Qed.

(** C6: on a list built by calls whose head has a bottom forward slot,
    as every populated list has (the one list without it is the empty list
    Clear leaves when DefaultMaxLevel is 0), a fresh cursor is at the head
    and its Key() and Value() return nil; a full iteration visits the live
    nodes in chain order, Key() and Value() returning the key and the
    value of the node reached by each successful Next(); the keys visited
    strictly increase in comparator order; and the number of calls of
    Next() that return true is Length(). *)
Theorem C6_iteration s :
  built s → has_bottom_slot s →
  (∃ it, Iterator s = Ret it s ∧ isHead it = true ∧
         Key it s = Ret INil s ∧ Value it s = Ret INil s) ∧
  full_iteration s = Ret (entry_at (store s) <$> live s, Length s) s ∧
  fst <$> (entry_at (store s) <$> live s) = live_keys s ∧
  StronglySorted key_lt (live_keys s).
Proof.
  intros Hb Hslot. split; [by eexists|]. by apply iteration_facts.
Qed.

Lemma C6_iteration_witness :
  full_iteration ex_list
  = Ret ([(IInt 1, IString "a"); (IInt 2, IString "b"); (IInt 3, IString "c")], 3)
      ex_list.
Proof.
  assert (has_bottom_slot ex_list) as Hslot by (by eexists).
  destruct (C6_iteration ex_list ex_list_built Hslot) as (_ & H & _).
  exact H.
Defined.

(** ** C7 *)

Lemma insert_sorted_perm less x l : insert_sorted less x l ≡ₚ x :: l.
Proof.
  induction l as [|y l IH]; simpl; [done|].
  destruct (less x y); [done|]. rewrite IH. apply Permutation_swap.
Qed.

Lemma insertion_sort_perm less l : insertion_sort less l ≡ₚ l.
Proof.
  induction l as [|x l IH]; simpl; [done|].
  by rewrite insert_sorted_perm, IH.
Qed.

Lemma strict_total_on_sub less (l l' : list iface) :
  (∀ a, a ∈ l' → a ∈ l) → strict_total_on less l → strict_total_on less l'.
Proof.
  intros Hsub (Hirr & Htr & Htot). repeat split; intros; eauto.
Qed.

Lemma insert_sorted_sorted less x l :
  strict_total_on less (x :: l) →
  StronglySorted (λ a b, less b a = false) l →
  StronglySorted (λ a b, less b a = false) (insert_sorted less x l).
Proof.
  intros Hst Hs. induction Hs as [|y l Hs IH Hy]; simpl.
  { repeat constructor. }
  destruct Hst as (Hirr & Htr & Htot).
  assert (Hasym : ∀ a b, a ∈ x :: y :: l → b ∈ x :: y :: l →
                    less a b = true → less b a = false).
  { intros a b Ha Hb Hab. destruct (less b a) eqn:Hba; [|done].
    by rewrite <-(Hirr a Ha), <-(Htr a b a Ha Hb Ha Hab Hba). }
  destruct (less x y) eqn:Hxy.
  - constructor; [by constructor|]. constructor.
    + apply Hasym; [left|right; left|done].
    + rewrite Forall_forall in Hy |- *. intros z Hz.
      destruct (less z x) eqn:Hzx; [|done].
      rewrite <-(Hy z Hz). symmetry.
      apply (Htr z x y); [set_solver|left|set_solver|done|done].
  - constructor.
    + apply IH. apply (strict_total_on_sub less (x :: y :: l)); [set_solver|done].
    + apply Forall_forall. intros z Hz.
      rewrite insert_sorted_perm in Hz. apply elem_of_cons in Hz as [->|Hz]; [done|].
      rewrite Forall_forall in Hy. by apply Hy.
Qed.

Lemma insertion_sort_sorts : sorts insertion_sort.
Proof.
  intros less l. split; [apply insertion_sort_perm|].
  induction l as [|x l IH]; intros Hst; simpl; [constructor|].
  apply insert_sorted_sorted.
  - apply (strict_total_on_sub less (x :: l)); [|done].
    intros a Ha. by rewrite insertion_sort_perm in Ha.
  - apply IH. apply (strict_total_on_sub less (x :: l)); [set_solver|done].
Qed.

Lemma compareKeysOrValues_lt a b : compareKeysOrValues a b = true ↔ key_lt a b.
Proof.
  destruct a as [|x|x|], b as [|y|y|]; simpl; try (by split; [|intros H; by destruct (key_lt_inv _ _ H) as [(?&?&?&?&?)|(?&?&?&?&?)]]).
  - rewrite key_lt_int. apply Z.ltb_lt.
  - rewrite key_lt_string. unfold String.ltb.
    destruct (String.compare x y); split; done.
Qed.

Lemma compareKeysOrValues_false a b : compareKeysOrValues a b = false ↔ ¬ key_lt a b.
Proof.
  rewrite <-compareKeysOrValues_lt. by destruct (compareKeysOrValues a b).
Qed.

(** On the keys of a chain, the comparator is a total order. *)
Lemma sorted_total (ks : list iface) a b :
  StronglySorted key_lt ks → a ∈ ks → b ∈ ks → a ≠ b → key_lt a b ∨ key_lt b a.
Proof.
  intros Hs (l1 & l2 & ->)%list_elem_of_split Hb Hne.
  apply StronglySorted_app in Hs as (H12 & _ & [H2 _]%StronglySorted_cons).
  rewrite Forall_forall in H2.
  apply elem_of_app in Hb as [Hb|[->|Hb]%elem_of_cons];
    [right; apply H12; [done|left]|done|left; by apply H2].
Qed.

Lemma StronglySorted_on {A} (R1 R2 : relation A) (l : list A) :
  NoDup l →
  (∀ a b, a ∈ l → b ∈ l → a ≠ b → R1 a b → R2 a b) →
  StronglySorted R1 l → StronglySorted R2 l.
Proof.
  intros Hnd Himp Hs. induction Hs as [|x l Hs IH Hx]; constructor.
  - apply NoDup_cons in Hnd as [_ Hnd]. apply IH; [done|].
    intros a b Ha Hb. apply Himp; by right.
  - apply NoDup_cons in Hnd as [Hx' _]. rewrite Forall_forall in Hx |- *.
    intros y Hy. apply Himp; [left|by right| |by apply Hx]. by intros ->.
Qed.

Lemma StronglySorted_reverse {A} (R : relation A) (l : list A) :
  StronglySorted R l → StronglySorted (flip R) (reverse l).
Proof.
  induction 1 as [|x l Hs IH Hx]; [constructor|].
  rewrite reverse_cons. apply StronglySorted_app_2.
  - intros a b Ha ->%list_elem_of_singleton. rewrite elem_of_reverse in Ha.
    rewrite Forall_forall in Hx. by apply Hx.
  - done.
  - repeat constructor.
Qed.

Section SortByKey_correct.

Variable sort_Slice : (iface → iface → bool) → list iface → list iface.
Hypothesis sort_Slice_sorts : sorts sort_Slice.

(** Sorting the keys of a chain by [compareKeysOrValues] gives them back. *)
Lemma sort_sorted_keys (ks : list iface) :
  StronglySorted key_lt ks →
  sort_Slice (λ x y, compareKeysOrValues x y) ks = ks.
Proof.
  intros Hs. pose proof (sorted_NoDup ks Hs) as Hnd.
  destruct (sort_Slice_sorts (λ x y, compareKeysOrValues x y) ks) as [Hperm Hsorted].
  apply (StronglySorted_unique_strong key_lt); [|
    |done|done].
  - intros x y _ _ Hxy Hyx. by destruct (key_lt_asym x y).
  - apply (StronglySorted_on (λ a b, compareKeysOrValues b a = false)).
    + by rewrite Hperm.
    + intros a b Ha Hb Hne Hba%compareKeysOrValues_false.
      rewrite Hperm in Ha, Hb. by destruct (sorted_total ks a b Hs Ha Hb Hne).
    + apply Hsorted. repeat split.
      * intros a _. apply compareKeysOrValues_false, key_lt_irrefl.
      * intros a b c _ _ _. rewrite !compareKeysOrValues_lt. apply transitivity.
      * intros a b Ha Hb Hne. rewrite !compareKeysOrValues_lt.
        by apply (sorted_total ks).
Qed.

(** Sorting them by the flipped relation gives them in reverse. *)
Lemma sort_sorted_keys_reverse (ks : list iface) :
  StronglySorted key_lt ks →
  sort_Slice (λ x y, compareKeysOrValues y x) ks = reverse ks.
Proof.
  intros Hs. pose proof (sorted_NoDup ks Hs) as Hnd.
  destruct (sort_Slice_sorts (λ x y, compareKeysOrValues y x) ks) as [Hperm Hsorted].
  apply (StronglySorted_unique_strong (flip key_lt)).
  - intros x y _ _ Hxy Hyx. by destruct (key_lt_asym x y).
  - apply (StronglySorted_on (λ a b, compareKeysOrValues a b = false)).
    + by rewrite Hperm.
    + intros a b Ha Hb Hne Hba%compareKeysOrValues_false.
      rewrite Hperm in Ha, Hb. unfold flip.
      by destruct (sorted_total ks a b Hs Ha Hb Hne).
    + apply Hsorted. repeat split.
      * intros a _. apply compareKeysOrValues_false, key_lt_irrefl.
      * intros a b c _ _ _. rewrite !compareKeysOrValues_lt.
        intros ??. by transitivity b.
      * intros a b Ha Hb Hne. rewrite !compareKeysOrValues_lt.
        destruct (sorted_total ks a b Hs Ha Hb Hne); eauto.
  - by apply StronglySorted_reverse.
  - by rewrite Hperm, reverse_Permutation.
Qed.

End SortByKey_correct.

Lemma collect_keys_S fuel current result :
  collect_keys (S fuel) current result =
  match current with
  | None => ret result
  | Some _ =>
      let* k := get_key current in
      let* current := get_forward current 0 in
      collect_keys fuel current (result ++ [k])
  end.
Proof. done. Qed.

Lemma collect_keys_spec s l : ∀ p result fuel,
  lseg (store s) 0 p l None → (List.length l < fuel)%nat →
  collect_keys fuel p result s = Ret (result ++ (key_at (store s) <$> l)) s.
Proof.
  induction l as [|a l IH]; intros p result fuel Hl Hfuel;
    (destruct fuel as [|fuel]; [simpl in Hfuel; lia|]); rewrite collect_keys_S.
  - simpl in Hl. subst p. by rewrite app_nil_r.
  - destruct Hl as (-> & m & Hm & Hl).
    mstep (apply get_key_at; by eapply nxt_is_Some).
    mstep (by apply get_forward_nxt).
    assert (List.length l < fuel)%nat as Hfuel' by (simpl in Hfuel; lia).
    rewrite (IH m _ fuel Hl Hfuel'). by rewrite <-app_assoc.
Qed.

Lemma SortByKey_eq sort_Slice reverse s ch :
  Inv s ch → Counted s ch →
  SortByKey sort_Slice reverse s =
  Ret (match ch with
       | [] => []
       | _ :: _ =>
           if reverse
           then sort_Slice (λ x y, compareKeysOrValues y x) (key_at (store s) <$> ch)
           else sort_Slice (λ x y, compareKeysOrValues x y) (key_at (store s) <$> ch)
       end) s.
Proof.
  intros HI Hc. unfold SortByKey. mstep reflexivity. rewrite Hc.
  destruct ch as [|a ch]; [done|].
  destruct (Z.eqb_spec (Z.of_nat (List.length (a :: ch))) 0) as [H0|_];
    [simpl in H0; lia|].
  mstep reflexivity. destruct (inv_chain _ _ HI) as (_ & m & Hm & Hch).
  mstep (by apply get_forward_nxt).
  destruct (Z.ltb_spec (Z.of_nat (List.length (a :: ch))) 0) as [H0|_]; [lia|].
  mstep reflexivity. unfold walk_bound. mstep reflexivity.
  pose proof (Inv_length _ _ HI) as Hlen.
  mstep (apply (collect_keys_spec s (a :: ch)); [done|lia]).
  by destruct reverse.
Qed.

(** C7: with a [sort.Slice] that sorts, on a list built by calls whose
    head has a bottom forward slot, as every populated list has,
    SortByKey(false) returns the keys in the order of a full iteration
    from Iterator(), and SortByKey(true) returns them in the reverse
    order. *)
Theorem C7_SortByKey_matches_iteration sort_Slice s :
  sorts sort_Slice → built s → has_bottom_slot s →
  ∃ entries n,
    full_iteration s = Ret (entries, n) s ∧
    SortByKey sort_Slice false s = Ret (fst <$> entries) s ∧
    SortByKey sort_Slice true s = Ret (reverse (fst <$> entries)) s.
Proof.
  intros Hsort Hb Hslot. destruct (built_counted s Hb Hslot) as (ch & HI & Hc).
  destruct (iteration_facts s Hb Hslot) as (Hfull & Hkeys & Hs).
  unfold live_keys in *. rewrite (Inv_live _ _ HI) in *.
  eexists _, _. split; [exact Hfull|]. rewrite Hkeys.
  rewrite !(SortByKey_eq _ _ s ch HI Hc).
  destruct ch as [|a ch]; [done|].
  rewrite (sort_sorted_keys _ Hsort _ Hs), (sort_sorted_keys_reverse _ Hsort _ Hs).
  done.
Qed.

Lemma C7_SortByKey_matches_iteration_witness :
  SortByKey insertion_sort false ex_list = Ret [IInt 1; IInt 2; IInt 3] ex_list ∧
  SortByKey insertion_sort true ex_list = Ret [IInt 3; IInt 2; IInt 1] ex_list.
Proof.
  assert (has_bottom_slot ex_list) as Hslot by (by eexists).
  destruct (C7_SortByKey_matches_iteration insertion_sort ex_list
              insertion_sort_sorts ex_list_built Hslot)
    as (entries & n & Hfull & Hf & Ht).
  assert (entries = [(IInt 1, IString "a"); (IInt 2, IString "b");
                     (IInt 3, IString "c")]) as ->.
  { assert (full_iteration ex_list
            = Ret ([(IInt 1, IString "a"); (IInt 2, IString "b");
                    (IInt 3, IString "c")], 3) ex_list) as E by reflexivity.
    rewrite E in Hfull. by injection Hfull as <- _. }
  split; [exact Hf|exact Ht].
Defined.

(** ** C8 *)

Lemma int_keys_sorted (ks : list iface) :
  StronglySorted key_lt ks → StronglySorted Z.lt (int_keys ks).
Proof.
  induction 1 as [|k ks _ IH Hk]; [constructor|]. unfold int_keys in *. simpl.
  destruct k as [|z|x|]; simpl; try done. constructor; [done|].
  apply Forall_forall. intros z' (k' & Hk' & Hz')%list_elem_of_omap.
  destruct k'; simplify_eq/=. rewrite Forall_forall in Hk.
  by apply key_lt_int, Hk.
Qed.


Lemma foldr_max_bound a l z :
  a ≤ z → Forall (λ y, y ≤ z) l → foldr Z.max a l ≤ z.
Proof. intros Ha. induction 1; simpl; lia. Qed.

Lemma foldr_max_elem a l y : y ∈ l → y ≤ foldr Z.max a l.
Proof.
  induction l as [|x l IH]; [by intros ?%elem_of_nil|].
  intros [->|Hy%IH]%elem_of_cons; simpl; lia.
Qed.


Lemma scan_MaxInt_sorted ks x :
  StronglySorted key_lt (ks ++ [x]) →
  scan_MaxInt (ks ++ [x]) = match x with IInt z => (z, true) | _ => (0, false) end.
Proof.
  intros Hs. unfold scan_MaxInt, int_keys. rewrite omap_app.
  destruct (int_of x) as [z|] eqn:Hx.
  - destruct x; simplify_eq/=.
    apply int_keys_sorted in Hs. unfold int_keys in Hs.
    rewrite omap_app in Hs. simpl in Hs.
    destruct (omap int_of ks) as [|z0 zs] eqn:E; simpl; [done|].
    f_equal. simpl in Hs. apply StronglySorted_cons in Hs as [H0 Hs].
    apply Z.le_antisymm.
    + apply foldr_max_bound.
      * rewrite Forall_forall in H0. assert (z ∈ zs ++ [z]) as Hin by set_solver.
        specialize (H0 z Hin). lia.
      * apply Forall_forall. intros y [Hy| ->%list_elem_of_singleton]%elem_of_app; [|lia].
        apply StronglySorted_app in Hs as (H12 & _ & _).
        assert (z ∈ [z]) as Hin by set_solver. specialize (H12 y z Hy Hin). lia.
    + apply foldr_max_elem. set_solver.
  - assert (omap int_of ks = []) as ->.
    { apply StronglySorted_app in Hs as (H12 & _ & _).
      destruct (omap int_of ks) as [|z zs] eqn:E; [done|].
      assert (z ∈ omap int_of ks) as (k & Hk & Hz)%list_elem_of_omap
        by (rewrite E; left).
      destruct k; simplify_eq/=.
      assert (x ∈ [x]) as Hin by set_solver. specialize (H12 (IInt z) x Hk Hin).
      destruct (key_lt_inv _ _ H12) as [(?&?&?&->&_)|(?&?&?&?&_)]; done. }
    simpl. rewrite Hx. by destruct x.
Qed.






Lemma last_of_app a l x : last_of a (l ++ [x]) = x.
Proof. revert a. induction l as [|b l IH]; intros a; simpl; [done|apply IH]. Qed.




(** *** MinInt and MaxInt on any well-linked list *)











Lemma last_snoc_keys (ks : list iface) : ks = [] ∨ ∃ ks' x, ks = ks' ++ [x].
Proof.
  destruct (last ks) as [x|] eqn:Hl.
  - apply last_Some in Hl as [ks' ->]. eauto.
  - apply last_None in Hl. by left.
Qed.

Lemma last_int_sorted ks :
  StronglySorted key_lt ks → last_int ks = scan_MaxInt ks.
Proof.
  intros Hs. destruct (last_snoc_keys ks) as [->|(ks' & x & ->)]; [done|].
  rewrite (scan_MaxInt_sorted _ _ Hs). unfold last_int. rewrite last_snoc.
  by destruct x.
Qed.






(** ** C9 *)

(** C9: MinString and MaxString take the empty string for "no key yet".
    Insert accepts the empty string as a key, yet on the list with the
    keys "" and "a" MinString returns ("a", true), which is not the least
    string key, and on the list with the key "" alone MinString and
    MaxString return no result although the list holds a string key. *)
Theorem C9_MinString_MaxString_drop_empty_key :
  Insert no_coin (IString "") (IInt 0) (NewSkipList TString)
    = Ret None ex_empty_string ∧
  Insert no_coin (IString "a") (IInt 1) ex_empty_string = Ret None ex_strings ∧
  live_keys ex_strings = [IString ""; IString "a"] ∧
  MinString ex_strings = Ret ("a"%string, true) ex_strings ∧
  live_keys ex_empty_string = [IString ""] ∧
  MinString ex_empty_string = Ret (""%string, false) ex_empty_string ∧
  MaxString ex_empty_string = Ret (""%string, false) ex_empty_string.
Proof. repeat split; reflexivity. Qed.

(** * Further properties of the package *)

(** ** randomLevel *)

Lemma randomLevel_loop_leading rnd n : ∀ i lvl,
  1 ≤ lvl ≤ 32 → (Z.to_nat (32 - lvl) < n)%nat →
  randomLevel_loop n rnd i lvl
  = Some (lvl + Z.of_nat (leading rnd i (Z.to_nat (32 - lvl)))).
Proof.
  induction n as [|n IH]; intros i lvl Hlvl Hn; [lia|]. simpl.
  destruct (Z.ltb_spec lvl 32) as [Hlt|Hge].
  - destruct (Z.to_nat (32 - lvl)) as [|m] eqn:Hm; [lia|]. simpl.
    destruct (rnd i); simpl; [|f_equal; lia].
    rewrite int_wrap_small by lia. rewrite IH by lia.
    replace (Z.to_nat (32 - (lvl + 1))) with m by lia. f_equal. lia.
  - replace (Z.to_nat (32 - lvl)) with 0%nat by lia. simpl.
    rewrite andb_false_r. f_equal. lia.
Qed.

(** The sampled height is one more than the number of tests
    [rand.Float64() < 0.5] that succeed in a row, capped at 32; the call
    always returns and changes nothing. *)
Theorem randomLevel_geometric rnd s :
  randomLevel rnd s = Ret (1 + Z.of_nat (leading rnd 0 31)) s ∧
  1 ≤ 1 + Z.of_nat (leading rnd 0 31) ≤ 32.
Proof.
  split.
  - unfold randomLevel. by rewrite (randomLevel_loop_leading rnd 32 0%nat 1) by (simpl; lia).
  - assert (∀ n i, (leading rnd i n ≤ n)%nat) as H.
    { induction n as [|n IH]; intros i; simpl; [lia|].
      destruct (rnd i); [specialize (IH (S i))|]; lia. }
    specialize (H 31%nat 0%nat). lia.
Qed.

(** ** The comparators *)

(** The comparator returns -1, 0 or 1, changes sign when its arguments are
    swapped, returns 0 on equal keys, and its "less than" is transitive. *)
Theorem compare_is_an_order a b c :
  (compare a b = -1 ∨ compare a b = 0 ∨ compare a b = 1) ∧
  compare b a = - compare a b ∧
  compare a a = 0 ∧
  (compare a b < 0 → compare b c < 0 → compare a c < 0).
Proof.
  split; [|split; [|split]].
  - destruct a as [|x|x|], b as [|y|y|]; simpl; try tauto.
    + destruct (x <? y); [tauto|]. destruct (x >? y); tauto.
    + unfold strings_Compare. destruct (String.compare x y); tauto.
  - destruct a as [|x|x|], b as [|y|y|]; simpl; try done.
    + destruct (Z.ltb_spec x y), (Z.ltb_spec y x), (Z.gtb_spec x y), (Z.gtb_spec y x); lia.
    + unfold strings_Compare. rewrite (String.compare_antisym y x).
      by destruct (String.compare x y).
  - apply compare_refl.
  - intros Hab Hbc. exact (key_lt_trans a b c Hab Hbc).
Qed.

(** The order used by SortByKey and SortByValue is the "less than" of the
    comparator of the list, and the two unused comparators compareInt and
    compareString agree with it on keys of their type. *)
Theorem comparators_agree a b :
  (compareKeysOrValues a b = true ↔ compare a b < 0) ∧
  (dyn_type a = Some TInt → compare a b = compareInt a b) ∧
  (dyn_type a = Some TString → compare a b = compareString a b).
Proof.
  split; [apply compareKeysOrValues_lt|].
  split; intros Ha; by destruct a.
Qed.

Lemma comparators_agree_witness :
  compare (IString "ab") (IString "b") = compareString (IString "ab") (IString "b").
Proof.
  destruct (comparators_agree (IString "ab") (IString "b")) as (_ & _ & H).
  exact (H eq_refl).
Defined.

(** ** Outcomes of the calls on the lists a program can hold *)

Lemma Search_live s ch a :
  Inv s ch → a ∈ ch →
  Search (key_at (store s) a) s = Ret (value_at (store s) a, None) s.
Proof.
  intros HI Ha. rewrite (Search_eq s ch) by eauto using Inv_key_nonnil.
  by rewrite (Inv_live _ _ HI), (hit_node_key s ch a HI Ha).
Qed.

(** No call ever raises the level: every list a program can hold has
    level 1.  Its head has a bottom forward slot, unless Clear ran while
    DefaultMaxLevel was 0 and left a head with no slot at all; that list
    is empty. *)
Theorem level_stays_one s :
  reachable s →
  level s = 1 ∧
  (has_bottom_slot s ∨ (Slotless s ∧ live s = [] ∧ Length s = 0)).
Proof.
  intros [[ch HI]|HS]%reachable_cases.
  - split; [apply HI|left]. by eapply Inv_has_bottom_slot.
  - split; [apply HS|right]. split; [done|].
    split; [by apply Slotless_live|apply HS].
Qed.

Lemma level_stays_one_witness : level ex_list = 1.
Proof. exact (proj1 (level_stays_one ex_list ex_list_reachable)). Defined.

(** Insert panics exactly when the key is not nil and either the head has
    a bottom slot, no live key compares equal and the sampled height is
    above 1, or the head has no bottom slot; the panic is an index out of
    range and leaves the list as it was; and Insert never runs forever. *)
Theorem Insert_outcomes s rnd k v :
  reachable s →
  (Insert rnd k v s = Panic IndexOutOfRange s ↔
     is_nil k = false ∧
     ((has_bottom_slot s ∧
       (∀ b, b ∈ live s → compare (key_at (store s) b) k ≠ 0) ∧
       rnd 0%nat = true) ∨
      ¬ has_bottom_slot s)) ∧
  (∀ p s', Insert rnd k v s = Panic p s' → p = IndexOutOfRange ∧ s' = s) ∧
  Insert rnd k v s ≠ Diverge.
Proof.
  intros Hr. destruct (is_nil k) eqn:Hk.
  { destruct k; try done. change (Insert rnd INil v s) with (Ret NilKey s).
    split; [split; [done|by intros [? _]]|]. split; done. }
  destruct (reachable_cases s Hr) as [[ch HI]|HS].
  2:{ rewrite (Insert_slotless s rnd k v HS Hk).
      split; [|split; [by intros ?? [= <- <-]|done]].
      split; [intros _|done]. split; [done|right]. by apply Slotless_no_slot. }
  pose proof (Inv_has_bottom_slot s ch HI) as Hslot.
  rewrite (Insert_eq s ch) by done. rewrite (Inv_live _ _ HI).
  pose proof (hit_node_None_iff s ch k HI) as Hnone.
  destruct (hit_node (store s) k ch) as [b|].
  - split; [split; [done|]|split; done].
    intros (_ & [(_ & Hall & _)|?]); [by apply Hnone in Hall|done].
  - destruct (rnd 0%nat).
    + split; [split; [intros _|done]|split; [by intros ?? [= <- <-]|done]].
      split; [done|left]. split; [done|]. split; [by apply Hnone|done].
    + split; [split; [done|]|split; done].
      by intros (_ & [(_ & _ & ?)|?]).
Qed.

Lemma Insert_outcomes_witness :
  Insert one_coin (IInt 7) INil ex_list = Panic IndexOutOfRange ex_list.
Proof.
  destruct (Insert_outcomes ex_list one_coin (IInt 7) INil ex_list_reachable)
    as ([_ H] & _).
  apply H. split; [done|left]. split; [by eexists|]. split; [|done].
  assert (live ex_list = [2; 3; 1]%nat) as -> by reflexivity.
  intros b Hb.
  repeat (apply elem_of_cons in Hb as [->|Hb]; [by vm_compute|]).
  by apply elem_of_nil in Hb.
Defined.

(** On a list a program can hold whose head has a bottom slot, Search and
    Delete return: they neither panic nor run forever.  On the list Clear
    leaves when DefaultMaxLevel is 0, Search and Delete of a key that is
    not nil panic with an index out of range and change nothing.  Clear
    returns whenever DefaultMaxLevel is a length [make] accepts; with a
    value that is negative or beyond the greatest length it panics in
    [make] and leaves the list as it was. *)
Theorem Search_Delete_Clear_return s k :
  reachable s →
  (has_bottom_slot s →
     (∃ r, Search k s = Ret r s) ∧ (∃ e s', Delete k s = Ret e s')) ∧
  (¬ has_bottom_slot s → is_nil k = false →
     Search k s = Panic IndexOutOfRange s ∧
     Delete k s = Panic IndexOutOfRange s) ∧
  (∀ maxLevel, 0 ≤ maxLevel ≤ max_slice_len →
     ∃ s', Clear maxLevel s = Ret tt s') ∧
  (∀ maxLevel, maxLevel < 0 ∨ max_slice_len < maxLevel →
     Clear maxLevel s = Panic MakeSliceLen s).
Proof.
  intros Hr.
  assert (is_Some (store s !! head s)) as [n Hn].
  { destruct (reachable_cases s Hr) as [[ch HI]|HS];
      [eapply Inv_valid; [done|left]|by apply Slotless_head]. }
  split; [|split; [|split]].
  - intros Hslot. destruct (reachable_Inv_slot s Hr Hslot) as [ch HI]. split.
    + destruct (is_nil k) eqn:Hk; [destruct k; try done; by eexists|].
      rewrite (Search_eq s ch) by done.
      destruct (hit_node (store s) k (live s)); by eexists.
    + destruct (is_nil k) eqn:Hk; [destruct k; try done; by eexists _, _|].
      rewrite (Delete_eq s ch) by done.
      destruct (hit_node (store s) k (live s)); by eexists _, _.
  - intros Hno Hk. destruct (reachable_cases s Hr) as [[ch HI]|HS].
    + destruct Hno. by apply (Inv_has_bottom_slot s ch).
    + split; [by apply Search_slotless|by apply Delete_slotless].
  - intros ml Hml. eexists. by apply (Clear_spec s n).
  - intros ml Hml. by apply (Clear_out_of_range s n).
Qed.

Lemma Search_Delete_Clear_return_witness :
  ∃ r, Search (IString "q") ex_list = Ret r ex_list.
Proof.
  destruct (Search_Delete_Clear_return ex_list (IString "q") ex_list_reachable)
    as (H & _).
  apply H. by eexists.
Defined.

(** ** Lookups *)

(** Search of the key of a live node returns the value of that node. *)
Theorem Search_finds_live_keys s a :
  reachable s → a ∈ live s →
  Search (key_at (store s) a) s = Ret (value_at (store s) a, None) s.
Proof.
  intros Hr Ha. destruct (reachable_Inv_live s a Hr Ha) as [ch HI].
  rewrite (Inv_live _ _ HI) in Ha. by apply (Search_live s ch).
Qed.

Lemma Search_finds_live_keys_witness :
  Search (IInt 3) ex_list = Ret (IString "c", None) ex_list.
Proof.
  apply (Search_finds_live_keys ex_list 1%nat ex_list_reachable).
  assert (live ex_list = [2; 3; 1]%nat) as -> by reflexivity.
  right; right; left.
Defined.

Lemma Insert_ret_cases s ch rnd k v s1 :
  Inv s ch → Insert rnd k v s = Ret None s1 →
  is_nil k = false ∧
  ((∃ b, hit_node (store s) k ch = Some b ∧ b ∈ ch ∧ s1 = upsert_state b v s) ∨
   (hit_node (store s) k ch = None ∧ rnd 0%nat = false ∧ s1 = insert_state k v s)).
Proof.
  intros HI Hins. destruct (is_nil k) eqn:Hk; [by destruct k|]. split; [done|].
  rewrite (Insert_eq s ch), (Inv_live _ _ HI) in Hins by done.
  destruct (hit_node (store s) k ch) as [b|] eqn:Hhit.
  - injection Hins as <-. left. exists b. eauto using hit_node_elem.
  - destruct (rnd 0%nat); [done|]. injection Hins as <-. by right.
Qed.

Lemma insert_state_facts s ch k v :
  Inv s ch → is_nil k = false → hit_node (store s) k ch = None →
  let n0 := List.length (store s) in
  let s1 := insert_state k v s in
  Inv s1 (pre_of (store s) k ch ++ n0 :: post_of (store s) k ch) ∧
  key_at (store s1) n0 = k ∧ value_at (store s1) n0 = v ∧
  (∀ a, a ∈ ch → key_at (store s1) a = key_at (store s) a ∧
                 value_at (store s1) a = value_at (store s) a) ∧
  length s1 = int_wrap (length s + 1).
Proof.
  intros HI Hk Hhit n0 s1. rewrite <-(Inv_live _ _ HI) in Hhit.
  split; [by apply Inv_insert_state|]. unfold s1, insert_state. sl_simpl.
  split; [apply insert_store_key_new|]. split; [apply insert_store_value_new|].
  split; [|done]. intros a Ha.
  assert (is_Some (store s !! a)) by (eapply Inv_valid; [done|by right]).
  split; [by apply insert_store_key_old|by apply insert_store_value_old].
Qed.

(** An Insert that returned nil is seen by Search: the key is found with
    the value just given. *)
Theorem Insert_then_Search s rnd k v s1 :
  reachable s → Insert rnd k v s = Ret None s1 →
  Search k s1 = Ret (v, None) s1.
Proof.
  intros Hr Hins. destruct (reachable_Inv_Insert _ _ _ _ _ Hr Hins) as [ch HI].
  destruct (Insert_ret_cases s ch rnd k v s1 HI Hins)
    as (Hk & [(b & Hhit & Hb & ->)|(Hhit & _ & ->)]).
  - rewrite <-(Inv_live _ _ HI) in Hhit.
    by destruct (upsert_then_search s ch k b rnd v HI Hk Hhit).
  - destruct (insert_state_facts s ch k v HI Hk Hhit) as (HI1 & _ & Hv & _).
    rewrite <-(Inv_live _ _ HI) in Hhit.
    rewrite (Search_eq _ _ _ HI1 Hk), (insert_state_hit s ch k v HI Hk Hhit).
    by rewrite Hv.
Qed.

Lemma Insert_then_Search_witness :
  Search (IInt 2) ex_list = Ret (IString "b", None) ex_list.
Proof.
  apply (Insert_then_Search ex_list2 no_coin (IInt 2) (IString "b") ex_list).
  - unfold ex_list2, ex_list1. repeat apply reachable_Insert. apply reach_new.
  - reflexivity.
Defined.

(** An Insert that returned nil leaves the other keys alone: every key
    that was live and does not compare equal to the inserted key is still
    found, with the value it had. *)
Theorem Insert_keeps_other_keys s rnd k v s1 a :
  reachable s → Insert rnd k v s = Ret None s1 →
  a ∈ live s → compare (key_at (store s) a) k ≠ 0 →
  Search (key_at (store s) a) s1 = Ret (value_at (store s) a, None) s1.
Proof.
  intros Hr Hins Ha Hcmp. destruct (reachable_Inv_live s a Hr Ha) as [ch HI].
  rewrite (Inv_live _ _ HI) in Ha.
  destruct (Insert_ret_cases s ch rnd k v s1 HI Hins)
    as (Hk & [(b & Hhit & Hb & ->)|(Hhit & _ & ->)]).
  - assert (a ≠ b) as Hne.
    { intros ->. by apply hit_node_Some in Hhit as (_ & _ & ?). }
    pose proof (Inv_upsert s ch b v HI) as HI1.
    destruct (upsert_state_facts s ch b v HI Hb) as (_ & _ & _ & _ & _ & Hv).
    rewrite <-(Hv a Hne), <-(key_at_revalue b v (store s) a).
    by apply (Search_live (upsert_state b v s) ch).
  - destruct (insert_state_facts s ch k v HI Hk Hhit) as (HI1 & _ & _ & Hold & _).
    destruct (Hold a Ha) as [<- <-]. apply (Search_live _ _ a HI1).
    rewrite <-(pre_post_of (store s) k ch) in Ha. set_solver.
Qed.

Lemma Insert_keeps_other_keys_witness :
  Search (IInt 3) ex_list = Ret (IString "c", None) ex_list.
Proof.
  apply (Insert_keeps_other_keys ex_list2 no_coin (IInt 2) (IString "b") ex_list 1%nat).
  - unfold ex_list2, ex_list1. repeat apply reachable_Insert. apply reach_new.
  - reflexivity.
  - assert (live ex_list2 = [2; 1]%nat) as -> by reflexivity. right; left.
  - by vm_compute.
Defined.

(** ** The count *)

(** On a list built with at most [max_int] calls, Length() is the number
    of nodes on the bottom chain. *)
Theorem Length_counts_live_nodes s :
  built s →
  Length s = Z.of_nat (List.length (live s)) ∧ 0 ≤ Length s ≤ max_int.
Proof.
  intros Hb. destruct (built_cases s Hb) as [(ch & HI & Hc)|HS].
  - destruct (built_length_range s ch Hb HI) as [Hlen Hmax].
    rewrite (Inv_live _ _ HI). unfold Length. lia.
  - rewrite (Slotless_live s HS). destruct HS as (_ & Hlen & _).
    unfold Length, max_int. rewrite Hlen. simpl. lia.
Qed.

Lemma Length_counts_live_nodes_witness :
  Length ex_list = Z.of_nat (List.length (live ex_list)).
Proof. exact (proj1 (Length_counts_live_nodes ex_list ex_list_built)). Defined.

(** ** Insert of a new key *)

(** On a list whose head has a bottom slot, Insert of a non-nil key that
    compares equal to no live key, with a sampled height of 1, returns
    nil, allocates one node, and puts the entry at its place in the order:
    the entries before it have smaller keys, those after it greater keys,
    and all are as they were; Length() grows by 1. *)
Theorem Insert_new_key s rnd k v :
  built s → has_bottom_slot s → Length s < max_int → is_nil k = false →
  (∀ b, b ∈ live s → compare (key_at (store s) b) k ≠ 0) →
  rnd 0%nat = false →
  ∃ E1 E2,
    Insert rnd k v s = Ret None (insert_state k v s) ∧
    entry_at (store s) <$> live s = E1 ++ E2 ∧
    entry_at (store (insert_state k v s)) <$> live (insert_state k v s)
      = E1 ++ (k, v) :: E2 ∧
    Forall (λ e, key_lt e.1 k) E1 ∧ Forall (λ e, key_lt k e.1) E2 ∧
    Length (insert_state k v s) = Length s + 1 ∧
    List.length (store (insert_state k v s)) = S (List.length (store s)).
Proof.
  intros Hb Hslot Hmax Hk Hall Hrnd.
  destruct (built_counted s Hb Hslot) as (ch & HI & Hc).
  rewrite (Inv_live _ _ HI) in *.
  assert (Hhit : hit_node (store s) k ch = None) by by apply hit_node_None_iff.
  destruct (insert_state_facts s ch k v HI Hk Hhit) as (HI1 & Hkn & Hvn & Hold & HL).
  rewrite (Inv_live _ _ HI1).
  set (pre := pre_of (store s) k ch) in *. set (post := post_of (store s) k ch) in *.
  assert (Hpp : pre ++ post = ch) by apply pre_post_of.
  assert (Hent : ∀ l : list addr, (∀ a, a ∈ l → a ∈ ch) →
            entry_at (store (insert_state k v s)) <$> l = entry_at (store s) <$> l).
  { intros l Hl. apply fmap_ext_elem. intros a Ha. unfold entry_at.
    by destruct (Hold a (Hl a Ha)) as [-> ->]. }
  exists (entry_at (store s) <$> pre), (entry_at (store s) <$> post).
  split; [by rewrite (Insert_eq s ch), (Inv_live _ _ HI), Hhit, Hrnd|].
  split; [by rewrite <-fmap_app, Hpp|]. split.
  { rewrite fmap_app, fmap_cons. unfold entry_at at 2. rewrite Hkn, Hvn.
    rewrite !Hent; [done| |]; intros a Ha; rewrite <-Hpp; set_solver. }
  split; [|split; [|split]].
  - apply Forall_forall. intros e (a & -> & Ha)%list_elem_of_fmap. simpl.
    pose proof (pre_of_lt (store s) k ch) as Hlt. rewrite Forall_forall in Hlt.
    by apply Hlt.
  - pose proof (inv_sorted _ _ HI1) as Hs. rewrite fmap_app, fmap_cons in Hs.
    apply StronglySorted_app_1_r, StronglySorted_cons in Hs as [Hs _].
    rewrite Hkn in Hs. rewrite Forall_forall in Hs.
    apply Forall_forall. intros e (a & -> & Ha)%list_elem_of_fmap. simpl.
    destruct (Hold a) as [<- _]; [rewrite <-Hpp; set_solver|].
    apply Hs, list_elem_of_fmap. eauto.
  - unfold Length. rewrite HL. apply int_wrap_small.
    unfold Length, Counted, max_int in *. lia.
  - unfold insert_state. sl_simpl. apply insert_store_length.
Qed.

Lemma Insert_new_key_witness :
  ∃ E1 E2,
    entry_at (store ex_list2) <$> live ex_list2 = E1 ++ E2 ∧
    entry_at (store ex_list) <$> live ex_list = E1 ++ (IInt 2, IString "b") :: E2.
Proof.
  assert (built ex_list2) as Hb.
  { exists 2%nat. split; [|done].
    apply (reach_in_step 1 ex_list1);
      [apply (reach_in_step 0 (NewSkipList TInt)); [apply reach_in_new|]|].
    - by apply (step_Insert_ret no_coin (IInt 3) (IString "c") _ None).
    - by apply (step_Insert_ret no_coin (IInt 1) (IString "a") _ None). }
  destruct (Insert_new_key ex_list2 no_coin (IInt 2) (IString "b") Hb)
    as (E1 & E2 & _ & H1 & H2 & _); try done.
  - by eexists.
  - assert (live ex_list2 = [2; 1]%nat) as -> by reflexivity.
    intros b Hbb.
    repeat (apply elem_of_cons in Hbb as [->|Hbb]; [by vm_compute|]).
    by apply elem_of_nil in Hbb.
  - exists E1, E2. split; [exact H1|exact H2].
Defined.

(** ** Delete *)

(** A Delete of a live key leaves the other keys alone: it returns nil,
    and every other live key is still found, with the value it had. *)
Theorem Delete_keeps_other_keys s k a :
  reachable s → k ∈ live_keys s → a ∈ live s → key_at (store s) a ≠ k →
  Delete k s = Ret None (delete_state k s) ∧
  Search (key_at (store s) a) (delete_state k s)
    = Ret (value_at (store s) a, None) (delete_state k s).
Proof.
  intros Hr Hk Ha Hne. destruct (reachable_Inv_live s a Hr Ha) as [ch HI].
  unfold live_keys in Hk. rewrite (Inv_live _ _ HI) in *.
  apply list_elem_of_fmap in Hk as (b & -> & (l1 & l2 & ->)%list_elem_of_split).
  destruct (delete_state_facts s _ l1 b l2 HI eq_refl)
    as (HD & HI' & _ & Hkeys & Hvals & _).
  split; [done|].
  rewrite <-(Hkeys a), <-(Hvals a). apply (Search_live _ _ a HI').
  set_solver.
Qed.

Lemma Delete_keeps_other_keys_witness :
  Search (IInt 3) (delete_state (IInt 2) ex_list)
  = Ret (IString "c", None) (delete_state (IInt 2) ex_list).
Proof.
  apply (Delete_keeps_other_keys ex_list (IInt 2) 1%nat ex_list_reachable).
  - assert (live_keys ex_list = [IInt 1; IInt 2; IInt 3]) as -> by reflexivity.
    right; left.
  - assert (live ex_list = [2; 3; 1]%nat) as -> by reflexivity. right; right; left.
  - discriminate.
Defined.

(** Insert of a new key followed by Delete of that key gives back the
    list: the same live nodes with the same keys and values, and the same
    Length(). *)
Theorem Insert_then_Delete s rnd k v s1 :
  built s → Length s < max_int →
  (∀ b, b ∈ live s → compare (key_at (store s) b) k ≠ 0) →
  Insert rnd k v s = Ret None s1 →
  ∃ s2, Delete k s1 = Ret None s2 ∧
        live s2 = live s ∧
        entry_at (store s2) <$> live s2 = entry_at (store s) <$> live s ∧
        Length s2 = Length s.
Proof.
  intros Hb Hmax Hall Hins.
  destruct (built_cases s Hb) as [(ch & HI & Hc)|HS].
  2:{ destruct (is_nil k) eqn:Hk; [by destruct k|].
      by rewrite Insert_slotless in Hins. }
  rewrite (Inv_live _ _ HI) in *.
  destruct (Insert_ret_cases s ch rnd k v s1 HI Hins)
    as (Hk & [(b & Hhit & Hbch & _)|(Hhit & _ & ->)]).
  { apply hit_node_Some in Hhit as (_ & _ & Hcmp). by destruct (Hall b Hbch). }
  destruct (insert_state_facts s ch k v HI Hk Hhit) as (HI1 & Hkn & _ & Hold & HL).
  pose proof (delete_state_facts _ _ _ _ _ HI1 eq_refl) as HD.
  cbv zeta in HD. rewrite Hkn in HD.
  destruct HD as (HD & HI2 & _ & Hkeys & Hvals & HL2 & _).
  rewrite pre_post_of in HI2.
  exists (delete_state k (insert_state k v s)). rewrite (Inv_live _ _ HI2).
  split; [done|]. split; [done|]. split.
  - apply fmap_ext_elem. intros a Ha. unfold entry_at.
    rewrite Hkeys, Hvals. by destruct (Hold a Ha) as [-> ->].
  - unfold Length. rewrite HL2, HL.
    unfold Length, Counted, max_int in *.
    rewrite (int_wrap_small (length s + 1)) by lia.
    replace (length s + 1 - 1) with (length s) by lia. apply int_wrap_small. lia.
Qed.

Lemma Insert_then_Delete_witness :
  ∃ s2, Delete (IInt 2) ex_list = Ret None s2 ∧ live s2 = live ex_list2.
Proof.
  assert (built ex_list2) as Hb.
  { exists 2%nat. split; [|done].
    apply (reach_in_step 1 ex_list1);
      [apply (reach_in_step 0 (NewSkipList TInt)); [apply reach_in_new|]|].
    - by apply (step_Insert_ret no_coin (IInt 3) (IString "c") _ None).
    - by apply (step_Insert_ret no_coin (IInt 1) (IString "a") _ None). }
  destruct (Insert_then_Delete ex_list2 no_coin (IInt 2) (IString "b") ex_list Hb)
    as (s2 & H1 & H2 & _); try done.
  - assert (live ex_list2 = [2; 1]%nat) as -> by reflexivity.
    intros b Hbb.
    repeat (apply elem_of_cons in Hbb as [->|Hbb]; [by vm_compute|]).
    by apply elem_of_nil in Hbb.
  - exists s2. split; [exact H1|exact H2].
Defined.

(** ** Clear *)

(** What Clear leaves depends on the value DefaultMaxLevel holds when it
    is called.  With a positive value, 48 unless the program has assigned
    the variable, Clear returns and leaves an empty list: count 0, level
    1, a head with that many nil pointers, no node allocated or freed; a
    full iteration then visits nothing, and Search and Delete of any
    non-nil key return NotFound.  With the value 0 Clear returns and
    leaves count 0, level 1 and a head with no forward slot, on which the
    first Next() of an iteration and every Search, Delete and Insert of a
    non-nil key panic with an index out of range.  With a value that is
    negative or beyond the greatest length of a slice Clear panics in
    [make] and leaves the list as it was. *)
Theorem Clear_empties s maxLevel :
  reachable s →
  (0 < maxLevel ≤ max_slice_len →
   ∃ s' hd,
     Clear maxLevel s = Ret tt s' ∧
     Length s' = 0 ∧ level s' = 1 ∧ live s' = [] ∧
     store s' !! head s' = Some hd ∧
     forward hd = replicate (Z.to_nat maxLevel) None ∧
     List.length (store s') = List.length (store s) ∧
     full_iteration s' = Ret ([], 0) s' ∧
     (∀ k, is_nil k = false →
        Search k s' = Ret (INil, NotFound) s' ∧ Delete k s' = Ret NotFound s')) ∧
  (maxLevel = 0 →
   ∃ s' hd,
     Clear maxLevel s = Ret tt s' ∧
     Length s' = 0 ∧ level s' = 1 ∧ live s' = [] ∧
     store s' !! head s' = Some hd ∧ forward hd = [] ∧
     List.length (store s') = List.length (store s) ∧
     full_iteration s' = Panic IndexOutOfRange s' ∧
     (∀ k, is_nil k = false →
        Search k s' = Panic IndexOutOfRange s' ∧
        Delete k s' = Panic IndexOutOfRange s' ∧
        ∀ rnd v, Insert rnd k v s' = Panic IndexOutOfRange s')) ∧
  (maxLevel < 0 ∨ max_slice_len < maxLevel →
     Clear maxLevel s = Panic MakeSliceLen s).
Proof.
  intros Hr.
  assert (is_Some (store s !! head s)) as [n Hn].
  { destruct (reachable_cases s Hr) as [[ch HI]|HS];
      [eapply Inv_valid; [done|left]|by apply Slotless_head]. }
  split; [|split].
  - intros Hml.
    assert (0 ≤ maxLevel ≤ max_slice_len) as Hml' by lia.
    pose proof (Clear_spec s n maxLevel Hn Hml') as HC.
    assert (replicate (Z.to_nat maxLevel) (@None addr) !! 0%nat = Some None) as Hfw
      by (apply lookup_replicate; split; [done|lia]).
    pose proof (Inv_clear s n _ Hn Hfw) as HI'.
    eexists _, _. split; [exact HC|].
    split; [done|]. split; [done|]. split; [by rewrite (Inv_live _ _ HI')|].
    split.
    { sl_simpl. apply list_lookup_insert_eq. by eapply lookup_lt_Some. }
    split; [done|]. split; [sl_simpl; apply length_insert|]. split.
    + unfold full_iteration, Iterator, walk_bound.
      mstep (mstep reflexivity; reflexivity). mstep reflexivity.
      rewrite (iterate_spec _ []); [done|apply HI'|simpl; lia].
    + intros k Hk.
      rewrite (Search_eq _ _ _ HI' Hk), (Delete_eq _ _ _ HI' Hk).
      by rewrite (Inv_live _ _ HI').
  - intros ->.
    assert (0 ≤ 0 ≤ max_slice_len) as Hml' by done.
    pose proof (Clear_spec s n 0 Hn Hml') as HC.
    pose proof (Slotless_clear s n Hn) as HS.
    eexists _, _. split; [exact HC|].
    split; [done|]. split; [done|]. split; [by apply Slotless_live|].
    split.
    { sl_simpl. apply list_lookup_insert_eq. by eapply lookup_lt_Some. }
    split; [done|]. split; [sl_simpl; apply length_insert|].
    split; [by apply full_iteration_slotless|].
    intros k Hk. split; [by apply Search_slotless|].
    split; [by apply Delete_slotless|]. intros rnd v. by apply Insert_slotless.
  - by apply (Clear_out_of_range s n).
Qed.

Lemma Clear_empties_witness :
  ∃ s', Clear DefaultMaxLevel ex_list = Ret tt s' ∧ Length s' = 0 ∧ live s' = [].
Proof.
  destruct (Clear_empties ex_list DefaultMaxLevel ex_list_reachable) as (H & _).
  destruct H as (s' & hd & H1 & H2 & _ & H3 & _);
    [unfold DefaultMaxLevel, max_slice_len; lia|].
  exists s'. split; [exact H1|]. split; [exact H2|exact H3].
Defined.

(** ** MinString and MaxString *)

Lemma string_ltb_key_lt x y : String.ltb x y = true ↔ key_lt (IString x) (IString y).
Proof.
  rewrite key_lt_string. unfold String.ltb.
  destruct (String.compare x y); split; done.
Qed.

Lemma string_eqb_empty x : String.eqb x "" = true ↔ x = ""%string.
Proof. apply String.eqb_eq. Qed.

Lemma minString_loop_S fuel current minKey :
  minString_loop (S fuel) current minKey =
  match current with
  | None => ret minKey
  | Some _ =>
      let* k := get_key current in
      let* current := get_forward current 0 in
      minString_loop fuel current (min_step minKey k)
  end.
Proof. done. Qed.

Lemma maxString_loop_S fuel current maxKey :
  maxString_loop (S fuel) current maxKey =
  match current with
  | None => ret maxKey
  | Some _ =>
      let* k := get_key current in
      let* current := get_forward current 0 in
      maxString_loop fuel current (max_step maxKey k)
  end.
Proof. done. Qed.

Lemma minString_loop_spec s l : ∀ p acc fuel,
  lseg (store s) 0 p l None → (List.length l < fuel)%nat →
  minString_loop fuel p acc s
  = Ret (fold_left min_step (key_at (store s) <$> l) acc) s.
Proof.
  induction l as [|a l IH]; intros p acc fuel Hl Hfuel;
    (destruct fuel as [|fuel]; [simpl in Hfuel; lia|]); rewrite minString_loop_S.
  - simpl in Hl. by subst p.
  - destruct Hl as (-> & m & Hm & Hl).
    mstep (apply get_key_at; by eapply nxt_is_Some).
    mstep (by apply get_forward_nxt).
    assert (List.length l < fuel)%nat as Hfuel' by (simpl in Hfuel; lia).
    by rewrite (IH m _ fuel Hl Hfuel').
Qed.

Lemma maxString_loop_spec s l : ∀ p acc fuel,
  lseg (store s) 0 p l None → (List.length l < fuel)%nat →
  maxString_loop fuel p acc s
  = Ret (fold_left max_step (key_at (store s) <$> l) acc) s.
Proof.
  induction l as [|a l IH]; intros p acc fuel Hl Hfuel;
    (destruct fuel as [|fuel]; [simpl in Hfuel; lia|]); rewrite maxString_loop_S.
  - simpl in Hl. by subst p.
  - destruct Hl as (-> & m & Hm & Hl).
    mstep (apply get_key_at; by eapply nxt_is_Some).
    mstep (by apply get_forward_nxt).
    assert (List.length l < fuel)%nat as Hfuel' by (simpl in Hfuel; lia).
    by rewrite (IH m _ fuel Hl Hfuel').
Qed.

Lemma fold_min_keep acc ks :
  acc ≠ ""%string → Forall (λ k, ¬ key_lt k (IString acc)) ks →
  fold_left min_step ks acc = acc.
Proof.
  intros Hacc. induction 1 as [|k ks Hk _ IH]; simpl; [done|].
  assert (min_step acc k = acc) as ->; [|done].
  destruct k as [|z|x|]; simpl; try done.
  destruct (String.eqb_spec acc ""); [done|]. simpl.
  destruct (String.ltb x acc) eqn:E; [|done].
  by apply string_ltb_key_lt in E.
Qed.

Lemma fold_min_sorted ks :
  StronglySorted key_lt ks → fold_left min_step ks ""%string = first_nonempty ks.
Proof.
  induction 1 as [|k ks _ IH Hk]; simpl; [done|].
  destruct k as [|z|x|]; simpl; try done.
  destruct (String.eqb_spec x ""); [by subst x|].
  apply fold_min_keep; [done|]. eapply Forall_impl; [exact Hk|].
  intros k' H1 H2. by apply (key_lt_asym _ _ H1).
Qed.

Lemma first_nonempty_least ks :
  StronglySorted key_lt ks →
  (first_nonempty ks ≠ ""%string →
     IString (first_nonempty ks) ∈ ks ∧
     ∀ y, IString y ∈ ks → y ≠ ""%string →
          String.compare (first_nonempty ks) y ≠ Gt) ∧
  (first_nonempty ks = ""%string → ∀ y, IString y ∈ ks → y = ""%string).
Proof.
  induction 1 as [|k ks _ [IH1 IH2] Hk]; simpl.
  { split; [done|]. by intros _ y ?%elem_of_nil. }
  rewrite Forall_forall in Hk.
  destruct k as [|z|x|]; simpl;
    try (split; [intros [? ?]%IH1; split; [by right|];
                 intros y [?|?]%elem_of_cons; [done|eauto]
                |intros ? y [?|?]%elem_of_cons; [done|eauto]]).
  destruct (String.eqb_spec x "") as [->|Hx].
  - split.
    + intros [? Hl]%IH1. split; [by right|].
      intros y [[= ->]|?]%elem_of_cons; [done|eauto].
    + intros ? y [[= ->]|?]%elem_of_cons; [done|eauto].
  - split; [|done]. intros _. split; [left|].
    intros y [[= ->]|Hy]%elem_of_cons _.
    + by rewrite string_compare_refl.
    + apply Hk, key_lt_string in Hy. by rewrite Hy.
Qed.

Lemma fold_max_sorted ks : ∀ acc,
  StronglySorted key_lt ks →
  acc = ""%string ∨ Forall (key_lt (IString acc)) ks →
  fold_left max_step ks acc = last_string acc ks.
Proof.
  induction ks as [|k ks IH]; intros acc Hs Hacc; simpl; [done|].
  apply StronglySorted_cons in Hs as [Hk Hs].
  destruct k as [|z|x|]; simpl;
    try (apply IH; [done|]; destruct Hacc as [?|[_ ?]%Forall_cons]; by eauto).
  assert (String.eqb acc "" || String.ltb acc x = true) as ->.
  { destruct Hacc as [->|[Hx _]%Forall_cons]; [done|].
    apply string_ltb_key_lt in Hx. rewrite Hx. apply orb_true_r. }
  apply IH; [done|by right].
Qed.

Lemma last_string_in acc ks :
  last_string acc ks = acc ∨ IString (last_string acc ks) ∈ ks.
Proof.
  revert acc. induction ks as [|k ks IH]; intros acc; simpl; [by left|].
  destruct k as [|z|x|]; try (destruct (IH acc); [by left|right; by right]).
  right. destruct (IH x) as [->|?]; [left|by right].
Qed.

Lemma last_string_greatest ks : ∀ acc y,
  StronglySorted key_lt ks → IString y ∈ ks →
  IString (last_string acc ks) ∈ ks ∧ String.compare y (last_string acc ks) ≠ Gt.
Proof.
  induction ks as [|k ks IH]; intros acc y Hs Hy; [by apply elem_of_nil in Hy|].
  apply StronglySorted_cons in Hs as [Hk Hs]. rewrite Forall_forall in Hk.
  destruct k as [|z|x|]; simpl;
    try (apply elem_of_cons in Hy as [?|Hy]; [done|];
         destruct (IH acc y Hs Hy); split; [by right|done]).
  apply elem_of_cons in Hy as [[= ->]|Hy].
  - destruct (last_string_in x ks) as [->|Hin].
    + split; [left|by rewrite string_compare_refl].
    + split; [by right|]. apply Hk, key_lt_string in Hin. by rewrite Hin.
  - destruct (IH x y Hs Hy). split; [by right|done].
Qed.

Lemma string_scan_start s ch :
  Inv s ch → Counted s ch → ch ≠ [] →
  ∃ m, (length s =? 0) = false ∧ nxt (store s) 0 (head s) = Some m ∧
       lseg (store s) 0 m ch None ∧
       (List.length ch < S (List.length (store s)))%nat.
Proof.
  intros HI Hc Hne. destruct (inv_chain _ _ HI) as (_ & m & Hm & Hch).
  pose proof (Inv_length _ _ HI). exists m. split; [|split; [done|split; [done|lia]]].
  apply Z.eqb_neq. rewrite Hc. destruct ch; [done|simpl; lia].
Qed.

(** On a list built by calls, MinString returns the least string key that
    is not the empty string, and no result when no live key is a non-empty
    string. *)
Theorem MinString_least_nonempty s :
  built s →
  MinString s =
    Ret (if String.eqb (first_nonempty (live_keys s)) ""
         then (""%string, false)
         else (first_nonempty (live_keys s), true)) s ∧
  (first_nonempty (live_keys s) ≠ ""%string →
     IString (first_nonempty (live_keys s)) ∈ live_keys s ∧
     ∀ y, IString y ∈ live_keys s → y ≠ ""%string →
          String.compare (first_nonempty (live_keys s)) y ≠ Gt) ∧
  (first_nonempty (live_keys s) = ""%string →
     ∀ y, IString y ∈ live_keys s → y = ""%string).
Proof.
  intros Hb. destruct (built_cases s Hb) as [(ch & HI & Hc)|HS].
  2:{ unfold live_keys. rewrite (Slotless_live s HS). destruct HS as (_ & Hlen & _).
      split; [unfold MinString; mstep reflexivity; by rewrite Hlen|].
      split; [done|]. by intros _ y ?%elem_of_nil. }
  unfold live_keys. rewrite (Inv_live _ _ HI).
  split; [|apply first_nonempty_least, HI].
  destruct (decide (ch = [])) as [->|Hne].
  { unfold MinString. mstep reflexivity. by rewrite Hc. }
  destruct (string_scan_start s ch HI Hc Hne) as (m & H0 & Hm & Hch & Hlen).
  unfold MinString. mstep reflexivity. rewrite H0. mstep reflexivity.
  mstep (by apply get_forward_nxt). unfold walk_bound. mstep reflexivity.
  mstep (by apply minString_loop_spec).
  rewrite (fold_min_sorted _ (inv_sorted _ _ HI)).
  by destruct (String.eqb _ "").
Qed.

Lemma MinString_least_nonempty_witness :
  MinString ex_strings = Ret ("a"%string, true) ex_strings.
Proof.
  assert (built ex_strings) as Hb.
  { exists 2%nat. split; [|done].
    apply (reach_in_step 1 ex_empty_string);
      [apply (reach_in_step 0 (NewSkipList TString)); [apply reach_in_new|]|].
    - by apply (step_Insert_ret no_coin (IString "") (IInt 0) _ None).
    - by apply (step_Insert_ret no_coin (IString "a") (IInt 1) _ None). }
  exact (proj1 (MinString_least_nonempty ex_strings Hb)).
Defined.

(** On a list built by calls, MaxString returns the greatest string key,
    unless that key is the empty string or there is no string key, when it
    returns no result. *)
Theorem MaxString_greatest s :
  built s →
  MaxString s =
    Ret (if String.eqb (last_string "" (live_keys s)) ""
         then (""%string, false)
         else (last_string "" (live_keys s), true)) s ∧
  (∀ y, IString y ∈ live_keys s →
     IString (last_string "" (live_keys s)) ∈ live_keys s ∧
     String.compare y (last_string "" (live_keys s)) ≠ Gt).
Proof.
  intros Hb. destruct (built_cases s Hb) as [(ch & HI & Hc)|HS].
  2:{ unfold live_keys. rewrite (Slotless_live s HS). destruct HS as (_ & Hlen & _).
      split; [unfold MaxString; mstep reflexivity; by rewrite Hlen|].
      by intros y ?%elem_of_nil. }
  unfold live_keys. rewrite (Inv_live _ _ HI).
  split; [|intros y; apply last_string_greatest, HI].
  destruct (decide (ch = [])) as [->|Hne].
  { unfold MaxString. mstep reflexivity. by rewrite Hc. }
  destruct (string_scan_start s ch HI Hc Hne) as (m & H0 & Hm & Hch & Hlen).
  unfold MaxString. mstep reflexivity. rewrite H0. mstep reflexivity.
  mstep (by apply get_forward_nxt). unfold walk_bound. mstep reflexivity.
  mstep (by apply maxString_loop_spec).
  rewrite (fold_max_sorted _ _ (inv_sorted _ _ HI)) by by left.
  by destruct (String.eqb _ "").
Qed.

Lemma MaxString_greatest_witness :
  MaxString ex_strings = Ret ("a"%string, true) ex_strings.
Proof.
  assert (built ex_strings) as Hb.
  { exists 2%nat. split; [|done].
    apply (reach_in_step 1 ex_empty_string);
      [apply (reach_in_step 0 (NewSkipList TString)); [apply reach_in_new|]|].
    - by apply (step_Insert_ret no_coin (IString "") (IInt 0) _ None).
    - by apply (step_Insert_ret no_coin (IString "a") (IInt 1) _ None). }
  exact (proj1 (MaxString_greatest ex_strings Hb)).
Defined.

(** ** SortByValue *)

Lemma collect_values_S fuel current result :
  collect_values (S fuel) current result =
  match current with
  | None => ret result
  | Some _ =>
      let* v := get_value current in
      let* current := get_forward current 0 in
      collect_values fuel current (result ++ [v])
  end.
Proof. done. Qed.

Lemma collect_values_spec s l : ∀ p result fuel,
  lseg (store s) 0 p l None → (List.length l < fuel)%nat →
  collect_values fuel p result s = Ret (result ++ (value_at (store s) <$> l)) s.
Proof.
  induction l as [|a l IH]; intros p result fuel Hl Hfuel;
    (destruct fuel as [|fuel]; [simpl in Hfuel; lia|]); rewrite collect_values_S.
  - simpl in Hl. subst p. by rewrite app_nil_r.
  - destruct Hl as (-> & m & Hm & Hl).
    mstep (apply get_value_at; by eapply nxt_is_Some).
    mstep (by apply get_forward_nxt).
    assert (List.length l < fuel)%nat as Hfuel' by (simpl in Hfuel; lia).
    rewrite (IH m _ fuel Hl Hfuel'). by rewrite <-app_assoc.
Qed.

(** With a [sort.Slice] that permutes its slice, SortByValue returns, for
    either direction, a rearrangement of the values of the live nodes (the
    empty list on an empty list) and leaves the list as it is; when the
    order [compareKeysOrValues] is a strict total order on these values,
    no returned value is before an earlier one in the direction asked
    for. *)
Theorem SortByValue_rearranges_values sort_Slice reverse s :
  sorts sort_Slice → built s →
  ∃ vs,
    SortByValue sort_Slice reverse s = Ret vs s ∧
    vs ≡ₚ value_at (store s) <$> live s ∧
    (strict_total_on (λ x y, compareKeysOrValues x y)
       (value_at (store s) <$> live s) →
     StronglySorted
       (λ a b, (if reverse then compareKeysOrValues a b
                else compareKeysOrValues b a) = false) vs).
Proof.
  intros Hsort Hb. destruct (built_cases s Hb) as [(ch & HI & Hc)|HS].
  2:{ rewrite (Slotless_live s HS). destruct HS as (_ & Hlen & _).
      exists []. split; [|split; [done|constructor]].
      unfold SortByValue. mstep reflexivity. by rewrite Hlen. }
  rewrite (Inv_live _ _ HI).
  destruct (decide (ch = [])) as [->|Hne].
  { exists []. split; [|split; [done|constructor]].
    unfold SortByValue. mstep reflexivity. by rewrite Hc. }
  destruct (string_scan_start s ch HI Hc Hne) as (m & H0 & Hm & Hch & Hlen).
  assert ((length s <? 0) = false) as Hneg
    by (apply Z.ltb_ge; rewrite Hc; lia).
  set (vals := value_at (store s) <$> ch).
  exists (if reverse then sort_Slice (λ x y, compareKeysOrValues y x) vals
          else sort_Slice (λ x y, compareKeysOrValues x y) vals).
  split.
  { unfold SortByValue. mstep reflexivity. rewrite H0, Hneg. mstep reflexivity.
    mstep (by apply get_forward_nxt). mstep reflexivity.
    unfold walk_bound. mstep reflexivity.
    mstep (by apply collect_values_spec). by destruct reverse. }
  destruct reverse.
  - destruct (Hsort (λ x y, compareKeysOrValues y x) vals) as [Hperm Hsorted].
    split; [done|]. intros (Hirr & Htr & Htot). apply Hsorted.
    split; [done|]. split.
    + intros a b c Ha Hb' Hc' Hab Hbc. by apply (Htr c b a).
    + intros a b Ha Hb' Hne'. destruct (Htot a b Ha Hb' Hne'); eauto.
  - destruct (Hsort (λ x y, compareKeysOrValues x y) vals) as [Hperm Hsorted].
    split; done.
Qed.

Lemma SortByValue_rearranges_values_witness :
  ∃ vs, SortByValue insertion_sort true ex_list = Ret vs ex_list ∧
        vs ≡ₚ [IString "a"; IString "b"; IString "c"].
Proof.
  destruct (SortByValue_rearranges_values insertion_sort true ex_list
              insertion_sort_sorts ex_list_built) as (vs & H1 & H2 & _).
  exists vs. split; [exact H1|exact H2].
Defined.

(** ** Key types *)

(** A list never mixes key types: any two live keys have the same dynamic
    type, and that type is int or string as soon as the list holds two
    nodes. *)
Theorem keys_have_one_type s a b :
  reachable s → a ∈ live s → b ∈ live s →
  dyn_type (key_at (store s) a) = dyn_type (key_at (store s) b) ∧
  (a ≠ b → dyn_type (key_at (store s) a) = Some TInt ∨
           dyn_type (key_at (store s) a) = Some TString).
Proof.
  intros Hr Ha Hb. destruct (reachable_Inv_live s a Hr Ha) as [ch HI].
  rewrite (Inv_live _ _ HI) in *.
  destruct (decide (a = b)) as [->|Hne]; [done|].
  assert (key_at (store s) a ≠ key_at (store s) b) as Hk.
  { intros Heq. apply Hne. apply (inj Some).
    rewrite <-(hit_node_key s ch a HI Ha), <-(hit_node_key s ch b HI Hb).
    by rewrite Heq. }
  destruct (sorted_total _ _ _ (inv_sorted _ _ HI)
              (list_elem_of_fmap_2 _ _ _ Ha) (list_elem_of_fmap_2 _ _ _ Hb) Hk)
    as [H|H];
    destruct (key_lt_inv _ _ H) as [(?&?&->&->&_)|(?&?&->&->&_)]; simpl; eauto.
Qed.

Lemma keys_have_one_type_witness :
  dyn_type (key_at (store ex_list) 1%nat) = dyn_type (key_at (store ex_list) 2%nat).
Proof.
  assert (live ex_list = [2; 3; 1]%nat) as Hl by reflexivity.
  apply (keys_have_one_type ex_list 1%nat 2%nat ex_list_reachable);
    rewrite Hl; [right; right; left|left].
Defined.

(** ** Search and Delete on lists of several levels *)

Lemma Delete_miss_levels s chs k ch0 :
  Shape s chs → Ordered s chs → chs !! 0%nat = Some ch0 → is_nil k = false →
  hit_node (store s) k ch0 = None → Delete k s = Ret NotFound s.
Proof.
  intros HS HO Hch0 Hk Hmiss%hit_node_None.
  unfold Delete. rewrite Hk. mstep reflexivity. mstep (by apply make_levels).
  mstep reflexivity. rewrite (Shape_levels s chs HS).
  mstep (by apply (descend_top s chs k ch0)).
  mstep (apply (get_forward_nxt_at s 0); by apply (pred_in_nxt s chs)).
  mstep (apply is_hit_miss; [|done]); [|done].
  intros b Hb%post_of_elem. eapply Shape_valid; [done..|by right].
Qed.

(** On a well-linked list of any number of levels with increasing keys,
    the walk from the top level down ends where a walk along the bottom
    level would: Search of a key that is not nil returns the value of the
    bottom-level node that holds the key, and when no key of the bottom
    level compares equal to it, Search returns NotFound and Delete
    returns NotFound and changes nothing. *)
Theorem Search_on_levels s chs ch0 k :
  Shape s chs → Ordered s chs → chs !! 0%nat = Some ch0 → is_nil k = false →
  ((∀ b, b ∈ ch0 → compare (key_at (store s) b) k ≠ 0) →
     Search k s = Ret (INil, NotFound) s ∧ Delete k s = Ret NotFound s) ∧
  (∀ b, b ∈ ch0 → key_at (store s) b = k →
     Search k s = Ret (value_at (store s) b, None) s).
Proof.
  intros HS HO Hch0 Hk. pose proof (ord_sorted _ _ HO 0%nat ch0 Hch0) as Hs. split.
  - intros Hall%(hit_node_None_sorted _ _ _ Hs).
    split; [by rewrite (Search_levels s chs k ch0), Hall|].
    by apply (Delete_miss_levels s chs k ch0).
  - intros b (l1 & l2 & ->)%list_elem_of_split <-.
    destruct (split_at_node (store s) l1 b l2 Hs) as [_ Hpost].
    rewrite (Search_levels s chs _ _ HS HO Hch0 Hk).
    assert (hit_node (store s) (key_at (store s) b) (l1 ++ b :: l2) = Some b) as ->;
      [|done].
    apply hit_node_Some. exists l2. split; [done|apply compare_refl].
Qed.

Lemma Search_on_levels_witness :
  Search (IInt 3) ex_tower = Ret (IString "c", None) ex_tower ∧
  Delete (IInt 4) ex_tower = Ret NotFound ex_tower.
Proof.
  destruct ex_tower_Shape as [HS HO]. split.
  - destruct (Search_on_levels ex_tower _ [1; 2; 3]%nat (IInt 3) HS HO eq_refl eq_refl)
      as [_ H].
    apply (H 3%nat); [set_solver|reflexivity].
  - destruct (Search_on_levels ex_tower _ [1; 2; 3]%nat (IInt 4) HS HO eq_refl eq_refl)
      as [H _].
    apply H. intros b Hb.
    repeat (apply elem_of_cons in Hb as [->|Hb]; [by vm_compute|]).
    by apply elem_of_nil in Hb.
Defined.

(** ** Insert on lists of several levels *)

Lemma pred_in_valid s chs k (i : nat) ch :
  Shape s chs → chs !! i = Some ch →
  is_Some (store s !! pred_in s k ch) ∧ pred_in s k ch ≠ List.length (store s).
Proof.
  intros HS Hch.
  assert (is_Some (store s !! pred_in s k ch)) as Hv.
  { eapply Shape_valid; [done..|]. unfold pred_in.
    pose proof (last_of_elem (pre_of (store s) k ch) (head s))
      as [->|[Hin _]%pre_of_elem]%elem_of_cons; [left|by right]. }
  split; [done|]. apply lookup_lt_is_Some in Hv. lia.
Qed.

(** The loop [for i := 0; i < level; i++] of Insert, [n] rounds from level
    [j], the levels below [j] being done. *)
Lemma splice_levels s chs k v (ht : nat) :
  Shape s chs → (ht ≤ List.length chs)%nat →
  ∀ (n j : nat) h,
    (j + n = ht)%nat →
    List.length h = S (List.length (store s)) →
    key_at h (List.length (store s)) = k →
    value_at h (List.length (store s)) = v →
    (∀ b, is_Some (store s !! b) → key_at h b = key_at (store s) b) →
    (∀ b, is_Some (store s !! b) → value_at h b = value_at (store s) b) →
    (∀ i, (i < ht)%nat →
       nxt h i (List.length (store s)) =
       Some (if decide (i < j)%nat
             then hd_error (post_of (store s) k (default [] (chs !! i)))
             else None)) →
    (∀ i b, is_Some (store s !! b) →
       nxt h i b =
       if decide ((i < j)%nat ∧ b = pred_in s k (default [] (chs !! i)))
       then Some (Some (List.length (store s))) else nxt (store s) i b) →
    ∃ h', splice n (Z.of_nat j) (Some (List.length (store s))) (preds s k chs)
            (set_store h s)
          = Ret tt (set_store h' s) ∧
          Spliced (store s) chs k v ht
            (λ i, pred_in s k (default [] (chs !! i))) h'.
Proof.
  intros HS Hht.
  induction n as [|n IH]; intros j h Hj Hlen Hkn Hvn Hkey Hval Hnew Hnxt.
  { exists h. split; [done|]. assert (j = ht) as -> by lia.
    split; [done..| |done].
    intros i Hi. rewrite (Hnew i Hi). by destruct (decide (i < ht)%nat). }
  destruct (Shape_lookup s chs j HS) as [ch Hch]; [lia|].
  destruct (pred_in_valid s chs k j ch HS Hch) as [Hpv Hpn].
  set (p := pred_in s k ch) in *.
  set (nx := hd_error (post_of (store s) k ch)).
  assert (Hp : nxt h j p = Some nx).
  { rewrite Hnxt by done. destruct (decide _) as [[? _]|_]; [lia|].
    by apply (pred_in_nxt s chs). }
  assert (Hn0 : nxt h j (List.length (store s)) = Some None).
  { rewrite Hnew by lia. by destruct (decide (j < j)%nat); [lia|]. }
  assert (Hround :
    splice (S n) (Z.of_nat j) (Some (List.length (store s))) (preds s k chs) (set_store h s)
    = splice n (Z.of_nat (S j)) (Some (List.length (store s))) (preds s k chs)
        (set_store (relink_at j p (Some (List.length (store s))) (relink_at j (List.length (store s)) nx h)) s)).
  { cbn [splice]. mstep (by apply index_at, preds_lookup).
    mstep (by apply get_forward_nxt_at).
    mstep (by apply (set_forward_relink_at _ _ _ _ None)).
    mstep (apply (set_forward_relink_at _ _ _ _ nx); sl_simpl;
           by rewrite nxt_relink_at_other by (by right)).
    sl_simpl. by replace (Z.of_nat j + 1) with (Z.of_nat (S j)) by lia. }
  rewrite Hround. apply IH.
  - lia.
  - by rewrite !length_relink_at.
  - by rewrite !key_at_relink_at.
  - by rewrite !value_at_relink_at.
  - intros b Hb. rewrite !key_at_relink_at. by apply Hkey.
  - intros b Hb. rewrite !value_at_relink_at. by apply Hval.
  - intros i Hi. rewrite nxt_relink_at_other by (by right).
    destruct (decide (i = j)) as [->|Hij].
    + rewrite (nxt_relink_at_eq _ _ _ _ None) by done.
      rewrite Hch. simpl. by destruct (decide (j < S j)%nat); [|lia].
    + rewrite nxt_relink_at_other by (by left). rewrite Hnew by done.
      f_equal. apply decide_ext. lia.
  - intros i b Hb.
    assert (b ≠ (List.length (store s))) as Hbn by (apply lookup_lt_is_Some in Hb; lia).
    destruct (decide (i = j ∧ b = p)) as [[-> ->]|Hne].
    + rewrite (nxt_relink_at_eq _ _ _ _ nx)
        by (by rewrite nxt_relink_at_other by (by right)).
      rewrite Hch. simpl. by destruct (decide _) as [_|[]]; [|split; [lia|done]].
    + rewrite nxt_relink_at_other.
      2:{ destruct (decide (j = i)) as [->|]; [|by left]. right.
          intros <-. by destruct Hne. }
      rewrite nxt_relink_at_other by (right; by intros <-).
      rewrite Hnxt by done.
      apply decide_ext. split; intros [Hi ->]; (split; [|done]); [lia|].
      destruct (decide (i = j)) as [->|]; [|lia].
      destruct Hne. split; [done|]. by rewrite Hch.
Qed.

Lemma splice_top s chs k v (ht : nat) :
  Shape s chs → (1 ≤ ht ≤ List.length chs)%nat →
  ∃ h', splice ht 0 (Some (List.length (store s))) (preds s k chs)
          (set_store (store s ++ [mkNode k v (replicate ht None)]) s)
        = Ret tt (set_store h' s) ∧
        Spliced (store s) chs k v ht
          (λ i, pred_in s k (default [] (chs !! i))) h'.
Proof.
  intros HS Hht.
  apply (splice_levels s chs k v ht HS (proj2 Hht) ht 0%nat).
  - done.
  - rewrite length_app. simpl. lia.
  - unfold key_at. by rewrite list_lookup_middle.
  - unfold value_at. by rewrite list_lookup_middle.
  - intros b Hb. by apply key_at_app_l.
  - intros b Hb. by apply value_at_app_l.
  - intros i Hi. unfold nxt. rewrite list_lookup_middle by done. simpl.
    rewrite lookup_replicate_2 by done. by destruct (decide (i < 0)%nat); [lia|].
  - intros i b Hb. rewrite nxt_app_l by done.
    by destruct (decide _) as [[? _]|_]; [lia|].
Qed.

(** After the loop the chains below the height of the new node hold it at
    its place, and the others are as they were. *)
Lemma spliced_chain s chs k v (ht : nat) h' (i : nat) ch :
  Shape s chs →
  Spliced (store s) chs k v ht (λ i, pred_in s k (default [] (chs !! i))) h' →
  chs !! i = Some ch →
  lseg h' i (Some (head s))
    (head s :: if decide (i < ht)%nat
               then pre_of (store s) k ch ++ List.length (store s)
                      :: post_of (store s) k ch
               else ch) None.
Proof.
  intros HS HP Hch.
  pose proof (shape_chain _ _ HS i ch Hch) as Hseg.
  pose proof (shape_nodup _ _ HS i ch Hch) as Hnd.
  assert (Hvalid : ∀ a, a ∈ head s :: ch → is_Some (store s !! a))
    by (intros a Ha; by eapply Shape_valid).
  assert (Hnx : ∀ b, is_Some (store s !! b) →
            nxt h' i b = if decide ((i < ht)%nat ∧ b = pred_in s k ch)
                         then Some (Some (List.length (store s)))
                         else nxt (store s) i b).
  { intros b Hb. rewrite (spl_nxt _ _ _ _ _ _ _ HP i b Hb), Hch. done. }
  destruct (decide (i < ht)%nat) as [Hi|Hi].
  2:{ apply (lseg_frame (store s)); [|done]. intros a Ha.
      rewrite Hnx by auto. by destruct (decide _) as [[? _]|_]. }
  rewrite <-(pre_post_of (store s) k ch) in Hseg, Hnd, Hvalid.
  pose proof (spl_nxt_new _ _ _ _ _ _ _ HP i Hi) as Hnew. rewrite Hch in Hnew.
  simpl in Hnew. unfold pred_in in Hnx.
  set (pre := pre_of (store s) k ch) in *. set (post := post_of (store s) k ch) in *.
  destruct (chain_split_at _ _ _ _ _ Hseg) as (l1 & Hl1 & Hseg1 & Hp & Hseg2).
  remember (last_of (head s) pre) as p eqn:Ep. clear Ep.
  assert (Hall : head s :: pre ++ post = l1 ++ p :: post).
  { change (head s :: pre ++ post) with ((head s :: pre) ++ post).
    by rewrite Hl1, <-app_assoc. }
  rewrite Hall in Hnd, Hvalid.
  change (head s :: pre ++ ?x :: post) with ((head s :: pre) ++ x :: post).
  rewrite Hl1, <-app_assoc. simpl.
  apply (chain_rebuild_at _ _ _ _ _ (Some (List.length (store s)))).
  - apply (lseg_frame (store s)); [|done]. intros a Ha.
    rewrite Hnx by (apply Hvalid; set_solver).
    destruct (decide _) as [[_ ->]|_]; [|done].
    apply NoDup_app in Hnd as (_ & Hdis & _). destruct (Hdis p Ha). left.
  - rewrite Hnx by (apply Hvalid; set_solver).
    by destruct (decide _) as [_|[]]; [|split].
  - simpl. split; [done|]. exists (hd_error post). split; [done|].
    apply (lseg_frame (store s)); [|done]. intros a Ha.
    rewrite Hnx by (apply Hvalid; set_solver).
    destruct (decide _) as [[_ ->]|_]; [|done].
    apply NoDup_app in Hnd as (_ & _ & Hnd).
    apply NoDup_cons in Hnd as [Hnd _]. by destruct Hnd.
Qed.

Lemma with_node_lookup h k n0 (ht : nat) (chs : list (list addr)) (i : nat) c :
  with_node h k n0 ht chs !! i = Some c →
  ∃ ch, chs !! i = Some ch ∧
        c = if decide (i < ht)%nat
            then pre_of h k ch ++ n0 :: post_of h k ch else ch.
Proof.
  unfold with_node. rewrite list_lookup_imap.
  destruct (chs !! i) as [ch|]; intros; simplify_eq/=. eauto.
Qed.

Lemma with_node_elem h k n0 (ht i : nat) ch a :
  a ∈ (if decide (i < ht)%nat
       then pre_of h k ch ++ n0 :: post_of h k ch else ch) →
  a ∈ ch ∨ (a = n0 ∧ (i < ht)%nat).
Proof.
  destruct (decide (i < ht)%nat); [|by left].
  rewrite <-(pre_post_of h k ch) at 3. set_solver.
Qed.

Lemma with_node_incl h k n0 (ht i : nat) ch a :
  a ∈ ch →
  a ∈ (if decide (i < ht)%nat
       then pre_of h k ch ++ n0 :: post_of h k ch else ch).
Proof.
  destruct (decide (i < ht)%nat); [|done].
  rewrite <-(pre_post_of h k ch) at 1. set_solver.
Qed.

Lemma Shape_inserted s chs k v (ht : nat) h' n :
  Shape s chs →
  Spliced (store s) chs k v ht (λ i, pred_in s k (default [] (chs !! i))) h' →
  Shape (set_length n (set_store h' s))
        (with_node (store s) k (List.length (store s)) ht chs).
Proof.
  intros HS HP. split; sl_simpl.
  - unfold with_node. rewrite length_imap. apply HS.
  - apply HS.
  - intros i c (ch & Hch & ->)%with_node_lookup. by eapply spliced_chain.
  - intros i c (ch & Hch & ->)%with_node_lookup.
    pose proof (shape_nodup _ _ HS i ch Hch) as Hnd.
    assert (List.length (store s) ∉ head s :: ch) as Hfresh.
    { intros Hin. eapply Shape_valid in Hin; [|done..].
      apply lookup_lt_is_Some in Hin. lia. }
    destruct (decide (i < ht)%nat); [|done].
    rewrite <-(pre_post_of (store s) k ch) in Hnd, Hfresh.
    change (head s :: ?l1 ++ ?x :: ?l2) with ((head s :: l1) ++ x :: l2).
    rewrite <-Permutation_middle. by constructor.
  - intros i c c' (ch & Hch & ->)%with_node_lookup
      (ch' & Hch' & ->)%with_node_lookup a [Ha|[-> Hi]]%with_node_elem.
    + apply with_node_incl. by apply (shape_tower _ _ HS i ch ch').
    + destruct (decide (i < ht)%nat); [|lia]. set_solver.
Qed.

Lemma Ordered_inserted s chs ch0 k v (ht : nat) h' n :
  Shape s chs → Ordered s chs → chs !! 0%nat = Some ch0 → is_nil k = false →
  (∀ b, b ∈ ch0 → compare (key_at (store s) b) k ≠ 0) →
  Spliced (store s) chs k v ht (λ i, pred_in s k (default [] (chs !! i))) h' →
  Ordered (set_length n (set_store h' s))
          (with_node (store s) k (List.length (store s)) ht chs).
Proof.
  intros HS HO Hch0 Hk Hall HP.
  assert (Hold : ∀ i ch (l : list addr), chs !! i = Some ch → l ⊆ ch →
            key_at h' <$> l = key_at (store s) <$> l).
  { intros i ch l Hch Hl. apply fmap_ext_elem. intros a Ha.
    apply (spl_key _ _ _ _ _ _ _ HP). eapply Shape_valid; [done..|]. right. auto. }
  assert (Hkeys : ∀ i ch, chs !! i = Some ch →
    key_at h' <$> (pre_of (store s) k ch
                     ++ @cons addr (List.length (store s)) (post_of (store s) k ch))
    = (key_at (store s) <$> pre_of (store s) k ch)
        ++ k :: (key_at (store s) <$> post_of (store s) k ch)).
  { intros i ch Hch.
    rewrite fmap_app, fmap_cons, (spl_key_new _ _ _ _ _ _ _ HP).
    rewrite !(Hold i ch); [done|done| |done|]; intros a Ha;
      rewrite <-(pre_post_of (store s) k ch); set_solver. }
  split; sl_simpl; intros i c (ch & Hch & ->)%with_node_lookup;
    destruct (decide (i < ht)%nat);
    rewrite ?(Hkeys i ch Hch), ?(Hold i ch ch Hch) by done.
  - pose proof (ord_sorted _ _ HO i ch Hch) as Hs.
    rewrite <-(pre_post_of (store s) k ch), fmap_app in Hs.
    apply sorted_insert; [done| |].
    + apply Forall_fmap, pre_of_lt.
    + pose proof (post_of_stops (store s) k ch) as Hstop.
      destruct (post_of (store s) k ch) as [|b post] eqn:Hpost; [done|].
      simpl in *. apply compare_gt_lt.
      assert (b ∈ ch0) as Hb.
      { apply (Shape_incl s chs HS i 0%nat ch0 ch); [lia|done..|].
        apply (post_of_elem (store s) k). rewrite Hpost. left. }
      specialize (Hall b Hb). unfold key_lt in Hstop. lia.
  - by eapply ord_sorted.
  - pose proof (ord_keys _ _ HO i ch Hch) as Hnil.
    rewrite <-(pre_post_of (store s) k ch), fmap_app in Hnil.
    apply Forall_app in Hnil as [H1 H2]. apply Forall_app. split; [done|].
    by constructor.
  - by eapply ord_keys.
Qed.

(** Insert of a new key on a well-linked list of any number of levels
    with increasing keys.  When the sampled height is above the level,
    Insert panics with an index out of range on the update vector and
    changes nothing.  Otherwise it returns nil, allocates one node with the
    key and the value, and links it at its place in the order into every
    level below the sampled height, the other levels and the level count
    being left as they were; the list is again well-linked with
    increasing keys, and the count goes up by 1. *)
Theorem Insert_on_levels s chs ch0 rnd k v :
  Shape s chs → Ordered s chs → chs !! 0%nat = Some ch0 → is_nil k = false →
  (∀ b, b ∈ ch0 → compare (key_at (store s) b) k ≠ 0) →
  ∃ ht : nat,
    randomLevel rnd s = Ret (Z.of_nat ht) s ∧ (1 ≤ ht ≤ 32)%nat ∧
    ((List.length chs < ht)%nat → Insert rnd k v s = Panic IndexOutOfRange s) ∧
    ((ht ≤ List.length chs)%nat →
     ∃ s',
       Insert rnd k v s = Ret None s' ∧
       Shape s' (with_node (store s) k (List.length (store s)) ht chs) ∧
       Ordered s' (with_node (store s) k (List.length (store s)) ht chs) ∧
       key_at (store s') (List.length (store s)) = k ∧
       value_at (store s') (List.length (store s)) = v ∧
       (∀ b, is_Some (store s !! b) →
          key_at (store s') b = key_at (store s) b ∧
          value_at (store s') b = value_at (store s) b) ∧
       List.length (store s') = S (List.length (store s)) ∧
       head s' = head s ∧ level s' = level s ∧
       length s' = int_wrap (length s + 1)).
Proof.
  intros HS HO Hch0 Hk Hall.
  destruct (randomLevel_spec rnd s) as (lvl & Hrl & Hrange & _).
  exists (Z.to_nat lvl). rewrite Z2Nat.id by lia.
  split; [done|]. split; [lia|].
  pose proof (shape_level _ _ HS) as Hlvl.
  assert (Hmiss : misses (store s) k (post_of (store s) k ch0)).
  { apply hit_node_None, hit_node_None_sorted; [by eapply ord_sorted|done]. }
  assert (Hstart :
    Insert rnd k v s =
    (let* lvl' := randomLevel rnd in
     let* update :=
       (if lvl' >? level s then
          let* update := raise_update (Z.to_nat (lvl' - level s)) (level s)
                           (preds s k chs) in
          modify (set_level lvl');;
          ret update
        else ret (preds s k chs)) in
     let* fw := make lvl' in
     let* newNode := alloc (mkNode k v fw) in
     splice (Z.to_nat lvl') 0 newNode update;;
     modify (λ s, set_length (int_wrap (length s + 1)) s);;
     ret None) s).
  { unfold Insert. rewrite Hk. mstep reflexivity.
    mstep (by apply make_levels). mstep reflexivity.
    rewrite (Shape_levels s chs HS).
    mstep (by apply (descend_top s chs k ch0)).
    mstep (apply (get_forward_nxt_at s 0); by apply (pred_in_nxt s chs)).
    mstep (apply is_hit_miss; [|done]); [|done].
    intros b Hb%post_of_elem. eapply Shape_valid; [done..|by right]. }
  rewrite Hstart. clear Hstart.
  split.
  - intros Hgt. mstep (exact Hrl). apply bind_Panic.
    destruct (Z.gtb_spec lvl (level s)); [|lia]. apply bind_Panic.
    destruct (Z.to_nat (lvl - level s)) as [|n] eqn:Hn; [lia|]. cbn [raise_update].
    mstep reflexivity. apply bind_Panic. unfold index_set. apply bind_Panic.
    unfold index. rewrite Hlvl. destruct (Z.ltb_spec (Z.of_nat (List.length chs)) 0); [done|].
    rewrite Nat2Z.id. rewrite lookup_ge_None_2; [done|].
    unfold preds. by rewrite length_fmap.
  - intros Hle.
    destruct (splice_top s chs k v (Z.to_nat lvl) HS) as (h' & Hsp & HP); [lia|].
    eexists. split.
    { mstep (exact Hrl). destruct (Z.gtb_spec lvl (level s)); [lia|].
      mstep reflexivity.
      mstep (apply make_in_range; unfold max_slice_len; lia).
      mstep reflexivity. sl_simpl. mstep (exact Hsp).
      mstep reflexivity. done. }
    sl_simpl.
    split; [by apply (Shape_inserted s chs k v)|].
    split; [by apply (Ordered_inserted s chs ch0 k v)|].
    split; [apply HP|]. split; [apply HP|]. split.
    { intros b Hb. split; by apply HP. }
    split; [apply HP|done].
Qed.

Lemma Insert_on_levels_witness :
  (∃ s', Insert one_coin (IInt 4) (IString "d") ex_tower = Ret None s' ∧
         live s' = [1; 2; 3; 4]%nat ∧ level_chain s' 1 = Some [2; 4]%nat ∧
         level s' = 2) ∧
  Insert (λ i, Nat.ltb i 2) (IInt 4) (IString "d") ex_tower
  = Panic IndexOutOfRange ex_tower.
Proof.
  destruct ex_tower_Shape as [HS HO].
  assert (Hall : ∀ b, b ∈ [1; 2; 3]%nat →
            compare (key_at (store ex_tower) b) (IInt 4) ≠ 0).
  { intros b Hb.
    repeat (apply elem_of_cons in Hb as [->|Hb]; [by vm_compute|]).
    by apply elem_of_nil in Hb. }
  split.
  - destruct (Insert_on_levels ex_tower _ [1; 2; 3]%nat one_coin (IInt 4)
                (IString "d") HS HO eq_refl eq_refl Hall)
      as (ht & Hrl & _ & _ & H).
    assert (randomLevel one_coin ex_tower = Ret 2 ex_tower) as E by reflexivity.
    rewrite E in Hrl. injection Hrl as Hht.
    assert (ht = 2%nat) as -> by lia.
    destruct H as (s' & Hins & _ & _ & _ & _ & _ & _ & _ & Hlevel & _); [simpl; lia|].
    exists s'. split; [exact Hins|].
    split; [|split; [|exact Hlevel]]; injection Hins as <-; reflexivity.
  - destruct (Insert_on_levels ex_tower _ [1; 2; 3]%nat (λ i, Nat.ltb i 2) (IInt 4)
                (IString "d") HS HO eq_refl eq_refl Hall)
      as (ht & Hrl & _ & H & _).
    assert (randomLevel (λ i, Nat.ltb i 2) ex_tower = Ret 3 ex_tower) as E
      by reflexivity.
    rewrite E in Hrl. injection Hrl as Hht.
    assert (ht = 3%nat) as -> by lia.
    apply H. simpl. lia.
Defined.
